(** * Signalling server: registry, matchmaking and relay

    A shallow embedding of the WebSocket signalling server.  Two versions of
    the server exist in the repository:

    - [src/index.js]: single process, in-memory waiting queue;
    - the server listed in [frontendlogic.md]: the same handlers extended with
      an optional Redis store (shared waiting list and publish/subscribe), a
      per-connection rate limiter and a heartbeat.

    The second is modelled in full (module-free, top level); the first is
    modelled in [Module IndexJs] and shown to coincide with the second when
    no store is configured.

    Conventions.
    - A client object is a mutable JS object captured by the socket's
      closures.  Objects live in [heap], keyed by their [id] (the object
      identity), and stay there after [clients.delete]; the registry
      [clients] is the list of the Map's keys in insertion order, which is the
      order a [for ... of] loop visits them in.  A handler receives the
      object it is attached to as that key, and a read of [client.id] is the
      key ([run_roomsBelow_idsAgree] shows the field never differs from it).
    - [crypto.randomUUID()] draws from a supply that never repeats: the
      counter [uuid].  Identifiers are non-empty strings in the program, hence
      always truthy; [option Id] stands for "an id or null".
    - [sendToClient] hands a message to the transport of one client; the
      trace [sent] records these hand-offs, oldest first.
    - Handlers run to completion one after the other; without a store this
      is what the program does.  With a store [handleAvailable] is
      asynchronous and yields at each [await]: [step] and [run] take every
      await to resume before the next event is handled, while
      [handleAvailable_begin], [handleAvailable_resume] and [tick] give its
      stretches between awaits one by one.  The other store calls of the
      handlers are not awaited.  Whether a store call rejects is read from
      the schedule [faults]. *)

From stdpp Require Import gmap list strings.
From Stdlib Require Import ZArith Lia.

Local Open Scope Z_scope.

(** ** Data model *)

Definition Id := nat.
Definition RoomId := nat.

(** [client.rate = { ts, count }] *)
Record Rate := mkRate { ts : Z; count : Z }.

(** [{ id, ws, userId, partnerId, roomId, isAvailable, rate }]; the socket
    [ws] belongs to the transport. *)
Record Client := mkClient {
  id : Id;
  userId : option string;
  partnerId : option Id;
  roomId : option RoomId;
  isAvailable : bool;
  rate : Rate
}.

Inductive ErrorCode :=
  ALREADY_PAIRED | NOT_PAIRED | INVALID_FORMAT | UNKNOWN_TYPE | RATE_LIMIT.

(** Messages server -> client. *)
Inductive ServerMsg :=
| Ready (clientId : Id)
| Matched (room : RoomId) (partner : Id)
| PartnerLeft
| Error (code : ErrorCode)
| Pong
| Offer (from : Id) (sdp : string)
| Answer (from : Id) (sdp : string)
| Ice (from : Id) (candidate : string).

(** Messages client -> server, after [JSON.parse]; [CUnknown] is any other
    [type]. *)
Inductive ClientMsg :=
| CAuth (user : option string)
| CAvailable
| COffer (sdp : string)
| CAnswer (sdp : string)
| CIce (candidate : string)
| CNext
| CLeave
| CPing
| CUnknown.

(** What arrives on the socket: text that does not parse, or a message. *)
Inductive Inbound := BadJson | Parsed (m : ClientMsg).

Record Config := mkConfig {
  REQUEUE_ON_PARTNER_LEAVE : bool;
  MAX_MSG_PER_SECOND : Z;
  redis : bool                      (* is a store client configured? *)
}.

Definition defaultConfig : Config := mkConfig true 40 false.

Record State := mkState {
  heap : gmap Id Client;            (* client objects, by identity *)
  clients : list Id;                (* keys of the Map [clients], insertion order *)
  waitingQueue : list Id;           (* in-memory FIFO *)
  redisList : list Id;              (* WAITING_LIST in the store, head first *)
  faults : list bool;               (* next store calls: [true] rejects *)
  sent : list (Id * ServerMsg);     (* sendToClient calls *)
  published : list (Id * ServerMsg);(* envelopes on SIGNAL_CHANNEL *)
  uuid : nat                        (* supply of crypto.randomUUID *)
}.

Definition initState : State := mkState ∅ [] [] [] [] [] [] 0%nat.

Global Instance ErrorCode_eq_dec : EqDecision ErrorCode.
Proof. solve_decision. Defined.
Global Instance ServerMsg_eq_dec : EqDecision ServerMsg.
Proof. solve_decision. Defined.

(** *** Field updates *)

Definition set_heap (f : gmap Id Client → gmap Id Client) (s : State) : State :=
  mkState (f (heap s)) (clients s) (waitingQueue s) (redisList s) (faults s)
          (sent s) (published s) (uuid s).
Definition set_clients (f : list Id → list Id) (s : State) : State :=
  mkState (heap s) (f (clients s)) (waitingQueue s) (redisList s) (faults s)
          (sent s) (published s) (uuid s).
Definition set_waitingQueue (f : list Id → list Id) (s : State) : State :=
  mkState (heap s) (clients s) (f (waitingQueue s)) (redisList s) (faults s)
          (sent s) (published s) (uuid s).
Definition set_redisList (f : list Id → list Id) (s : State) : State :=
  mkState (heap s) (clients s) (waitingQueue s) (f (redisList s)) (faults s)
          (sent s) (published s) (uuid s).
Definition set_faults (f : list bool → list bool) (s : State) : State :=
  mkState (heap s) (clients s) (waitingQueue s) (redisList s) (f (faults s))
          (sent s) (published s) (uuid s).

Definition with_userId (u : option string) (c : Client) : Client :=
  mkClient (id c) u (partnerId c) (roomId c) (isAvailable c) (rate c).
Definition with_partnerId (p : option Id) (c : Client) : Client :=
  mkClient (id c) (userId c) p (roomId c) (isAvailable c) (rate c).
Definition with_roomId (r : option RoomId) (c : Client) : Client :=
  mkClient (id c) (userId c) (partnerId c) r (isAvailable c) (rate c).
Definition with_isAvailable (b : bool) (c : Client) : Client :=
  mkClient (id c) (userId c) (partnerId c) (roomId c) b (rate c).
Definition with_rate (r : Rate) (c : Client) : Client :=
  mkClient (id c) (userId c) (partnerId c) (roomId c) (isAvailable c) r.

(** [client.field = v] on the object [c]. *)
Definition assign (c : Id) (f : Client → Client) (s : State) : State :=
  set_heap (alter f c) s.

(** Reads of [client.partnerId] and [client.isAvailable]. *)
Definition partnerOf (s : State) (c : Id) : option Id :=
  heap s !! c ≫= partnerId.
Definition roomOf (s : State) (c : Id) : option RoomId :=
  heap s !! c ≫= roomId.
Definition availableOf (s : State) (c : Id) : bool :=
  from_option isAvailable false (heap s !! c).

(** ** Primitive operations *)

(** [crypto.randomUUID()] *)
Definition randomUUID (s : State) : nat * State :=
  (uuid s,
   mkState (heap s) (clients s) (waitingQueue s) (redisList s) (faults s)
           (sent s) (published s) (S (uuid s))).

(** [sendToClient(client, message)] *)
Definition sendToClient (c : Id) (m : ServerMsg) (s : State) : State :=
  mkState (heap s) (clients s) (waitingQueue s) (redisList s) (faults s)
          (sent s ++ [(c, m)]) (published s) (uuid s).

(** [clients.get(id)]: the registered object, if any. *)
Definition clients_get (s : State) (i : Id) : option Id :=
  if decide (i ∈ clients s) then Some i else None.

(** [waitingQueue.indexOf(x)], -1 when absent. *)
Fixpoint indexOf (q : list Id) (x : Id) : Z :=
  match q with
  | [] => -1
  | y :: q' =>
      if decide (y = x) then 0
      else let i := indexOf q' x in if i =? -1 then -1 else i + 1
  end.

(** [q.splice(index, 1)] for [index >= 0]. *)
Definition splice1 (index : Z) (q : list Id) : list Id :=
  take (Z.to_nat index) q ++ drop (S (Z.to_nat index)) q.

(** [const index = q.indexOf(x); if (index > -1) q.splice(index, 1);] *)
Definition queueRemove (x : Id) (q : list Id) : list Id :=
  let index := indexOf q x in
  if index >? -1 then splice1 index q else q.

(** [if (!q.includes(x)) q.push(x);] *)
Definition queuePushUnique (x : Id) (q : list Id) : list Id :=
  if decide (x ∈ q) then q else q ++ [x].

(** *** Store calls

    A call either completes or rejects; a rejection keeps the state the
    handler had reached. *)
Inductive Res (A : Type) :=
| Ok (a : A) (s : State)
| Throw (s : State).
Arguments Ok {A} a s.
Arguments Throw {A} s.

(** Does the next store call reject?  Consumes one entry of the schedule. *)
Definition nextFault (s : State) : bool * State :=
  match faults s with
  | [] => (false, s)
  | b :: fs => (b, set_faults (λ _, fs) s)
  end.

(** [await redis.lpush(WAITING_LIST, x)] *)
Definition lpush (x : Id) (s : State) : Res unit :=
  let '(bad, s) := nextFault s in
  if bad then Throw s else Ok () (set_redisList (λ l, x :: l) s).

(** [await redis.rpop(WAITING_LIST)] *)
Definition rpop (s : State) : Res (option Id) :=
  let '(bad, s) := nextFault s in
  if bad then Throw s
  else Ok (last (redisList s)) (set_redisList (λ l, removelast l) s).

(** [publishSignal(partnerId, payload)] *)
Definition publishSignal (cfg : Config) (p : Id) (m : ServerMsg) (s : State)
  : Res unit :=
  if negb (redis cfg) then Ok () s
  else
    let '(bad, s) := nextFault s in
    if bad then Throw s
    else Ok () (mkState (heap s) (clients s) (waitingQueue s) (redisList s)
                  (faults s) (sent s) (published s ++ [(p, m)]) (uuid s)).

(** [p.catch(...)]: a rejection is swallowed. *)
Definition catch_ignore (r : Res unit) : State :=
  match r with Ok _ s => s | Throw s => s end.

(** ** Rate limiter *)

(** [rateLimitOK(client)], with [now = Date.now()].  Times and counts are
    integers far inside the range where JS numbers are exact.  The listener
    exists only for an object that was created; the first branch is there to
    make the function total. *)
Definition rateLimitOK (cfg : Config) (now : Z) (c : Id) (s : State)
  : bool * State :=
  match heap s !! c with
  | None => (false, s)
  | Some cl =>
      if now - ts (rate cl) >? 1000 then
        (true, assign c (with_rate (mkRate now 1)) s)
      else
        let n := count (rate cl) + 1 in
        (n <=? MAX_MSG_PER_SECOND cfg,
         assign c (with_rate (mkRate (ts (rate cl)) n)) s)
  end.

(** ** Matchmaking *)

(** [findAvailablePartner(excludeId)]: first registered client, in the Map's
    order, other than [excludeId], flagged available and without partner. *)
Definition eligible (s : State) (excludeId : Id) (clientId : Id) : bool :=
  bool_decide (clientId ≠ excludeId)
  && availableOf s clientId
  && negb (bool_decide (is_Some (partnerOf s clientId))).

Definition findAvailablePartner (excludeId : Id) (s : State) : option Id :=
  find (eligible s excludeId) (clients s).

(** [createRoom(client1, client2)] *)
Definition createRoom (client1 client2 : Id) (s : State) : State :=
  let '(room, s) := randomUUID s in
  let s := assign client1 (with_partnerId (Some client2)) s in
  let s := assign client1 (with_roomId (Some room)) s in
  let s := assign client1 (with_isAvailable false) s in
  let s := assign client2 (with_partnerId (Some client1)) s in
  let s := assign client2 (with_roomId (Some room)) s in
  let s := assign client2 (with_isAvailable false) s in
  let s := set_waitingQueue (queueRemove client1) s in
  let s := set_waitingQueue (queueRemove client2) s in
  let s := sendToClient client1 (Matched room client2) s in
  sendToClient client2 (Matched room client1) s.

(** [tryMatchGlobal(selfId)]; [n] is the number of rounds left of the loop
    [for (let i = 0; i < 5; i += 1)]. *)
Fixpoint tryMatchGlobal_loop (n : nat) (selfId : Id) (s : State)
  : Res (option Id) :=
  match n with
  | O => Ok None s
  | S n' =>
      match rpop s with
      | Throw s => Throw s
      | Ok None s => Ok None s
      | Ok (Some p) s =>
          if decide (p ≠ selfId) then Ok (Some p) s
          else match lpush p s with
               | Throw s => Throw s
               | Ok _ s => tryMatchGlobal_loop n' selfId s
               end
      end
  end.

Definition tryMatchGlobal (cfg : Config) (selfId : Id) (s : State)
  : Res (option Id) :=
  if negb (redis cfg) then Ok None s else tryMatchGlobal_loop 5 selfId s.

(** The "Local fallback" part of [handleAvailable]; the whole of it in
    [index.js]. *)
Definition matchLocally (client : Id) (s : State) : State :=
  match findAvailablePartner client s with
  | Some partner => createRoom client partner s
  | None => set_waitingQueue (queuePushUnique client) s
  end.

(** The [try] block of [handleAvailable], its awaits answered one after the
    other with nothing in between: [Ok] is a [return] from inside the block,
    [Throw] enters the [catch]. *)
Definition matchGlobally (cfg : Config) (client : Id) (s : State) : Res unit :=
  match tryMatchGlobal cfg client s with
  | Throw s => Throw s
  | Ok (Some p) s =>
      match clients_get s p with
      | Some partnerLocal => Ok () (createRoom client partnerLocal s)
      | None =>
          let '(room, s) := randomUUID s in
          let s := assign client (with_partnerId (Some p)) s in
          let s := assign client (with_roomId (Some room)) s in
          let s := assign client (with_isAvailable false) s in
          let s := sendToClient client (Matched room p) s in
          publishSignal cfg p (Matched room client) s
      end
  | Ok None s => lpush client s
  end.

(** [handleAvailable(client)], run from its first line to its last with no
    other event in between.  With a store the function is [async]: it yields
    at every [await], and only the stretches between two awaits are atomic;
    those are [handleAvailable_begin] and [handleAvailable_resume] below, and
    this definition is their composition when nothing else runs in between
    ([declaration_left_alone]). *)
Definition handleAvailable (cfg : Config) (client : Id) (s : State) : State :=
  if bool_decide (is_Some (partnerOf s client)) then
    sendToClient client (Error ALREADY_PAIRED) s
  else
    let s := assign client (with_isAvailable true) s in
    if redis cfg then
      match matchGlobally cfg client s with
      | Ok _ s => s
      | Throw s => matchLocally client s
      end
    else matchLocally client s.

(** The rest of the [try] block once [tryMatchGlobal] has returned [r]. *)
Definition afterScan (cfg : Config) (client : Id) (r : Res (option Id))
  : Res unit :=
  match r with
  | Throw s => Throw s
  | Ok (Some p) s =>
      match clients_get s p with
      | Some partnerLocal => Ok () (createRoom client partnerLocal s)
      | None =>
          let '(room, s) := randomUUID s in
          let s := assign client (with_partnerId (Some p)) s in
          let s := assign client (with_roomId (Some room)) s in
          let s := assign client (with_isAvailable false) s in
          let s := sendToClient client (Matched room p) s in
          publishSignal cfg p (Matched room client) s
      end
  | Ok None s => lpush client s
  end.

(** *** [handleAvailable] between its awaits

    What a suspended [handleAvailable] is waiting for: the [rpop] of round
    [round] of [tryMatchGlobal], the [lpush] that puts its own id back in
    that round, the [lpush] that enqueues it, or the [publish] of the
    [matched] for a partner held by another process. *)
Inductive Pending :=
| AwaitPop (client : Id) (round : nat)
| AwaitPushBack (client : Id) (round : nat)
| AwaitEnqueue (client : Id)
| AwaitPublish (client : Id) (partner : Id) (room : RoomId).

(** From the call to the first [await]: the guard, the flag, and with a
    store the first [redis.rpop] of [tryMatchGlobal]. *)
Definition handleAvailable_begin (cfg : Config) (client : Id) (s : State)
  : State * option Pending :=
  if bool_decide (is_Some (partnerOf s client)) then
    (sendToClient client (Error ALREADY_PAIRED) s, None)
  else
    let s := assign client (with_isAvailable true) s in
    if redis cfg then (s, Some (AwaitPop client 0))
    else (matchLocally client s, None).

(** The awaited call settles and the handler runs on to its next [await] or
    to its end; a rejection enters the [catch] and the local fallback.  The
    store serves the call when it settles, on the list as it is then. *)
Definition handleAvailable_resume (cfg : Config) (w : Pending) (s : State)
  : State * option Pending :=
  match w with
  | AwaitPop client i =>
      match rpop s with
      | Throw s => (matchLocally client s, None)
      | Ok None s => (s, Some (AwaitEnqueue client))
      | Ok (Some p) s =>
          if decide (p ≠ client) then
            match clients_get s p with
            | Some partnerLocal => (createRoom client partnerLocal s, None)
            | None =>
                let '(room, s) := randomUUID s in
                let s := assign client (with_partnerId (Some p)) s in
                let s := assign client (with_roomId (Some room)) s in
                let s := assign client (with_isAvailable false) s in
                let s := sendToClient client (Matched room p) s in
                (s, Some (AwaitPublish client p room))
            end
          else (s, Some (AwaitPushBack client i))
      end
  | AwaitPushBack client i =>
      match lpush client s with
      | Throw s => (matchLocally client s, None)
      | Ok _ s =>
          if decide (S i < 5)%nat then (s, Some (AwaitPop client (S i)))
          else (s, Some (AwaitEnqueue client))
      end
  | AwaitEnqueue client =>
      match lpush client s with
      | Throw s => (matchLocally client s, None)
      | Ok _ s => (s, None)
      end
  | AwaitPublish client p room =>
      match publishSignal cfg p (Matched room client) s with
      | Throw s => (matchLocally client s, None)
      | Ok _ s => (s, None)
      end
  end.

(** One process serving [available] declarations: a declaration runs to its
    first await, and the store's replies come back in the order of the calls,
    each resuming the handler that waits for it. *)
Inductive Tick :=
| Announce (client : Id)
| Settle.

Definition tick (cfg : Config) (t : Tick) (st : State * list Pending)
  : State * list Pending :=
  match t with
  | Announce c =>
      let '(s, w) := handleAvailable_begin cfg c st.1 in (s, st.2 ++ option_list w)
  | Settle =>
      match st.2 with
      | [] => st
      | w :: ws =>
          let '(s, w') := handleAvailable_resume cfg w st.1 in
          (s, ws ++ option_list w')
      end
  end.

Definition ticks (cfg : Config) (ts : list Tick) (st : State * list Pending)
  : State * list Pending :=
  foldl (λ st t, tick cfg t st) st ts.

(** ** Relay *)

(** [relayToPartner(partnerId, payload)]; the boolean result is unused by
    the callers. *)
Definition relayToPartner (cfg : Config) (p : Id) (m : ServerMsg) (s : State)
  : State :=
  match clients_get s p with
  | Some partner => sendToClient partner m s
  | None =>
      if redis cfg then catch_ignore (publishSignal cfg p m s) else s
  end.

Definition notPaired (client : Id) (s : State) : State :=
  sendToClient client (Error NOT_PAIRED) s.

(** [handleOffer], [handleAnswer], [handleIce] *)
Definition handleOffer (cfg : Config) (client : Id) (sdp : string) (s : State)
  : State :=
  match partnerOf s client with
  | None => notPaired client s
  | Some p => relayToPartner cfg p (Offer client sdp) s
  end.

Definition handleAnswer (cfg : Config) (client : Id) (sdp : string) (s : State)
  : State :=
  match partnerOf s client with
  | None => notPaired client s
  | Some p => relayToPartner cfg p (Answer client sdp) s
  end.

Definition handleIce (cfg : Config) (client : Id) (cand : string) (s : State)
  : State :=
  match partnerOf s client with
  | None => notPaired client s
  | Some p => relayToPartner cfg p (Ice client cand) s
  end.

(** ** Teardown *)

(** The block shared by [handleNext], [handleLeave] and
    [handleClientDisconnect]: tell the partner, reset it if it is registered
    here, requeue it if configured. *)
Definition releasePartner (cfg : Config) (p : Id) (s : State) : State :=
  let s := relayToPartner cfg p PartnerLeft s in
  match clients_get s p with
  | Some partner =>
      let s := assign partner (with_partnerId None) s in
      let s := assign partner (with_roomId None) s in
      if REQUEUE_ON_PARTNER_LEAVE cfg then
        let s := assign partner (with_isAvailable true) s in
        if redis cfg then catch_ignore (lpush partner s)
        else set_waitingQueue (queuePushUnique partner) s
      else s
  | None => s
  end.

(** "Reset client state" and "Remove from local waiting queue". *)
Definition resetClient (client : Id) (s : State) : State :=
  let s := assign client (with_partnerId None) s in
  let s := assign client (with_roomId None) s in
  let s := assign client (with_isAvailable false) s in
  set_waitingQueue (queueRemove client) s.

(** [handleNext(client)] *)
Definition handleNext (cfg : Config) (client : Id) (s : State) : State :=
  match partnerOf s client with
  | None => notPaired client s
  | Some p => resetClient client (releasePartner cfg p s)
  end.

(** [handleLeave(client)] *)
Definition handleLeave (cfg : Config) (client : Id) (s : State) : State :=
  let s := match partnerOf s client with
           | Some p => releasePartner cfg p s
           | None => s
           end in
  resetClient client s.

(** [handleClientDisconnect(client)] *)
Definition handleClientDisconnect (cfg : Config) (client : Id) (s : State)
  : State :=
  let s := match partnerOf s client with
           | Some p => releasePartner cfg p s
           | None => s
           end in
  let s := set_waitingQueue (queueRemove client) s in
  set_clients (filter (λ i, i ≠ client)) s.

(** ** Session lifecycle *)

(** [handleAuth(client, message)] *)
Definition handleAuth (client : Id) (user : option string) (s : State) : State :=
  assign client (with_userId user) s.

(** [handleMessage(client, message)] *)
Definition handleMessage (cfg : Config) (client : Id) (m : ClientMsg) (s : State)
  : State :=
  match m with
  | CAuth u => handleAuth client u s
  | CAvailable => handleAvailable cfg client s
  | COffer sdp => handleOffer cfg client sdp s
  | CAnswer sdp => handleAnswer cfg client sdp s
  | CIce cand => handleIce cfg client cand s
  | CNext => handleNext cfg client s
  | CLeave => handleLeave cfg client s
  | CPing => sendToClient client Pong s
  | CUnknown => sendToClient client (Error UNKNOWN_TYPE) s
  end.

(** The body of [try { JSON.parse; handleMessage } catch { INVALID_FORMAT }]. *)
Definition parseAndHandle (cfg : Config) (client : Id) (data : Inbound)
  (s : State) : State :=
  match data with
  | BadJson => sendToClient client (Error INVALID_FORMAT) s
  | Parsed m => handleMessage cfg client m s
  end.

(** [ws.on('message', ...)] *)
Definition onMessage (cfg : Config) (now : Z) (client : Id) (data : Inbound)
  (s : State) : State :=
  let '(ok, s) := rateLimitOK cfg now client s in
  if negb ok then sendToClient client (Error RATE_LIMIT) s
  else parseAndHandle cfg client data s.

(** [wss.on('connection', ...)] for an allowed origin. *)
Definition onConnection (s : State) : State :=
  let '(i, s) := randomUUID s in
  let client := mkClient i None None None false (mkRate 0 0) in
  let s := set_heap (<[i := client]>) s in
  let s := set_clients (λ l, if decide (i ∈ l) then l else l ++ [i]) s in
  sendToClient i (Ready i) s.

(** Events handled by one process. *)
Inductive Event :=
| EConnect
| EMessage (now : Z) (client : Id) (data : Inbound)
| EClose (client : Id)              (* ws.on('close') *)
| ESocketError (client : Id)        (* ws.on('error') *)
| EStore (outcomes : list bool).    (* the store's coming behaviour *)

Definition step (cfg : Config) (e : Event) (s : State) : State :=
  match e with
  | EConnect => onConnection s
  | EMessage now c d => onMessage cfg now c d s
  | EClose c => handleClientDisconnect cfg c s
  | ESocketError c => handleClientDisconnect cfg c s
  | EStore l => set_faults (λ _, l) s
  end.

Definition run (cfg : Config) (es : list Event) (s : State) : State :=
  foldl (λ s e, step cfg e s) s es.

(** ** [src/index.js]

    The single-process server: no store, no rate limiter.  [createRoom],
    [findAvailablePartner], [handleAuth] (up to the unused [lastSeen]) and the
    connection handler read the same in both files and are shared. *)
Module IndexJs.

(** [handleAvailable(client)] *)
Definition handleAvailable (client : Id) (s : State) : State :=
  if bool_decide (is_Some (partnerOf s client)) then
    sendToClient client (Error ALREADY_PAIRED) s
  else
    let s := assign client (with_isAvailable true) s in
    match findAvailablePartner client s with
    | Some partner => createRoom client partner s
    | None => set_waitingQueue (queuePushUnique client) s
    end.

(** [const partner = clients.get(client.partnerId);
     if (partner) sendToClient(partner, m);] *)
Definition sendToPartner (p : Id) (m : ServerMsg) (s : State) : State :=
  match clients_get s p with
  | Some partner => sendToClient partner m s
  | None => s
  end.

Definition handleOffer (client : Id) (sdp : string) (s : State) : State :=
  match partnerOf s client with
  | None => sendToClient client (Error NOT_PAIRED) s
  | Some p => sendToPartner p (Offer client sdp) s
  end.

Definition handleAnswer (client : Id) (sdp : string) (s : State) : State :=
  match partnerOf s client with
  | None => sendToClient client (Error NOT_PAIRED) s
  | Some p => sendToPartner p (Answer client sdp) s
  end.

Definition handleIce (client : Id) (cand : string) (s : State) : State :=
  match partnerOf s client with
  | None => sendToClient client (Error NOT_PAIRED) s
  | Some p => sendToPartner p (Ice client cand) s
  end.

(** The [if (partner) { ... }] block of the three teardown handlers. *)
Definition releasePartner (requeue : bool) (p : Id) (s : State) : State :=
  match clients_get s p with
  | Some partner =>
      let s := sendToClient partner PartnerLeft s in
      let s := assign partner (with_partnerId None) s in
      let s := assign partner (with_roomId None) s in
      if requeue then
        let s := assign partner (with_isAvailable true) s in
        set_waitingQueue (queuePushUnique partner) s
      else s
  | None => s
  end.

Definition handleNext (requeue : bool) (client : Id) (s : State) : State :=
  match partnerOf s client with
  | None => sendToClient client (Error NOT_PAIRED) s
  | Some p => resetClient client (releasePartner requeue p s)
  end.

Definition handleLeave (requeue : bool) (client : Id) (s : State) : State :=
  let s := match partnerOf s client with
           | Some p => releasePartner requeue p s
           | None => s
           end in
  resetClient client s.

Definition handleClientDisconnect (requeue : bool) (client : Id) (s : State)
  : State :=
  let s := match partnerOf s client with
           | Some p => releasePartner requeue p s
           | None => s
           end in
  let s := set_waitingQueue (queueRemove client) s in
  set_clients (filter (λ i, i ≠ client)) s.

Definition handleMessage (requeue : bool) (client : Id) (m : ClientMsg)
  (s : State) : State :=
  match m with
  | CAuth u => handleAuth client u s
  | CAvailable => handleAvailable client s
  | COffer sdp => handleOffer client sdp s
  | CAnswer sdp => handleAnswer client sdp s
  | CIce cand => handleIce client cand s
  | CNext => handleNext requeue client s
  | CLeave => handleLeave requeue client s
  | CPing => sendToClient client Pong s
  | CUnknown => sendToClient client (Error UNKNOWN_TYPE) s
  end.

(** [ws.on('message', ...)] *)
Definition onMessage (requeue : bool) (client : Id) (data : Inbound)
  (s : State) : State :=
  match data with
  | BadJson => sendToClient client (Error INVALID_FORMAT) s
  | Parsed m => handleMessage requeue client m s
  end.

(** Events as [index.js] handles them: arrival times play no role and there
    is no store. *)
Definition step (requeue : bool) (e : Event) (s : State) : State :=
  match e with
  | EConnect => onConnection s
  | EMessage _ c d => onMessage requeue c d s
  | EClose c => handleClientDisconnect requeue c s
  | ESocketError c => handleClientDisconnect requeue c s
  | EStore _ => s
  end.

Definition run (requeue : bool) (es : list Event) (s : State) : State :=
  foldl (λ s e, step requeue e s) s es.

End IndexJs.

(** ** Observations and predicates used in the statements *)

Definition res_state {A} (r : Res A) : State :=
  match r with Ok _ s => s | Throw s => s end.

(** [s'] differs from [s] at most in the store's list, the fault schedule
    and the published envelopes. *)
Definition local_eq (s s' : State) : Prop :=
  heap s' = heap s ∧ clients s' = clients s ∧
  waitingQueue s' = waitingQueue s ∧ sent s' = sent s ∧ uuid s' = uuid s.

Definition in_heap (s : State) (c : Id) : Prop := is_Some (heap s !! c).

(** Partner links between registered connections point back. *)
Definition symmetric (s : State) : Prop :=
  ∀ c p, c ∈ clients s → partnerOf s c = Some p →
         p ∈ clients s ∧ partnerOf s p = Some c.

(** No registered connection is both flagged available and paired. *)
Definition exclusive (s : State) : Prop :=
  ∀ c, c ∈ clients s → ¬ (availableOf s c = true ∧ is_Some (partnerOf s c)).

(** The same of every client object, registered or not. *)
Definition neverBoth (s : State) : Prop :=
  ∀ c, ¬ (availableOf s c = true ∧ is_Some (partnerOf s c)).

Definition pairing_invariant (s : State) : Prop := symmetric s ∧ exclusive s.

(** What is carried along to prove it. *)
Record Inv (s : State) : Prop := mkInv {
  inv_heap : ∀ c, c ∈ clients s → in_heap s c;
  inv_supply : ∀ c, in_heap s c → (c < uuid s)%nat;
  inv_sym : symmetric s;
  inv_excl : exclusive s
}.

(** The event concerns a connection that is in the registry. *)
Definition registered (s : State) (e : Event) : Prop :=
  match e with
  | EMessage _ c _ | EClose c | ESocketError c => c ∈ clients s
  | EConnect | EStore _ => True
  end.

Global Instance registered_dec s e : Decision (registered s e).
Proof. destruct e; simpl; apply _. Defined.

(** Every event of the run concerns a connection registered at that point. *)
Fixpoint liveRun (cfg : Config) (es : list Event) (s : State) : Prop :=
  match es with
  | [] => True
  | e :: es' => registered s e ∧ liveRun cfg es' (step cfg e s)
  end.

Global Instance liveRun_dec cfg es s : Decision (liveRun cfg es s).
Proof. revert s. induction es; simpl; intros; apply _. Defined.

(** Both the [error] and the [close] handler of a socket run the teardown, so
    a teardown can come for a connection that has left the registry already.
    The event is [tame] when it is a message from a registered connection, a
    teardown of a registered connection, or a repeated teardown that finds
    the partner on record gone from the registry or without a partner. *)
Definition tame (s : State) (e : Event) : Prop :=
  match e with
  | EMessage _ c _ => c ∈ clients s
  | EClose c | ESocketError c =>
      c ∈ clients s ∨
      match partnerOf s c with
      | Some p => p ∈ clients s → partnerOf s p = None
      | None => True
      end
  | EConnect | EStore _ => True
  end.

Global Instance tame_dec s e : Decision (tame s e).
Proof.
  destruct e as [|now c d|c|c|l]; simpl; try apply _;
    destruct (partnerOf s c); apply _.
Defined.

Fixpoint tameRun (cfg : Config) (es : list Event) (s : State) : Prop :=
  match es with
  | [] => True
  | e :: es' => tame s e ∧ tameRun cfg es' (step cfg e s)
  end.

Global Instance tameRun_dec cfg es s : Decision (tameRun cfg es s).
Proof. revert s. induction es; simpl; intros; apply _. Defined.

(** The same for [index.js]. *)
Fixpoint tameRunJs (requeue : bool) (es : list Event) (s : State) : Prop :=
  match es with
  | [] => True
  | e :: es' => tame s e ∧ tameRunJs requeue es' (IndexJs.step requeue e s)
  end.

Global Instance tameRunJs_dec requeue es s : Decision (tameRunJs requeue es s).
Proof. revert s. induction es; simpl; intros; apply _. Defined.

(** The state with the handler's effect on [sent] only: [m] handed to [c]. *)
Definition onlySent (c : Id) (m : ServerMsg) (s : State) : State :=
  mkState (heap s) (clients s) (waitingQueue s) (redisList s) (faults s)
          (sent s ++ [(c, m)]) (published s) (uuid s).

(** [offer], [answer] and [ice]. *)
Definition isSignal (m : ClientMsg) : bool :=
  match m with COffer _ | CAnswer _ | CIce _ => true | _ => false end.

(** Is the message an [error]? *)
Definition isError (m : ServerMsg) : bool :=
  match m with Error _ => true | _ => false end.

(** Room ids held by clients were drawn from the supply. *)
Definition roomsBelow (s : State) : Prop :=
  ∀ x r, roomOf s x = Some r → (r < uuid s)%nat.

(** Objects are stored under their own [id]. *)
Definition idsAgree (s : State) : Prop :=
  ∀ c cl, heap s !! c = Some cl → id cl = c.

(** [client.rate] *)
Definition rateOf (s : State) (c : Id) : option Rate := rate <$> heap s !! c.

(** The two kinds of elementary effect the message and teardown handlers are
    made of: one that leaves the objects alone and never rewinds the supply,
    and a field assignment that keeps [id] and [rate] and only stores a room
    id already drawn. *)
Inductive prim : State → State → Prop :=
| prim_frame s s' :
    heap s' = heap s → (uuid s ≤ uuid s')%nat → prim s s'
| prim_assign c f s :
    (∀ cl, id (f cl) = id cl) →
    (∀ cl, rate (f cl) = rate cl) →
    (∀ cl r, roomId (f cl) = Some r → roomId cl = Some r ∨ (r < uuid s)%nat) →
    prim s (assign c f s).

(** [s'] has handed out what [s] had, then messages none of which is an
    [error]. *)
Definition sentNoError (s s' : State) : Prop :=
  ∃ new, sent s' = sent s ++ new ∧ Forall (λ xm, isError xm.2 = false) new.

(** The limiter's verdict on each of the messages [ms] (arrival time and
    content) that connection [c] sends one after the other. *)
Fixpoint verdicts (cfg : Config) (c : Id) (ms : list (Z * Inbound)) (s : State)
  : list bool :=
  match ms with
  | [] => []
  | (t, d) :: ms' =>
      (rateLimitOK cfg t c s).1 :: verdicts cfg c ms' (onMessage cfg t c d s)
  end.

(** *** Scenarios *)

Definition storeConfig : Config := mkConfig true 40 true.

Definition available (c : Id) : Event := EMessage 5000 c (Parsed CAvailable).

(** Three clients connect; the first declares itself available twice, then
    the other two declare themselves available. *)
Definition twiceAvailable : list Event :=
  [EConnect; EConnect; EConnect;
   available 0%nat; available 0%nat; available 1%nat; available 2%nat].

(** Two clients connect and are matched. *)
Definition matchedPair : list Event :=
  [EConnect; EConnect; available 0%nat; available 1%nat].

(** Clients 0 and 1 are paired; the socket of client 0 fails ([error]), client
    2 becomes available, and the socket of client 0 closes ([close]). *)
Definition closedTwice : list Event :=
  [EConnect; EConnect; EConnect; available 0%nat; available 1%nat;
   ESocketError 0%nat; available 2%nat; EClose 0%nat].

(** Clients 0 and 1 are paired; the socket of client 0 fails and closes. *)
Definition errorThenClose : list Event :=
  [EConnect; EConnect; available 0%nat; available 1%nat;
   ESocketError 0%nat; EClose 0%nat].

(** Two pairs are formed, (0,1) and (2,3); client 2 then client 0 ask for
    [next], which requeues client 3 and then client 1; a fifth client
    declares itself available. *)
Definition requeuedThenNewcomer : list Event :=
  [EConnect; EConnect; EConnect; EConnect; EConnect;
   available 1%nat; available 0%nat; available 3%nat; available 2%nat;
   EMessage 5000 2%nat (Parsed CNext); EMessage 5000 0%nat (Parsed CNext);
   available 4%nat].


(** With a store: the pairs (0,1) and (2,3) are formed; client 0, then client
    2, ask for [next], which requeues client 1, then client 3, on the store's
    list. *)
Definition storeRequeued : list Event :=
  [EConnect; EConnect; EConnect; EConnect;
   available 1%nat; available 0%nat; available 3%nat; available 2%nat;
   EMessage 5000 0%nat (Parsed CNext); EMessage 5000 2%nat (Parsed CNext)].

(** With a store: client 0 waits and disconnects, which leaves its id in the
    store's list; client 1 connects, declares itself available and is given
    that id as a partner on another instance. *)
Definition staleStoreEntry : list Event :=
  [EConnect; available 0%nat; EClose 0%nat; EConnect; available 1%nat].

(** Two clients connect. *)
Definition twoIdle : list Event := [EConnect; EConnect].

(** One client connects and waits. *)
Definition oneWaiting : list Event := [EConnect; available 0%nat].

(** ** The rest of the server listing *)

(** [redisSub.on('message', (_channel, raw) => ...)]: an envelope from the
    bus is delivered to its target when the target is registered here;
    [None] is text that does not parse. *)
Definition onSignal (envelope : option (Id * ServerMsg)) (s : State) : State :=
  match envelope with
  | None => s
  | Some (targetId, payload) =>
      match clients_get s targetId with
      | Some client => sendToClient client payload s
      | None => s
      end
  end.

(** [ALLOWED_ORIGIN.length] and [ALLOWED_ORIGIN.includes(origin)], where
    [origin = req.headers.origin || ''] and [None] is a request without the
    header. *)
Definition originAllowed (allowed : list string) (origin : option string) : bool :=
  match allowed with
  | [] => true
  | _ => bool_decide (default EmptyString origin ∈ allowed)
  end.

(** [.filter(Boolean)] on the trimmed entries of the environment variable. *)
Definition dropEmpty (entries : list string) : list string :=
  filter (λ o, o ≠ EmptyString) entries.

(** [wss.on('connection', (ws, req) => ...)]: a refused origin is closed with
    code 1008 and nothing else happens. *)
Definition onConnectionFrom (allowed : list string) (origin : option string)
  (s : State) : State :=
  if originAllowed allowed origin then onConnection s else s.

(** *** Heartbeat

    [wss.clients] with each socket's [isAlive], keyed like the client it
    carries. *)

(** [setupHeartbeat(ws)]: [ws.isAlive = true]. *)
Definition setupHeartbeat (i : Id) (alive : gmap Id bool) : gmap Id bool :=
  <[i := true]> alive.

(** [ws.on('pong', () => { ws.isAlive = true; })] *)
Definition onPong (i : Id) (alive : gmap Id bool) : gmap Id bool :=
  alter (λ _, true) i alive.

(** The socket has closed and left [wss.clients]. *)
Definition onSocketGone (i : Id) (alive : gmap Id bool) : gmap Id bool :=
  delete i alive.

(** The interval callback: a socket whose flag is down is terminated and
    otherwise left as it is; the others get their flag lowered and a ping.
    Returns the sockets terminated and the flags afterwards. *)
Definition heartbeatTick (alive : gmap Id bool) : list Id * gmap Id bool :=
  ((map_to_list (filter (λ kv, kv.2 = false) alive)).*1,
   (λ _, false) <$> alive).

(** A tick, then the [close] events of the sockets it terminated, handled in
    the order [order] in which they arrive, no other event coming in
    between. *)
Definition heartbeatRound (cfg : Config) (order : list Id)
  (alive : gmap Id bool) (s : State) : gmap Id bool * State :=
  (foldr onSocketGone (heartbeatTick alive).2 order,
   foldl (λ s i, handleClientDisconnect cfg i s) s order).

(** ** The client side

    The signalling state the front end keeps, and its message handler
    ([handleSignalingMessage]; the React hook of the README keeps the first
    two fields the same way).  The calls into WebRTC are not signalling state
    and are left out. *)
Record ClientView := mkView {
  v_clientId : option Id;
  v_partnerId : option Id;
  v_roomId : option RoomId
}.

Definition handleSignalingMessage (m : ServerMsg) (v : ClientView) : ClientView :=
  match m with
  | Ready i => mkView (Some i) (v_partnerId v) (v_roomId v)
  | Matched r p => mkView (v_clientId v) (Some p) (Some r)
  | PartnerLeft => mkView (v_clientId v) None None
  | _ => v
  end.

(** The messages handed to connection [c] so far, oldest first. *)
Definition msgsTo (s : State) (c : Id) : list ServerMsg :=
  (filter (λ xm, xm.1 = c) (sent s)).*2.

(** What the message handler alone makes of them, the front end having done
    nothing else: its own clearing of partner and room, in
    [cleanupWebRTCConnection], is part of [frontView] below. *)
Definition viewOf (s : State) (c : Id) : ClientView :=
  foldl (λ v m, handleSignalingMessage m v) (mkView None None None) (msgsTo s c).

(** What happens at the front end that bears on its signalling state: a
    message arrives ([ws.onmessage]), or the user calls [signalAvailable],
    [requestNextPartner] or [leaveSession] on an open socket. *)
Inductive FrontEvent :=
| Received (m : ServerMsg)
| SignalAvailable
| RequestNextPartner
| LeaveSession.

(** [cleanupWebRTCConnection()]: [setPartnerId(null); setRoomId(null)]. *)
Definition cleanupWebRTCConnection (v : ClientView) : ClientView :=
  mkView (v_clientId v) None None.

Definition frontStep (v : ClientView) (e : FrontEvent) : ClientView :=
  match e with
  | Received m => handleSignalingMessage m v
  | SignalAvailable => v
  | RequestNextPartner | LeaveSession => cleanupWebRTCConnection v
  end.

(** What the front end sends with it. *)
Definition frontSends (e : FrontEvent) : option ClientMsg :=
  match e with
  | Received _ => None
  | SignalAvailable => Some CAvailable
  | RequestNextPartner => Some CNext
  | LeaveSession => Some CLeave
  end.

(** The front end's state after the events [fe], oldest first. *)
Definition frontView (fe : list FrontEvent) : ClientView :=
  foldl frontStep (mkView None None None) fe.

(** The messages among them. *)
Definition received (fe : list FrontEvent) : list ServerMsg :=
  omap (λ e, match e with Received m => Some m | _ => None end) fe.

(** The front end has cleared partner and room itself, by [requestNextPartner]
    or [leaveSession], and has handled neither [matched] nor [partner-left]
    since. *)
Definition clearedItself (fe : list FrontEvent) : bool :=
  foldl (λ b e, match e with
                | Received (Matched _ _) | Received PartnerLeft => false
                | RequestNextPartner | LeaveSession => true
                | _ => b
                end) false fe.

(** ** Further predicates *)

(** What the partner of [from] is handed for an [offer], [answer] or [ice]:
    the same fields, tagged with the sender. *)
Definition relayed (from : Id) (m : ClientMsg) : option ServerMsg :=
  match m with
  | COffer sdp => Some (Offer from sdp)
  | CAnswer sdp => Some (Answer from sdp)
  | CIce cand => Some (Ice from cand)
  | _ => None
  end.

(** [available], [next] and [leave]: the messages that reach the matchmaker. *)
Definition isMatchmaking (d : Inbound) : bool :=
  match d with
  | Parsed CAvailable | Parsed CNext | Parsed CLeave => true
  | _ => false
  end.

(** Partner, room and available flag of every object, the registry and both
    queues are the same in [s] and [s']. *)
Definition samePairing (s s' : State) : Prop :=
  (∀ x, partnerOf s' x = partnerOf s x ∧ roomOf s' x = roomOf s x ∧
        availableOf s' x = availableOf s x) ∧
  clients s' = clients s ∧ waitingQueue s' = waitingQueue s ∧
  redisList s' = redisList s.

(** An object and the messages handed to it. *)
Definition snap (s : State) (x : Id) : option Client * list ServerMsg :=
  (heap s !! x, msgsTo s x).

(** Neither [ready], [matched] nor [partner-left]. *)
Definition neutralMsg (m : ServerMsg) : Prop :=
  match m with Ready _ | Matched _ _ | PartnerLeft => False | _ => True end.

(** What one handler's worth of effect can do to the object [x] and its
    mailbox: change fields other than partner and room, hand it a neutral
    message, link it to another connection and tell it so, or unlink it with or
    without telling it. *)
Inductive otrans (x : Id)
  : option Client * list ServerMsg → option Client * list ServerMsg → Prop :=
| ot_field o ms f :
    (∀ cl, partnerId (f cl) = partnerId cl) →
    (∀ cl, roomId (f cl) = roomId cl) →
    (∀ cl, o = Some cl → is_Some (partnerId cl) →
           isAvailable (f cl) = isAvailable cl) →
    otrans x (o, ms) (f <$> o, ms)
| ot_msg o ms m :
    neutralMsg m → otrans x (o, ms) (o, ms ++ [m])
| ot_match o ms f p r :
    p ≠ x →
    (∀ cl, partnerId (f cl) = Some p) → (∀ cl, roomId (f cl) = Some r) →
    (∀ cl, isAvailable (f cl) = false) →
    otrans x (o, ms) (f <$> o, ms ++ [Matched r p])
| ot_unlink o ms f told :
    (∀ cl, partnerId (f cl) = None) → (∀ cl, roomId (f cl) = None) →
    otrans x (o, ms) (f <$> o, ms ++ (if told : bool then [PartnerLeft] else []))
| ot_new o ms cl :
    partnerId cl = None → roomId cl = None →
    otrans x (o, ms) (Some cl, ms ++ [Ready x]).

(** What holds of every object and its mailbox: it is not its own partner, it
    has a room exactly when it has a partner, it is not flagged available
    while it has one, its front end knows its id, and the last word its front
    end got about its partner and room is what its record says. *)
Definition snapOk (x : Id) (sn : option Client * list ServerMsg) : Prop :=
  ∀ cl, sn.1 = Some cl →
    let v := foldl (λ v m, handleSignalingMessage m v) (mkView None None None) sn.2 in
    partnerId cl ≠ Some x ∧
    (is_Some (roomId cl) ↔ is_Some (partnerId cl)) ∧
    (is_Some (partnerId cl) → isAvailable cl = false) ∧
    v_clientId v = Some x ∧
    (is_Some (partnerId cl) →
       v_partnerId v = partnerId cl ∧ v_roomId v = roomId cl).

(** The in-memory queue lists exactly the registered connections that are
    flagged available and have no partner. *)
Definition queueExact (s : State) : Prop :=
  ∀ x, x ∈ waitingQueue s ↔
       x ∈ clients s ∧ availableOf s x = true ∧ partnerOf s x = None.

(** Partners hold the same room id, and nobody else holds it. *)
Definition roomsShared (s : State) : Prop :=
  ∀ c d r, c ∈ clients s → d ∈ clients s → c ≠ d →
           roomOf s c = Some r →
           (roomOf s d = Some r ↔ partnerOf s c = Some d).

(** * Properties *)

Arguments createRoom : simpl never.
Arguments matchLocally : simpl never.
Arguments matchGlobally : simpl never.
Arguments tryMatchGlobal : simpl never.
Arguments handleAvailable : simpl never.
Arguments relayToPartner : simpl never.
Arguments releasePartner : simpl never.
Arguments publishSignal : simpl never.
Arguments lpush : simpl never.
Arguments rpop : simpl never.

(** ** The waiting queue *)

Lemma indexOf_range q x : indexOf q x = -1 ∨ 0 ≤ indexOf q x.
Proof.
  induction q as [|y q IH]; simpl; [by left|].
  destruct (decide (y = x)); [right; lia|].
  destruct (indexOf q x =? -1) eqn:E; [by left | right].
  apply Z.eqb_neq in E. lia.
Qed.

Lemma queueRemove_nil x : queueRemove x [] = [].
Proof. reflexivity. Qed.

(** [indexOf] followed by [splice] removes the first occurrence. *)
Lemma queueRemove_cons x y q :
  queueRemove x (y :: q) = if decide (y = x) then q else y :: queueRemove x q.
Proof.
  unfold queueRemove; simpl.
  destruct (decide (y = x)) as [->|Hne]; simpl.
  - unfold splice1. simpl. by rewrite drop_0.
  - destruct (indexOf_range q x) as [E|E].
    + rewrite E. reflexivity.
    + destruct (indexOf q x =? -1) eqn:E1; [apply Z.eqb_eq in E1; lia|].
      replace (indexOf q x + 1 >? -1) with true by (symmetry; apply Z.gtb_lt; lia).
      replace (indexOf q x >? -1) with true by (symmetry; apply Z.gtb_lt; lia).
      unfold splice1. replace (Z.to_nat (indexOf q x + 1)) with (S (Z.to_nat (indexOf q x))) by lia.
      reflexivity.
Qed.

Lemma queueRemove_absent x q : x ∉ q → queueRemove x q = q.
Proof.
  induction q as [|y q IH]; intros Hx; [done|].
  rewrite queueRemove_cons. apply not_elem_of_cons in Hx as [Hxy Hq].
  destruct (decide (y = x)); [congruence|]. by rewrite IH.
Qed.

Lemma queueRemove_subseteq x q y : y ∈ queueRemove x q → y ∈ q.
Proof.
  induction q as [|z q IH]; [done|].
  rewrite queueRemove_cons. destruct (decide (z = x)).
  - intros. by apply elem_of_cons; right.
  - rewrite !elem_of_cons. intros [->|H]; auto.
Qed.

Lemma queueRemove_other x q y : y ≠ x → y ∈ q → y ∈ queueRemove x q.
Proof.
  intros Hne. induction q as [|z q IH]; [done|].
  rewrite queueRemove_cons. rewrite elem_of_cons. intros [->|H].
  - destruct (decide (z = x)); [congruence|]. by apply elem_of_cons; left.
  - destruct (decide (z = x)); [done|]. apply elem_of_cons; right; auto.
Qed.

Lemma queueRemove_NoDup x q : NoDup q → NoDup (queueRemove x q).
Proof.
  induction 1 as [|y q Hy Hq IH]; [constructor|].
  rewrite queueRemove_cons. destruct (decide (y = x)); [done|].
  constructor; [|done]. intros H. by apply Hy, (queueRemove_subseteq x).
Qed.

Lemma queueRemove_gone x q : NoDup q → x ∉ queueRemove x q.
Proof.
  induction 1 as [|y q Hy Hq IH]; [by rewrite queueRemove_nil; apply not_elem_of_nil|].
  rewrite queueRemove_cons. destruct (decide (y = x)) as [->|Hne]; [done|].
  apply not_elem_of_cons. split; [congruence | done].
Qed.

(** The entries other than [x] keep their relative order. *)
Lemma queueRemove_order x q :
  filter (λ y, y ≠ x) (queueRemove x q) = filter (λ y, y ≠ x) q.
Proof.
  induction q as [|y q IH]; [done|].
  rewrite queueRemove_cons. destruct (decide (y = x)) as [->|Hne].
  - rewrite filter_cons. by destruct (decide (x ≠ x)).
  - rewrite !filter_cons. destruct (decide (y ≠ x)); [|done]. by rewrite IH.
Qed.

Lemma queuePushUnique_NoDup x q : NoDup q → NoDup (queuePushUnique x q).
Proof.
  intros Hq. unfold queuePushUnique. destruct (decide (x ∈ q)); [done|].
  apply NoDup_app. split_and!; [done| |apply NoDup_singleton].
  intros y Hy ->%list_elem_of_singleton. done.
Qed.

Lemma queuePushUnique_elem x q y : y ∈ queuePushUnique x q ↔ y = x ∨ y ∈ q.
Proof.
  unfold queuePushUnique. destruct (decide (x ∈ q)).
  - split; [auto|]. intros [->|]; done.
  - rewrite elem_of_app, list_elem_of_singleton. tauto.
Qed.

(** ** Store calls leave the process-local state alone *)


Lemma local_eq_refl s : local_eq s s.
Proof. by repeat split. Qed.

Lemma local_eq_trans s1 s2 s3 : local_eq s1 s2 → local_eq s2 s3 → local_eq s1 s3.
Proof. unfold local_eq. intros (?&?&?&?&?) (?&?&?&?&?). split_and!; congruence. Qed.

Lemma nextFault_local s : local_eq s (nextFault s).2.
Proof. unfold nextFault. destruct (faults s); by repeat split. Qed.

Lemma lpush_local x s : local_eq s (res_state (lpush x s)).
Proof.
  unfold lpush, nextFault. destruct (faults s) as [|[] ?]; by repeat split.
Qed.

Lemma rpop_local s : local_eq s (res_state (rpop s)).
Proof.
  unfold rpop, nextFault. destruct (faults s) as [|[] ?]; by repeat split.
Qed.

Lemma publishSignal_local cfg p m s : local_eq s (res_state (publishSignal cfg p m s)).
Proof.
  unfold publishSignal, nextFault. destruct (redis cfg); simpl; [|apply local_eq_refl].
  destruct (faults s) as [|[] ?]; by repeat split.
Qed.

Lemma tryMatchGlobal_loop_local n self s :
  local_eq s (res_state (tryMatchGlobal_loop n self s)).
Proof.
  revert s. induction n as [|n IH]; intros s; simpl; [apply local_eq_refl|].
  pose proof (rpop_local s) as Hr.
  destruct (rpop s) as [[p|] s1|s1]; simpl in *; try done.
  destruct (decide (p ≠ self)); simpl; [done|].
  pose proof (lpush_local p s1) as Hl.
  destruct (lpush p s1) as [[] s2|s2]; simpl in *.
  - eapply local_eq_trans; [exact Hr|]. eapply local_eq_trans; [exact Hl|]. apply IH.
  - eapply local_eq_trans; eauto.
Qed.

Lemma tryMatchGlobal_local cfg self s :
  local_eq s (res_state (tryMatchGlobal cfg self s)).
Proof.
  unfold tryMatchGlobal. destruct (redis cfg); cbn [negb];
    [apply tryMatchGlobal_loop_local | apply local_eq_refl].
Qed.

(** ** The local queue never holds an id twice *)

Lemma createRoom_queue a b s :
  waitingQueue (createRoom a b s) = queueRemove b (queueRemove a (waitingQueue s)).
Proof. reflexivity. Qed.

Lemma matchLocally_NoDup c s :
  NoDup (waitingQueue s) → NoDup (waitingQueue (matchLocally c s)).
Proof.
  intros H. unfold matchLocally. destruct (findAvailablePartner c s).
  - rewrite createRoom_queue. by do 2 apply queueRemove_NoDup.
  - simpl. by apply queuePushUnique_NoDup.
Qed.

Lemma matchGlobally_NoDup cfg c s :
  NoDup (waitingQueue s) → NoDup (waitingQueue (res_state (matchGlobally cfg c s))).
Proof.
  intros H. unfold matchGlobally.
  pose proof (tryMatchGlobal_local cfg c s) as (_&_&Hq&_).
  destruct (tryMatchGlobal cfg c s) as [[p|] s1|s1]; simpl in Hq.
  - destruct (clients_get s1 p); simpl.
    + rewrite ?createRoom_queue, Hq. by do 2 apply queueRemove_NoDup.
    + match goal with |- context [publishSignal ?c ?p ?m ?s] =>
        pose proof (publishSignal_local c p m s) as (_&_&Hq'&_) end.
      rewrite Hq'. simpl. by rewrite Hq.
  - pose proof (lpush_local c s1) as (_&_&Hq'&_). by rewrite Hq', Hq.
  - simpl. by rewrite Hq.
Qed.

Lemma handleAvailable_NoDup cfg c s :
  NoDup (waitingQueue s) → NoDup (waitingQueue (handleAvailable cfg c s)).
Proof.
  intros H. unfold handleAvailable. case_bool_decide; [done|].
  destruct (redis cfg).
  - pose proof (matchGlobally_NoDup cfg c (assign c (with_isAvailable true) s) H) as HG.
    destruct (matchGlobally cfg c _) as [[] s1|s1]; simpl in HG; [done|].
    by apply matchLocally_NoDup.
  - by apply matchLocally_NoDup.
Qed.

Lemma relayToPartner_local cfg p m s :
  waitingQueue (relayToPartner cfg p m s) = waitingQueue s.
Proof.
  unfold relayToPartner. destruct (clients_get s p); [done|].
  destruct (redis cfg); [|done].
  pose proof (publishSignal_local cfg p m s) as (_&_&Hq&_).
  by destruct (publishSignal cfg p m s).
Qed.

Lemma releasePartner_NoDup cfg p s :
  NoDup (waitingQueue s) → NoDup (waitingQueue (releasePartner cfg p s)).
Proof.
  intros H. unfold releasePartner.
  assert (NoDup (waitingQueue (relayToPartner cfg p PartnerLeft s))) as H'
    by by rewrite relayToPartner_local.
  destruct (clients_get _ p) as [q|]; [|done].
  destruct (REQUEUE_ON_PARTNER_LEAVE cfg); [|done].
  destruct (redis cfg).
  - match goal with |- context [lpush ?x ?s] =>
      pose proof (lpush_local x s) as (_&_&Hq&_); destruct (lpush x s) end;
      simpl in *; by rewrite Hq.
  - simpl. by apply queuePushUnique_NoDup.
Qed.

Lemma parseAndHandle_NoDup cfg c d s :
  NoDup (waitingQueue s) → NoDup (waitingQueue (parseAndHandle cfg c d s)).
Proof.
  intros H. destruct d as [|m]; simpl; [done|].
  destruct m; simpl; try done.
  - by apply handleAvailable_NoDup.
  - unfold handleOffer. destruct (partnerOf s c); [by rewrite relayToPartner_local|done].
  - unfold handleAnswer. destruct (partnerOf s c); [by rewrite relayToPartner_local|done].
  - unfold handleIce. destruct (partnerOf s c); [by rewrite relayToPartner_local|done].
  - unfold handleNext. destruct (partnerOf s c); [|done].
    simpl. by apply queueRemove_NoDup, releasePartner_NoDup.
  - unfold handleLeave. simpl. apply queueRemove_NoDup.
    destruct (partnerOf s c); [by apply releasePartner_NoDup|done].
Qed.

Lemma handleClientDisconnect_NoDup cfg c s :
  NoDup (waitingQueue s) → NoDup (waitingQueue (handleClientDisconnect cfg c s)).
Proof.
  intros H. unfold handleClientDisconnect. simpl. apply queueRemove_NoDup.
  destruct (partnerOf s c); [by apply releasePartner_NoDup|done].
Qed.

Lemma step_NoDup cfg e s :
  NoDup (waitingQueue s) → NoDup (waitingQueue (step cfg e s)).
Proof.
  intros H. destruct e as [|now c d|c|c|l]; simpl; try done.
  - unfold onMessage, rateLimitOK.
    assert (∀ s', waitingQueue s' = waitingQueue s →
              NoDup (waitingQueue (parseAndHandle cfg c d s'))) as Hh.
    { intros s' Hs'. apply parseAndHandle_NoDup. by rewrite Hs'. }
    destruct (heap s !! c) as [cl|]; simpl; [|done].
    destruct (_ >? _); simpl; [by apply Hh|].
    destruct (_ <=? _); simpl; [by apply Hh|done].
  - by apply handleClientDisconnect_NoDup.
  - by apply handleClientDisconnect_NoDup.
Qed.

Lemma run_snoc cfg es e s : run cfg (es ++ [e]) s = step cfg e (run cfg es s).
Proof. unfold run. by rewrite foldl_app. Qed.

Lemma run_NoDup cfg es s :
  NoDup (waitingQueue s) → NoDup (waitingQueue (run cfg es s)).
Proof.
  intros H. induction es as [|e es IH] using rev_ind; [done|].
  rewrite run_snoc. by apply step_NoDup.
Qed.

(** ** Reading fields after an assignment *)


Lemma in_heap_assign c f s x : in_heap (assign c f s) x ↔ in_heap s x.
Proof. unfold in_heap, assign; simpl. apply lookup_alter_is_Some. Qed.

Lemma partnerOf_assign c f s x :
  partnerOf (assign c f s) x =
  if decide (c = x) then heap s !! c ≫= (λ cl, partnerId (f cl)) else partnerOf s x.
Proof.
  unfold partnerOf, assign; simpl. rewrite lookup_alter.
  destruct (decide (c = x)); [|done]. by destruct (heap s !! c).
Qed.

Lemma roomOf_assign c f s x :
  roomOf (assign c f s) x =
  if decide (c = x) then heap s !! c ≫= (λ cl, roomId (f cl)) else roomOf s x.
Proof.
  unfold roomOf, assign; simpl. rewrite lookup_alter.
  destruct (decide (c = x)); [|done]. by destruct (heap s !! c).
Qed.

Lemma availableOf_assign c f s x :
  availableOf (assign c f s) x =
  if decide (c = x) then from_option (λ cl, isAvailable (f cl)) false (heap s !! c)
  else availableOf s x.
Proof.
  unfold availableOf, assign; simpl. rewrite lookup_alter.
  destruct (decide (c = x)); [|done]. by destruct (heap s !! c).
Qed.

Lemma partnerOf_in_heap s c p : partnerOf s c = Some p → in_heap s c.
Proof. unfold partnerOf, in_heap. destruct (heap s !! c); [eauto|done]. Qed.

Lemma availableOf_in_heap s c : availableOf s c = true → in_heap s c.
Proof. unfold availableOf, in_heap. destruct (heap s !! c); [eauto|done]. Qed.

(** *** [createRoom] *)

Lemma createRoom_partnerOf a b s x :
  in_heap s a → in_heap s b → a ≠ b →
  partnerOf (createRoom a b s) x =
  if decide (x = a) then Some b else if decide (x = b) then Some a else partnerOf s x.
Proof.
  intros [ca Ha] [cb Hb] Hab. unfold createRoom; simpl.
  unfold partnerOf, assign; simpl. rewrite !lookup_alter.
  repeat case_decide; subst; try congruence; simpl; rewrite ?Ha, ?Hb; done.
Qed.

Lemma createRoom_availableOf a b s x :
  availableOf (createRoom a b s) x =
  if decide (x = a) then false else if decide (x = b) then false else availableOf s x.
Proof.
  unfold createRoom; simpl.
  unfold availableOf, assign; simpl. rewrite !lookup_alter.
  repeat case_decide; subst; try congruence; simpl; try done;
    by destruct (heap s !! x).
Qed.

Lemma createRoom_roomOf a b s x :
  in_heap s a → in_heap s b →
  roomOf (createRoom a b s) x =
  if decide (x = a ∨ x = b) then Some (uuid s) else roomOf s x.
Proof.
  intros [ca Ha] [cb Hb]. unfold createRoom; simpl.
  unfold roomOf, assign; simpl. rewrite !lookup_alter.
  destruct (decide (x = a ∨ x = b)) as [[->| ->]|Hx].
  - repeat case_decide; subst; try congruence; simpl; by rewrite ?Ha, ?Hb.
  - repeat case_decide; subst; try congruence; simpl; by rewrite ?Ha, ?Hb.
  - rewrite !decide_False by naive_solver. done.
Qed.

Lemma createRoom_in_heap a b s x : in_heap (createRoom a b s) x ↔ in_heap s x.
Proof.
  unfold createRoom; simpl. unfold in_heap; simpl.
  by rewrite !lookup_alter_is_Some.
Qed.

Lemma createRoom_clients a b s : clients (createRoom a b s) = clients s.
Proof. reflexivity. Qed.

Lemma createRoom_sent a b s :
  sent (createRoom a b s) =
  sent s ++ [(a, Matched (uuid s) b); (b, Matched (uuid s) a)].
Proof. unfold createRoom; simpl. by rewrite <- app_assoc. Qed.

Lemma createRoom_uuid a b s : uuid (createRoom a b s) = S (uuid s).
Proof. reflexivity. Qed.

(** [findAvailablePartner] returns a registered, available, unpaired client
    other than the caller, and the first such in the registry's order. *)
Lemma findAvailablePartner_Some c s p :
  findAvailablePartner c s = Some p →
  p ∈ clients s ∧ p ≠ c ∧ availableOf s p = true ∧ partnerOf s p = None.
Proof.
  unfold findAvailablePartner. intros [Hin He]%find_some.
  apply list_elem_of_In in Hin. unfold eligible in He.
  apply andb_prop in He as [He Hp]. apply andb_prop in He as [Hne Ha].
  apply bool_decide_eq_true in Hne. apply negb_true_iff, bool_decide_eq_false in Hp.
  split_and!; try done. destruct (partnerOf s p); [|done]. destruct Hp; eauto.
Qed.

(** *** Frame equations *)

Lemma partnerOf_send c m s x : partnerOf (sendToClient c m s) x = partnerOf s x.
Proof. reflexivity. Qed.
Lemma availableOf_send c m s x : availableOf (sendToClient c m s) x = availableOf s x.
Proof. reflexivity. Qed.
Lemma roomOf_send c m s x : roomOf (sendToClient c m s) x = roomOf s x.
Proof. reflexivity. Qed.
Lemma partnerOf_queue f s x : partnerOf (set_waitingQueue f s) x = partnerOf s x.
Proof. reflexivity. Qed.
Lemma availableOf_queue f s x : availableOf (set_waitingQueue f s) x = availableOf s x.
Proof. reflexivity. Qed.
Lemma roomOf_queue f s x : roomOf (set_waitingQueue f s) x = roomOf s x.
Proof. reflexivity. Qed.
Lemma partnerOf_clients f s x : partnerOf (set_clients f s) x = partnerOf s x.
Proof. reflexivity. Qed.
Lemma availableOf_clients f s x : availableOf (set_clients f s) x = availableOf s x.
Proof. reflexivity. Qed.
Lemma roomOf_clients f s x : roomOf (set_clients f s) x = roomOf s x.
Proof. reflexivity. Qed.

Lemma partnerOf_redis f s x : partnerOf (set_redisList f s) x = partnerOf s x.
Proof. reflexivity. Qed.
Lemma availableOf_redis f s x : availableOf (set_redisList f s) x = availableOf s x.
Proof. reflexivity. Qed.
Lemma roomOf_redis f s x : roomOf (set_redisList f s) x = roomOf s x.
Proof. reflexivity. Qed.
Lemma in_heap_redis f s x : in_heap (set_redisList f s) x = in_heap s x.
Proof. reflexivity. Qed.
Lemma in_heap_queue f s x : in_heap (set_waitingQueue f s) x = in_heap s x.
Proof. reflexivity. Qed.

Create Rewrite HintDb obs.
#[local] Hint Rewrite partnerOf_send availableOf_send roomOf_send
  partnerOf_queue availableOf_queue roomOf_queue
  partnerOf_clients availableOf_clients roomOf_clients
  partnerOf_redis availableOf_redis roomOf_redis in_heap_redis in_heap_queue
  partnerOf_assign availableOf_assign roomOf_assign : obs.

(** *** Teardown without a store *)

Lemma clients_get_Some s p : p ∈ clients s → clients_get s p = Some p.
Proof. intros H. unfold clients_get. by rewrite decide_True. Qed.

Lemma clients_get_None s p : p ∉ clients s → clients_get s p = None.
Proof. intros H. unfold clients_get. by rewrite decide_False. Qed.

Lemma relayToPartner_registered cfg p m s :
  p ∈ clients s → relayToPartner cfg p m s = sendToClient p m s.
Proof. intros H. unfold relayToPartner. by rewrite clients_get_Some. Qed.

Lemma relayToPartner_absent cfg p m s :
  redis cfg = false → p ∉ clients s → relayToPartner cfg p m s = s.
Proof. intros Hc H. unfold relayToPartner. by rewrite clients_get_None, Hc. Qed.

Lemma releasePartner_absent cfg p s :
  redis cfg = false → p ∉ clients s → releasePartner cfg p s = s.
Proof.
  intros Hc H. unfold releasePartner.
  rewrite relayToPartner_absent by done. by rewrite clients_get_None.
Qed.

Lemma releasePartner_registered cfg p s :
  redis cfg = false → p ∈ clients s →
  releasePartner cfg p s =
  let s := sendToClient p PartnerLeft s in
  let s := assign p (with_roomId None) (assign p (with_partnerId None) s) in
  if REQUEUE_ON_PARTNER_LEAVE cfg
  then set_waitingQueue (queuePushUnique p) (assign p (with_isAvailable true) s)
  else s.
Proof.
  intros Hc H. unfold releasePartner.
  rewrite relayToPartner_registered by done.
  rewrite clients_get_Some by done. by rewrite Hc.
Qed.

Lemma releasePartner_clients cfg p s :
  redis cfg = false → clients (releasePartner cfg p s) = clients s.
Proof.
  intros Hc. destruct (decide (p ∈ clients s)).
  - rewrite releasePartner_registered by done. simpl.
    by destruct (REQUEUE_ON_PARTNER_LEAVE cfg).
  - by rewrite releasePartner_absent.
Qed.

Lemma releasePartner_in_heap cfg p s x :
  redis cfg = false → in_heap (releasePartner cfg p s) x ↔ in_heap s x.
Proof.
  intros Hc. destruct (decide (p ∈ clients s)).
  - rewrite releasePartner_registered by done. simpl.
    destruct (REQUEUE_ON_PARTNER_LEAVE cfg); unfold in_heap; simpl;
      by rewrite !lookup_alter_is_Some.
  - by rewrite releasePartner_absent.
Qed.

Lemma releasePartner_uuid cfg p s :
  redis cfg = false → uuid (releasePartner cfg p s) = uuid s.
Proof.
  intros Hc. destruct (decide (p ∈ clients s)).
  - rewrite releasePartner_registered by done. simpl.
    by destruct (REQUEUE_ON_PARTNER_LEAVE cfg).
  - by rewrite releasePartner_absent.
Qed.

Lemma releasePartner_partnerOf cfg p s x :
  redis cfg = false → p ∈ clients s →
  partnerOf (releasePartner cfg p s) x =
  if decide (x = p) then None else partnerOf s x.
Proof.
  intros Hc H. rewrite releasePartner_registered by done. simpl.
  destruct (REQUEUE_ON_PARTNER_LEAVE cfg); autorewrite with obs; simpl;
    unfold assign; simpl; rewrite ?lookup_alter;
    repeat case_decide; subst; try congruence; simpl; try done;
    by destruct (heap s !! x).
Qed.

Lemma releasePartner_availableOf cfg p s x :
  redis cfg = false → p ∈ clients s → in_heap s p →
  availableOf (releasePartner cfg p s) x =
  if decide (x = p)
  then (if REQUEUE_ON_PARTNER_LEAVE cfg then true else availableOf s p)
  else availableOf s x.
Proof.
  intros Hc H [cl Hcl]. rewrite releasePartner_registered by done. simpl.
  destruct (REQUEUE_ON_PARTNER_LEAVE cfg); autorewrite with obs; simpl;
    unfold assign, availableOf; simpl; rewrite ?lookup_alter;
    repeat case_decide; subst; try congruence; simpl; try done;
    by rewrite Hcl.
Qed.

Lemma resetClient_partnerOf c s x :
  partnerOf (resetClient c s) x = if decide (x = c) then None else partnerOf s x.
Proof.
  unfold resetClient. autorewrite with obs; simpl.
  unfold assign; simpl; rewrite ?lookup_alter.
  repeat case_decide; subst; try congruence; simpl; try done.
  by destruct (heap s !! x).
Qed.

Lemma resetClient_availableOf c s x :
  availableOf (resetClient c s) x =
  if decide (x = c) then false else availableOf s x.
Proof.
  unfold resetClient. autorewrite with obs; simpl.
  unfold assign; simpl; rewrite ?lookup_alter.
  repeat case_decide; subst; try congruence; simpl; try done.
  by destruct (heap s !! x).
Qed.

Lemma resetClient_in_heap c s x : in_heap (resetClient c s) x ↔ in_heap s x.
Proof.
  unfold resetClient, in_heap; simpl. by rewrite !lookup_alter_is_Some.
Qed.

(** ** The pairing invariant *)


Lemma Inv_init : Inv initState.
Proof.
  split.
  - intros c H. by apply not_elem_of_nil in H.
  - intros c [cl H]. simpl in H. by rewrite lookup_empty in H.
  - intros c p H. by apply not_elem_of_nil in H.
  - intros c H. by apply not_elem_of_nil in H.
Qed.

(** [Inv] only looks at the registry, the supply and three fields. *)
Lemma Inv_obs s s' :
  clients s' = clients s → uuid s' = uuid s →
  (∀ x, in_heap s' x ↔ in_heap s x) →
  (∀ x, partnerOf s' x = partnerOf s x) →
  (∀ x, availableOf s' x = availableOf s x) →
  Inv s → Inv s'.
Proof.
  intros Hc Hu Hh Hp Ha [I1 I2 I3 I4]. split.
  - intros c H. rewrite Hc in H. by apply Hh, I1.
  - intros c H. rewrite Hu. by apply I2, Hh.
  - intros c p H. rewrite Hc in *. rewrite !Hp. by apply I3.
  - intros c H. rewrite Hc in *. rewrite Hp, Ha. by apply I4.
Qed.

Lemma Inv_send c m s : Inv s → Inv (sendToClient c m s).
Proof. by apply Inv_obs. Qed.

Lemma Inv_assign_neutral c f s :
  (∀ cl, partnerId (f cl) = partnerId cl) →
  (∀ cl, isAvailable (f cl) = isAvailable cl) →
  Inv s → Inv (assign c f s).
Proof.
  intros Hp Ha. apply Inv_obs; try done.
  - intros x. apply in_heap_assign.
  - intros x. rewrite partnerOf_assign. case_decide; [subst|done].
    unfold partnerOf. destruct (heap s !! x); simpl; by rewrite ?Hp.
  - intros x. rewrite availableOf_assign. case_decide; [subst|done].
    unfold availableOf. destruct (heap s !! x); simpl; by rewrite ?Ha.
Qed.

(** Nobody is linked to an unpaired connection. *)
Lemma Inv_unpaired_unreferenced s c x :
  Inv s → c ∈ clients s → partnerOf s c = None → x ∈ clients s →
  partnerOf s x ≠ Some c.
Proof.
  intros [_ _ Hs _] Hc Hp Hx Hxc. destruct (Hs x c Hx Hxc) as [_ H]. congruence.
Qed.

Lemma Inv_createRoom a b s :
  Inv s → a ∈ clients s → b ∈ clients s → a ≠ b →
  partnerOf s a = None → partnerOf s b = None →
  Inv (createRoom a b s).
Proof.
  intros HI Ha Hb Hab Hpa Hpb. pose proof HI as [I1 I2 I3 I4].
  pose proof (I1 a Ha) as Hha. pose proof (I1 b Hb) as Hhb. split.
  - intros c H. apply createRoom_in_heap. by apply I1.
  - intros c H%createRoom_in_heap. rewrite createRoom_uuid. apply I2 in H. lia.
  - intros c p H. rewrite createRoom_clients in *.
    rewrite !createRoom_partnerOf by done. intros Hc.
    repeat case_decide; simplify_eq; try done.
    + destruct (I3 c a H Hc) as [_ ?]. congruence.
    + destruct (I3 c b H Hc) as [_ ?]. congruence.
    + by apply I3.
  - intros c H [Hav Hp]. rewrite createRoom_clients in *.
    rewrite createRoom_availableOf in Hav.
    rewrite createRoom_partnerOf in Hp by done.
    repeat case_decide; simplify_eq. by apply (I4 c H).
Qed.

Section LocalMode.
Variable cfg : Config.
Hypothesis no_store : redis cfg = false.

Lemma Inv_handleAvailable c s :
  Inv s → c ∈ clients s → Inv (handleAvailable cfg c s).
Proof using no_store.
  intros HI Hc. unfold handleAvailable. case_bool_decide as Hp; [by apply Inv_send|].
  assert (partnerOf s c = None) as Hpc.
  { destruct (partnerOf s c); [destruct Hp; eauto|done]. }
  rewrite no_store. clear Hp.
  set (s1 := assign c (with_isAvailable true) s).
  assert (∀ x, partnerOf s1 x = partnerOf s x) as Hp1.
  { intros x. unfold s1. rewrite partnerOf_assign. case_decide; [subst|done].
    unfold partnerOf. by destruct (heap s !! x). }
  assert (∀ x, x ≠ c → availableOf s1 x = availableOf s x) as Ha1.
  { intros x Hx. unfold s1. rewrite availableOf_assign. by rewrite decide_False. }
  pose proof HI as [I1 I2 I3 I4].
  assert (Inv s1) as HI1.
  { split.
    - intros x Hx. apply in_heap_assign. by apply I1.
    - intros x Hx%in_heap_assign. by apply I2.
    - intros x p Hx. rewrite !Hp1. by apply I3.
    - intros x Hx [Hav Hpx]. rewrite Hp1 in Hpx.
      destruct (decide (x = c)) as [->|Hne].
      + rewrite Hpc in Hpx. by destruct Hpx.
      + rewrite Ha1 in Hav by done. by apply (I4 x Hx). }
  unfold matchLocally.
  destruct (findAvailablePartner c s1) as [p|] eqn:Hf.
  - apply findAvailablePartner_Some in Hf as (Hpin & Hne & _ & Hpp).
    apply Inv_createRoom; try done. by rewrite Hp1.
  - by apply (Inv_obs s1).
Qed.

Lemma Inv_releasePartner c p s :
  Inv s → c ∈ clients s → partnerOf s c = Some p →
  let s' := releasePartner cfg p s in
  (∀ x, in_heap s' x ↔ in_heap s x) ∧ clients s' = clients s ∧
  uuid s' = uuid s ∧
  (∀ x, partnerOf s' x = if decide (x = p) then None else partnerOf s x) ∧
  (∀ x, x ≠ p → availableOf s' x = availableOf s x).
Proof using no_store.
  intros [I1 I2 I3 I4] Hc Hp. destruct (I3 c p Hc Hp) as [Hpin Hpc].
  split_and!.
  - intros x. by apply releasePartner_in_heap.
  - by apply releasePartner_clients.
  - by apply releasePartner_uuid.
  - intros x. by apply releasePartner_partnerOf.
  - intros x Hx. rewrite releasePartner_availableOf by auto.
    by rewrite decide_False.
Qed.

(** After the partner is released and the caller reset, or dropped from the
    registry, the remaining links are still symmetric. *)
Lemma Inv_handleNext c s :
  Inv s → c ∈ clients s → Inv (handleNext cfg c s).
Proof using no_store.
  intros HI Hc. unfold handleNext.
  destruct (partnerOf s c) as [p|] eqn:Hp; [|by apply Inv_send].
  destruct (Inv_releasePartner c p s HI Hc Hp) as (Hh & Hcl & Hu & Hpo & Hav).
  pose proof HI as [I1 I2 I3 I4]. destruct (I3 c p Hc Hp) as [Hpin Hpc].
  split.
  - intros x Hx. apply resetClient_in_heap, Hh, I1. simpl in Hx. by rewrite Hcl in Hx.
  - intros x Hx%resetClient_in_heap%Hh. simpl. rewrite Hu. by apply I2.
  - intros x y Hx. simpl in Hx. rewrite Hcl in Hx. simpl. rewrite Hcl.
    rewrite !resetClient_partnerOf, !Hpo.
    repeat case_decide; simplify_eq; try done.
    + intros Hxy. destruct (I3 x c Hx Hxy) as [_ ?]. congruence.
    + intros Hxy. destruct (I3 x p Hx Hxy) as [_ ?]. congruence.
    + intros Hxy. by apply I3.
  - intros x Hx [Ha Hpx]. simpl in Hx. rewrite Hcl in Hx.
    rewrite resetClient_availableOf in Ha. rewrite resetClient_partnerOf, Hpo in Hpx.
    repeat case_decide; simplify_eq; try by destruct Hpx.
    rewrite Hav in Ha by done. by apply (I4 x Hx).
Qed.

Lemma Inv_handleLeave c s :
  Inv s → c ∈ clients s → Inv (handleLeave cfg c s).
Proof using no_store.
  intros HI Hc. unfold handleLeave.
  destruct (partnerOf s c) as [p|] eqn:Hp.
  - pose proof (Inv_handleNext c s HI Hc) as H. unfold handleNext in H.
    by rewrite Hp in H.
  - pose proof HI as [I1 I2 I3 I4]. split.
    + intros x Hx. by apply resetClient_in_heap, I1.
    + intros x Hx%resetClient_in_heap. by apply I2.
    + intros x y Hx. simpl in Hx. simpl. rewrite !resetClient_partnerOf.
      repeat case_decide; simplify_eq; try done.
      * intros Hxy. destruct (I3 x c Hx Hxy) as [_ ?]. congruence.
      * by apply I3.
    + intros x Hx [Ha Hpx]. simpl in Hx.
      rewrite resetClient_availableOf in Ha. rewrite resetClient_partnerOf in Hpx.
      repeat case_decide; simplify_eq; try by destruct Hpx.
      by apply (I4 x Hx).
Qed.

Lemma Inv_handleClientDisconnect c s :
  Inv s → c ∈ clients s → Inv (handleClientDisconnect cfg c s).
Proof using no_store.
  intros HI Hc. unfold handleClientDisconnect.
  pose proof HI as [I1 I2 I3 I4].
  destruct (partnerOf s c) as [p|] eqn:Hp.
  - destruct (Inv_releasePartner c p s HI Hc Hp) as (Hh & Hcl & Hu & Hpo & Hav).
    destruct (I3 c p Hc Hp) as [Hpin Hpc]. split.
    + intros x Hx. simpl in Hx. apply list_elem_of_filter in Hx as [_ Hx].
      rewrite Hcl in Hx. by apply Hh, I1.
    + intros x Hx. simpl in *. apply Hh in Hx. rewrite Hu. by apply I2.
    + intros x y Hx. simpl in Hx. apply list_elem_of_filter in Hx as [Hxc Hx].
      rewrite Hcl in Hx. simpl. rewrite list_elem_of_filter, Hcl.
      autorewrite with obs. rewrite !Hpo.
      repeat case_decide; simplify_eq; try done.
      * intros Hxy. destruct (I3 x p Hx Hxy) as [_ ?]. congruence.
      * intros Hxy. destruct (I3 x y Hx Hxy) as [? ?]. split_and!; try done.
        intros ->. congruence.
    + intros x Hx [Ha Hpx]. simpl in Hx. apply list_elem_of_filter in Hx as [Hxc Hx].
      rewrite Hcl in Hx. autorewrite with obs in Ha, Hpx. rewrite Hpo in Hpx.
      case_decide; simplify_eq; try (by destruct Hpx).
      rewrite Hav in Ha by done. by apply (I4 x Hx).
  - split.
    + intros x Hx. simpl in Hx. apply list_elem_of_filter in Hx as [_ Hx]. by apply I1.
    + intros x Hx. by apply I2.
    + intros x y Hx. simpl in Hx. apply list_elem_of_filter in Hx as [Hxc Hx].
      simpl. rewrite list_elem_of_filter. autorewrite with obs.
      intros Hxy. destruct (I3 x y Hx Hxy) as [? ?]. split_and!; try done.
      intros ->. congruence.
    + intros x Hx. simpl in Hx. apply list_elem_of_filter in Hx as [Hxc Hx].
      autorewrite with obs. by apply I4.
Qed.
End LocalMode.

Lemma Inv_onConnection s : Inv s → Inv (onConnection s).
Proof.
  intros [I1 I2 I3 I4]. unfold onConnection; simpl.
  assert (uuid s ∉ clients s) as Hfresh.
  { intros H. apply I1, I2 in H. lia. }
  assert (∀ x, x ∈ clients s → x ≠ uuid s) as Hreg by (intros x Hx ->; done).
  unfold sendToClient, set_clients, set_heap; simpl.
  rewrite (decide_False (P := uuid s ∈ clients s)) by done.
  split; simpl.
  - intros c [H| ->%list_elem_of_singleton]%elem_of_app; unfold in_heap; simpl.
    + rewrite lookup_insert_ne by (apply not_eq_sym; auto). by apply I1.
    + rewrite lookup_insert_eq. eauto.
  - intros c. unfold in_heap; simpl. destruct (decide (uuid s = c)) as [<-|Hne].
    + lia.
    + rewrite lookup_insert_ne by done. intros H%I2. lia.
  - intros c p. unfold partnerOf; simpl.
    intros [H| ->%list_elem_of_singleton]%elem_of_app.
    + rewrite lookup_insert_ne by (apply not_eq_sym; auto). intros Hp.
      destruct (I3 c p H Hp) as [Hpin Hpc]. split; [apply elem_of_app; by left|].
      by rewrite lookup_insert_ne by (apply not_eq_sym; auto).
    + by rewrite lookup_insert_eq.
  - intros c. unfold partnerOf, availableOf; simpl.
    intros [H| ->%list_elem_of_singleton]%elem_of_app.
    + rewrite lookup_insert_ne by (apply not_eq_sym; auto). by apply I4.
    + rewrite lookup_insert_eq. simpl. by intros [? _].
Qed.

Section LocalRuns.
Variable cfg : Config.
Hypothesis no_store : redis cfg = false.

Lemma Inv_relayToPartner p m s : Inv s → Inv (relayToPartner cfg p m s).
Proof using no_store.
  intros HI. unfold relayToPartner. destruct (clients_get s p); [by apply Inv_send|].
  by rewrite no_store.
Qed.

Lemma Inv_handleMessage c m s :
  Inv s → c ∈ clients s → Inv (handleMessage cfg c m s).
Proof using no_store.
  intros HI Hc. destruct m; simpl.
  - by apply Inv_assign_neutral.
  - by apply Inv_handleAvailable.
  - unfold handleOffer. destruct (partnerOf s c);
      [by apply Inv_relayToPartner | by apply Inv_send].
  - unfold handleAnswer. destruct (partnerOf s c);
      [by apply Inv_relayToPartner | by apply Inv_send].
  - unfold handleIce. destruct (partnerOf s c);
      [by apply Inv_relayToPartner | by apply Inv_send].
  - by apply Inv_handleNext.
  - by apply Inv_handleLeave.
  - by apply Inv_send.
  - by apply Inv_send.
Qed.

Lemma Inv_onMessage now c d s :
  Inv s → c ∈ clients s → Inv (onMessage cfg now c d s).
Proof using no_store.
  intros HI Hc. unfold onMessage, rateLimitOK.
  assert (∀ r, Inv (assign c (with_rate r) s)) as Hr
    by (intros r; by apply Inv_assign_neutral).
  assert (∀ r, Inv (parseAndHandle cfg c d (assign c (with_rate r) s))) as Hh.
  { intros r. destruct d; simpl; [by apply Inv_send|]. by apply Inv_handleMessage. }
  destruct (heap s !! c) as [cl|]; simpl; [|by apply Inv_send].
  destruct (_ >? _); simpl; [done|].
  destruct (_ <=? _); simpl; [done|]. by apply Inv_send.
Qed.

Lemma Inv_step e s : Inv s → registered s e → Inv (step cfg e s).
Proof using no_store.
  intros HI Hr. destruct e; simpl in *.
  - by apply Inv_onConnection.
  - by apply Inv_onMessage.
  - by apply Inv_handleClientDisconnect.
  - by apply Inv_handleClientDisconnect.
  - by apply (Inv_obs s).
Qed.

Lemma Inv_run es s : Inv s → liveRun cfg es s → Inv (run cfg es s).
Proof using no_store.
  revert s. induction es as [|e es IH]; intros s HI Hl; [done|].
  destruct Hl as [Hr Hl]. simpl. apply IH; [by apply Inv_step | done].
Qed.
End LocalRuns.

(** ** [index.js] is the server without store and without limiter *)

Section IndexJsAgrees.
Variable cfg : Config.
Hypothesis no_store : redis cfg = false.
Local Abbreviation requeue := (REQUEUE_ON_PARTNER_LEAVE cfg).

Lemma IndexJs_relayToPartner p m s :
  relayToPartner cfg p m s = IndexJs.sendToPartner p m s.
Proof using no_store.
  unfold relayToPartner, IndexJs.sendToPartner. destruct (clients_get s p); [done|].
  by rewrite no_store.
Qed.

Lemma IndexJs_releasePartner p s :
  releasePartner cfg p s = IndexJs.releasePartner requeue p s.
Proof using no_store.
  unfold releasePartner, IndexJs.releasePartner.
  rewrite IndexJs_relayToPartner. unfold IndexJs.sendToPartner, clients_get.
  destruct (decide (p ∈ clients s)); simpl.
  - rewrite decide_True by done. by rewrite no_store.
  - by rewrite decide_False by done.
Qed.

Lemma IndexJs_handleAvailable c s :
  handleAvailable cfg c s = IndexJs.handleAvailable c s.
Proof using no_store.
  unfold handleAvailable, IndexJs.handleAvailable. by rewrite no_store.
Qed.

Lemma IndexJs_handleMessage c m s :
  handleMessage cfg c m s = IndexJs.handleMessage requeue c m s.
Proof using no_store.
  destruct m; simpl; try done.
  - apply IndexJs_handleAvailable.
  - unfold handleOffer, IndexJs.handleOffer.
    destruct (partnerOf s c); [apply IndexJs_relayToPartner|done].
  - unfold handleAnswer, IndexJs.handleAnswer.
    destruct (partnerOf s c); [apply IndexJs_relayToPartner|done].
  - unfold handleIce, IndexJs.handleIce.
    destruct (partnerOf s c); [apply IndexJs_relayToPartner|done].
  - unfold handleNext, IndexJs.handleNext.
    destruct (partnerOf s c); [by rewrite IndexJs_releasePartner|done].
  - unfold handleLeave, IndexJs.handleLeave.
    destruct (partnerOf s c); [by rewrite IndexJs_releasePartner|done].
Qed.

Lemma IndexJs_onMessage c d s :
  parseAndHandle cfg c d s = IndexJs.onMessage requeue c d s.
Proof using no_store.
  destruct d; simpl; [done|]. apply IndexJs_handleMessage.
Qed.

Lemma IndexJs_handleClientDisconnect c s :
  handleClientDisconnect cfg c s = IndexJs.handleClientDisconnect requeue c s.
Proof using no_store.
  unfold handleClientDisconnect, IndexJs.handleClientDisconnect.
  destruct (partnerOf s c); [by rewrite IndexJs_releasePartner|done].
Qed.

Lemma IndexJs_Inv_step e s :
  Inv s → registered s e → Inv (IndexJs.step requeue e s).
Proof using no_store.
  intros HI Hr.
  destruct e as [|now c d|c|c|l]; simpl in Hr; cbv beta iota delta [IndexJs.step];
    try done.
  - by apply Inv_onConnection.
  - rewrite <- IndexJs_onMessage. destruct d; simpl; [by apply Inv_send|].
    by apply Inv_handleMessage.
  - rewrite <- IndexJs_handleClientDisconnect. by apply Inv_handleClientDisconnect.
  - rewrite <- IndexJs_handleClientDisconnect. by apply Inv_handleClientDisconnect.
Qed.

Lemma IndexJs_step_NoDup e s :
  NoDup (waitingQueue s) → NoDup (waitingQueue (IndexJs.step requeue e s)).
Proof using no_store.
  intros H.
  destruct e as [|now c d|c|c|l]; cbv beta iota delta [IndexJs.step]; try done.
  - rewrite <- IndexJs_onMessage. by apply parseAndHandle_NoDup.
  - rewrite <- IndexJs_handleClientDisconnect. by apply handleClientDisconnect_NoDup.
  - rewrite <- IndexJs_handleClientDisconnect. by apply handleClientDisconnect_NoDup.
Qed.

End IndexJsAgrees.

Lemma IndexJs_run_NoDup requeue es s :
  NoDup (waitingQueue s) → NoDup (waitingQueue (IndexJs.run requeue es s)).
Proof.
  revert s. induction es as [|e es IH]; intros s H; [done|].
  simpl. apply IH. by apply (IndexJs_step_NoDup (mkConfig requeue 40 false)).
Qed.

(** ** Small facts used by the claims *)

Lemma find_pointwise {A} (f g : A → bool) (l : list A) :
  (∀ x, f x = g x) → find f l = find g l.
Proof. intros H. induction l as [|x l IH]; simpl; [done|]. by rewrite H, IH. Qed.

(** Changing the caller's own record does not change whom it finds. *)
Lemma findAvailablePartner_assign_self c f s :
  findAvailablePartner c (assign c f s) = findAvailablePartner c s.
Proof.
  unfold findAvailablePartner. simpl. apply find_pointwise. intros x.
  unfold eligible. destruct (decide (x = c)) as [->|Hne].
  - by rewrite !bool_decide_eq_false_2 by (intros H; by apply H).
  - rewrite availableOf_assign, partnerOf_assign.
    by rewrite !decide_False by congruence.
Qed.

Lemma onlySent_eq c m s : sendToClient c m s = onlySent c m s.
Proof. reflexivity. Qed.

Lemma assign_same c f s :
  (∀ cl, heap s !! c = Some cl → f cl = cl) → assign c f s = s.
Proof.
  intros H. unfold assign, set_heap. destruct s as [h ? ? ? ? ? ? ?]; simpl in *.
  f_equal. apply map_eq. intros x. rewrite lookup_alter.
  destruct (decide (c = x)) as [->|]; [|done].
  destruct (h !! x) as [cl|] eqn:E; [|done]. simpl. by rewrite H.
Qed.

(** ** Handlers as sequences of elementary effects *)

Lemma prims_frame s s1 s2 :
  rtc prim s s1 → heap s2 = heap s1 → (uuid s1 ≤ uuid s2)%nat → rtc prim s s2.
Proof. intros H Hh Hu. eapply rtc_r; [exact H|]. by apply prim_frame. Qed.

Lemma prims_assign s s1 c f :
  (∀ cl, id (f cl) = id cl) →
  (∀ cl, rate (f cl) = rate cl) →
  (∀ cl r, roomId (f cl) = Some r → roomId cl = Some r ∨ (r < uuid s1)%nat) →
  rtc prim s s1 → rtc prim s (assign c f s1).
Proof. intros H1 H2 H3 H. eapply rtc_r; [exact H|]. by apply prim_assign. Qed.

Lemma prims_local s s1 s2 : rtc prim s s1 → local_eq s1 s2 → rtc prim s s2.
Proof.
  intros H (Hh & _ & _ & _ & Hu). apply (prims_frame s s1); [done..|]. by rewrite Hu.
Qed.

Lemma prims_send s s1 c m : rtc prim s s1 → rtc prim s (sendToClient c m s1).
Proof. intros H. by apply (prims_frame s s1). Qed.

Lemma prims_queue s s1 f : rtc prim s s1 → rtc prim s (set_waitingQueue f s1).
Proof. intros H. by apply (prims_frame s s1). Qed.

Lemma prims_clients s s1 f : rtc prim s s1 → rtc prim s (set_clients f s1).
Proof. intros H. by apply (prims_frame s s1). Qed.

Lemma prims_randomUUID s s1 : rtc prim s s1 → rtc prim s (randomUUID s1).2.
Proof. intros H. apply (prims_frame s s1); [done..|]. simpl. lia. Qed.

(** An assignment to a pairing field, the room id being one drawn before. *)
Ltac prims_field :=
  apply prims_assign;
  [done | done
  | (intros ? ? ?; simpl in *; simplify_eq; auto; right; simpl; lia) |].

Lemma prims_createRoom s s1 a b : rtc prim s s1 → rtc prim s (createRoom a b s1).
Proof.
  intros H. unfold createRoom.
  pose proof (prims_randomUUID s s1 H) as H1.
  destruct (randomUUID s1) as [room s2] eqn:E. simpl in H1.
  assert (room < uuid s2)%nat as Hroom.
  { unfold randomUUID in E. simplify_eq. simpl. lia. }
  do 2 apply prims_send. do 2 apply prims_queue.
  do 6 prims_field. done.
Qed.

Lemma prims_matchLocally s s1 c : rtc prim s s1 → rtc prim s (matchLocally c s1).
Proof.
  intros H. unfold matchLocally. destruct (findAvailablePartner c s1).
  - by apply prims_createRoom.
  - by apply prims_queue.
Qed.

Lemma prims_matchGlobally s s1 cfg c :
  rtc prim s s1 → rtc prim s (res_state (matchGlobally cfg c s1)).
Proof.
  intros H. unfold matchGlobally.
  pose proof (tryMatchGlobal_local cfg c s1) as Ht.
  destruct (tryMatchGlobal cfg c s1) as [[p|] s2|s2]; simpl in Ht.
  - pose proof (prims_local _ _ _ H Ht) as H2.
    destruct (clients_get s2 p); simpl; [by apply prims_createRoom|].
    eapply prims_local; [|apply publishSignal_local].
    apply prims_send. do 3 prims_field.
    by apply (prims_randomUUID s s2).
  - eapply prims_local; [|apply lpush_local]. by eapply prims_local.
  - by eapply prims_local.
Qed.

Lemma prims_handleAvailable s s1 cfg c :
  rtc prim s s1 → rtc prim s (handleAvailable cfg c s1).
Proof.
  intros H. unfold handleAvailable. case_bool_decide; [by apply prims_send|].
  assert (rtc prim s (assign c (with_isAvailable true) s1)) as H1
    by (prims_field; done).
  destruct (redis cfg); [|by apply prims_matchLocally].
  pose proof (prims_matchGlobally s _ cfg c H1) as HG.
  destruct (matchGlobally cfg c _) as [[] s2|s2]; simpl in HG; [done|].
  by apply prims_matchLocally.
Qed.

Lemma prims_relayToPartner s s1 cfg p m :
  rtc prim s s1 → rtc prim s (relayToPartner cfg p m s1).
Proof.
  intros H. unfold relayToPartner. destruct (clients_get s1 p); [by apply prims_send|].
  destruct (redis cfg); [|done].
  pose proof (publishSignal_local cfg p m s1) as Hl.
  destruct (publishSignal cfg p m s1); simpl in *; by eapply prims_local.
Qed.

Lemma prims_releasePartner s s1 cfg p :
  rtc prim s s1 → rtc prim s (releasePartner cfg p s1).
Proof.
  intros H. unfold releasePartner.
  pose proof (prims_relayToPartner s s1 cfg p PartnerLeft H) as H1.
  destruct (clients_get _ p) as [q|]; [|done].
  match goal with |- rtc prim s (if _ then ?a else ?b) =>
    assert (rtc prim s b) as H2 end.
  { do 2 prims_field. done. }
  destruct (REQUEUE_ON_PARTNER_LEAVE cfg); [|done].
  match goal with |- rtc prim s (if _ then catch_ignore (lpush ?x ?t) else _) =>
    assert (rtc prim s t) as H3 by (prims_field; done);
    pose proof (lpush_local x t) as Hl end.
  destruct (redis cfg); [|by apply prims_queue].
  destruct (lpush _ _); simpl in *; by eapply prims_local.
Qed.

Lemma prims_resetClient s s1 c : rtc prim s s1 → rtc prim s (resetClient c s1).
Proof.
  intros H. unfold resetClient. apply prims_queue.
  do 3 prims_field. done.
Qed.

Lemma prims_handleMessage cfg c m s : rtc prim s (handleMessage cfg c m s).
Proof.
  assert (rtc prim s s) as H0 by done.
  destruct m; simpl.
  - unfold handleAuth. by prims_field.
  - by apply prims_handleAvailable.
  - unfold handleOffer. destruct (partnerOf s c);
      [by apply prims_relayToPartner | by apply prims_send].
  - unfold handleAnswer. destruct (partnerOf s c);
      [by apply prims_relayToPartner | by apply prims_send].
  - unfold handleIce. destruct (partnerOf s c);
      [by apply prims_relayToPartner | by apply prims_send].
  - unfold handleNext. destruct (partnerOf s c); [|by apply prims_send].
    by apply prims_resetClient, prims_releasePartner.
  - unfold handleLeave. apply prims_resetClient.
    destruct (partnerOf s c); [by apply prims_releasePartner|done].
  - by apply prims_send.
  - by apply prims_send.
Qed.

Lemma prims_parseAndHandle cfg c d s : rtc prim s (parseAndHandle cfg c d s).
Proof.
  destruct d; simpl; [by apply prims_send|]. apply prims_handleMessage.
Qed.

Lemma prims_handleClientDisconnect cfg c s :
  rtc prim s (handleClientDisconnect cfg c s).
Proof.
  unfold handleClientDisconnect. apply prims_clients, prims_queue.
  destruct (partnerOf s c); [by apply prims_releasePartner|done].
Qed.

(** *** What elementary effects preserve *)

Lemma prim_uuid s s' : prim s s' → (uuid s ≤ uuid s')%nat.
Proof. by destruct 1. Qed.

Lemma prims_uuid s s' : rtc prim s s' → (uuid s ≤ uuid s')%nat.
Proof.
  induction 1 as [|s1 s2 s3 H _ IH]; [done|]. apply prim_uuid in H. lia.
Qed.

Lemma prims_rateOf s s' x : rtc prim s s' → rateOf s' x = rateOf s x.
Proof.
  induction 1 as [|s1 s2 s3 H _ IH]; [done|]. rewrite IH. clear IH.
  destruct H as [s1 s2 Hh _|c f s1 _ Hr _]; unfold rateOf.
  - by rewrite Hh.
  - unfold assign; simpl. rewrite lookup_alter. case_decide; [subst|done].
    destruct (heap s1 !! x); simpl; by rewrite ?Hr.
Qed.

Lemma prims_in_heap s s' x : rtc prim s s' → in_heap s' x ↔ in_heap s x.
Proof.
  induction 1 as [|s1 s2 s3 H _ IH]; [done|]. rewrite IH. clear IH.
  destruct H as [s1 s2 Hh _|c f s1 _ _ _]; unfold in_heap.
  - by rewrite Hh.
  - apply in_heap_assign.
Qed.

Lemma prim_roomsBelow s s' : prim s s' → roomsBelow s → roomsBelow s'.
Proof.
  intros H HR. destruct H as [s1 s2 Hh Hu|c f s1 _ _ Hf]; intros x r.
  - unfold roomOf. rewrite Hh. intros H%HR. lia.
  - rewrite roomOf_assign. simpl. case_decide; [subst|apply HR].
    destruct (heap s1 !! x) as [cl|] eqn:E; simpl; [|done].
    intros [H|H]%Hf; [|done]. apply (HR x). unfold roomOf. by rewrite E.
Qed.

Lemma prims_roomsBelow s s' : rtc prim s s' → roomsBelow s → roomsBelow s'.
Proof. induction 1; eauto using prim_roomsBelow. Qed.

Lemma prim_idsAgree s s' : prim s s' → idsAgree s → idsAgree s'.
Proof.
  intros H HI. destruct H as [s1 s2 Hh Hu|c f s1 Hf _ _]; intros x cl.
  - rewrite Hh. apply HI.
  - unfold assign; simpl. rewrite lookup_alter. case_decide; [subst|apply HI].
    destruct (heap s1 !! x) as [cl0|] eqn:E; simpl; [|done].
    intros [= <-]. rewrite Hf. by apply HI.
Qed.

Lemma prims_idsAgree s s' : rtc prim s s' → idsAgree s → idsAgree s'.
Proof. induction 1; eauto using prim_idsAgree. Qed.

(** Room ids are drawn from the supply and objects sit under their own id,
    after any run, in any configuration. *)
Lemma step_roomsBelow_idsAgree cfg e s :
  roomsBelow s ∧ idsAgree s ∧ (∀ x, in_heap s x → (x < uuid s)%nat) →
  let s' := step cfg e s in
  roomsBelow s' ∧ idsAgree s' ∧ (∀ x, in_heap s' x → (x < uuid s')%nat).
Proof.
  intros (HR & HI & HU). cbv zeta.
  assert (∀ s1, rtc prim s s1 →
            roomsBelow s1 ∧ idsAgree s1 ∧ (∀ x, in_heap s1 x → (x < uuid s1)%nat)) as Hp.
  { intros s1 H. split_and!.
    - by apply (prims_roomsBelow s).
    - by apply (prims_idsAgree s).
    - intros x Hx%(prims_in_heap s s1 x H)%HU. apply prims_uuid in H. lia. }
  destruct e as [|now c d|c|c|l]; cbv beta iota delta [step].
  - unfold onConnection, sendToClient, set_clients, set_heap; simpl. split_and!.
    + intros x r. unfold roomOf; simpl. destruct (decide (uuid s = x)) as [<-|Hne].
      * by rewrite lookup_insert_eq.
      * rewrite lookup_insert_ne by done. intros H%HR. lia.
    + intros x cl. simpl. destruct (decide (uuid s = x)) as [<-|Hne].
      * rewrite lookup_insert_eq. by intros [= <-].
      * rewrite lookup_insert_ne by done. apply HI.
    + intros x. unfold in_heap; simpl. destruct (decide (uuid s = x)) as [<-|Hne].
      * lia.
      * rewrite lookup_insert_ne by done. intros H%HU. lia.
  - unfold onMessage, rateLimitOK.
    assert (∀ r, roomsBelow (assign c (with_rate r) s) ∧
                 idsAgree (assign c (with_rate r) s) ∧
                 (∀ x, in_heap (assign c (with_rate r) s) x →
                       (x < uuid (assign c (with_rate r) s))%nat)) as Hr.
    { intros r. split_and!.
      - intros x r'. rewrite roomOf_assign. case_decide; [subst|apply HR].
        intros H. apply (HR x). unfold roomOf. by destruct (heap s !! x).
      - intros x cl. unfold assign; simpl. rewrite lookup_alter.
        case_decide; [subst|apply HI].
        destruct (heap s !! x) as [cl0|] eqn:E; simpl; [|done].
        intros [= <-]. simpl. by apply HI.
      - intros x Hx%in_heap_assign. by apply HU. }
    assert (∀ s0, (roomsBelow s0 ∧ idsAgree s0 ∧ (∀ x, in_heap s0 x → (x < uuid s0)%nat)) →
              ∀ s1, rtc prim s0 s1 →
              roomsBelow s1 ∧ idsAgree s1 ∧ (∀ x, in_heap s1 x → (x < uuid s1)%nat)) as Hp'.
    { intros s0 (HR0 & HI0 & HU0) s1 H. split_and!.
      - by apply (prims_roomsBelow s0).
      - by apply (prims_idsAgree s0).
      - intros x Hx%(prims_in_heap s0 s1 x H)%HU0. apply prims_uuid in H. lia. }
    destruct (heap s !! c) as [cl|]; cbv beta iota zeta delta [negb].
    + destruct (_ >? _); cbv beta iota zeta delta [negb].
      * eapply (Hp' _ (Hr _)), prims_parseAndHandle.
      * destruct (_ <=? _); cbv beta iota zeta delta [negb].
        -- eapply (Hp' _ (Hr _)), prims_parseAndHandle.
        -- eapply (Hp' _ (Hr _)). apply prims_send, rtc_refl.
    + apply Hp. by apply prims_send.
  - apply Hp, prims_handleClientDisconnect.
  - apply Hp, prims_handleClientDisconnect.
  - apply Hp. by apply (prims_frame s s).
Qed.

Lemma run_roomsBelow_idsAgree cfg es :
  roomsBelow (run cfg es initState) ∧ idsAgree (run cfg es initState).
Proof.
  assert (roomsBelow (run cfg es initState) ∧ idsAgree (run cfg es initState) ∧
          (∀ x, in_heap (run cfg es initState) x →
                (x < uuid (run cfg es initState))%nat)) as (? & ? & _); [|done].
  induction es as [|e es IH] using rev_ind.
  - split_and!.
    + intros x r. unfold roomOf; simpl. by rewrite lookup_empty.
    + intros x cl. simpl. by rewrite lookup_empty.
    + intros x [cl H]. simpl in H. by rewrite lookup_empty in H.
  - rewrite run_snoc. by apply step_roomsBelow_idsAgree.
Qed.

(** ** What [handleAvailable] hands out *)

Lemma sentNoError_refl s : sentNoError s s.
Proof. exists []. by rewrite app_nil_r. Qed.

Lemma sentNoError_trans s1 s2 s3 :
  sentNoError s1 s2 → sentNoError s2 s3 → sentNoError s1 s3.
Proof.
  intros (n1 & E1 & F1) (n2 & E2 & F2). exists (n1 ++ n2). split.
  - by rewrite E2, E1, app_assoc.
  - by apply Forall_app.
Qed.

Lemma sentNoError_same s s' : sent s' = sent s → sentNoError s s'.
Proof. intros E. exists []. by rewrite app_nil_r. Qed.

Lemma sentNoError_createRoom a b s : sentNoError s (createRoom a b s).
Proof.
  eexists. split; [apply createRoom_sent|]. by repeat constructor.
Qed.

Lemma sentNoError_matchLocally c s : sentNoError s (matchLocally c s).
Proof.
  unfold matchLocally. destruct (findAvailablePartner c s).
  - apply sentNoError_createRoom.
  - by apply sentNoError_same.
Qed.

Lemma sentNoError_matchGlobally cfg c s :
  sentNoError s (res_state (matchGlobally cfg c s)).
Proof.
  unfold matchGlobally.
  pose proof (tryMatchGlobal_local cfg c s) as (_&_&_&Hs&_).
  destruct (tryMatchGlobal cfg c s) as [[p|] s1|s1]; simpl in Hs.
  - apply (sentNoError_trans _ s1); [by apply sentNoError_same|].
    destruct (clients_get s1 p); simpl; [apply sentNoError_createRoom|].
    match goal with |- context [publishSignal ?c ?p ?m ?s] =>
      pose proof (publishSignal_local c p m s) as (_&_&_&Hs'&_) end.
    eexists. split; [rewrite Hs'; simpl; reflexivity|]. by repeat constructor.
  - pose proof (lpush_local c s1) as (_&_&_&Hs'&_).
    apply sentNoError_same. by rewrite Hs', Hs.
  - by apply sentNoError_same.
Qed.

(** ** Pairing two connections *)

Lemma queueRemove_filter (P : Id → Prop) `{∀ y, Decision (P y)} x q :
  ¬ P x → filter P (queueRemove x q) = filter P q.
Proof.
  intros Hx. induction q as [|y q IH]; [done|].
  rewrite queueRemove_cons. destruct (decide (y = x)) as [->|Hne].
  - rewrite filter_cons. by rewrite decide_False.
  - rewrite !filter_cons. destruct (decide (P y)); by rewrite IH.
Qed.

Lemma tryMatchGlobal_loop_other n c s p s1 :
  tryMatchGlobal_loop n c s = Ok (Some p) s1 → p ≠ c.
Proof.
  revert s. induction n as [|n IH]; intros s; simpl; [done|].
  destruct (rpop s) as [[q|] s2|s2]; try done.
  destruct (decide (q ≠ c)); [by intros [= <- _]|].
  destruct (lpush q s2) as [[] s3|s3]; [apply IH|done].
Qed.

Lemma tryMatchGlobal_other cfg c s p s1 :
  tryMatchGlobal cfg c s = Ok (Some p) s1 → p ≠ c.
Proof.
  unfold tryMatchGlobal. destruct (redis cfg); cbn [negb]; [|done].
  apply tryMatchGlobal_loop_other.
Qed.

(** ** The rate limiter *)

Lemma rateLimitOK_elapsed cfg now c cl s :
  heap s !! c = Some cl → now - ts (rate cl) > 1000 →
  rateLimitOK cfg now c s = (true, assign c (with_rate (mkRate now 1)) s).
Proof.
  intros Hc Ht. unfold rateLimitOK. rewrite Hc.
  by replace (now - ts (rate cl) >? 1000) with true by (symmetry; apply Z.gtb_lt; lia).
Qed.

Lemma rateLimitOK_within cfg now c cl s :
  heap s !! c = Some cl → now - ts (rate cl) ≤ 1000 →
  rateLimitOK cfg now c s =
  (count (rate cl) + 1 <=? MAX_MSG_PER_SECOND cfg,
   assign c (with_rate (mkRate (ts (rate cl)) (count (rate cl) + 1))) s).
Proof.
  intros Hc Ht. unfold rateLimitOK. rewrite Hc.
  replace (now - ts (rate cl) >? 1000) with false; [done|].
  symmetry. rewrite Z.gtb_ltb. apply Z.ltb_ge. lia.
Qed.

Lemma rateOf_assign_rate c r s cl :
  heap s !! c = Some cl → rateOf (assign c (with_rate r) s) c = Some r.
Proof.
  intros Hc. unfold rateOf, assign; simpl. rewrite lookup_alter_eq. by rewrite Hc.
Qed.

(** The handlers never touch the limiter's counters. *)
Lemma onMessage_rateOf cfg now c d s :
  rateOf (onMessage cfg now c d s) c = rateOf (rateLimitOK cfg now c s).2 c.
Proof.
  unfold onMessage. destruct (rateLimitOK cfg now c s) as [ok s1]. simpl.
  destruct ok; simpl; [|done]. apply prims_rateOf, prims_parseAndHandle.
Qed.

Lemma verdicts_within cfg c t0 k ms s :
  rateOf s c = Some (mkRate t0 k) →
  Forall (λ td, td.1 - t0 ≤ 1000) ms →
  verdicts cfg c ms s =
  map (λ i, k + Z.of_nat i + 1 <=? MAX_MSG_PER_SECOND cfg) (seq 0 (length ms)).
Proof.
  revert k s. induction ms as [|[t d] ms IH]; intros k s Hr Hw; [done|].
  apply Forall_cons in Hw as [Ht Hw]. simpl in Ht.
  unfold rateOf in Hr. destruct (heap s !! c) as [cl|] eqn:Hc; [|done].
  simpl in Hr. injection Hr as Hr.
  assert (ts (rate cl) = t0 ∧ count (rate cl) = k) as [Hts Hk]
    by (rewrite Hr; done).
  simpl. rewrite (rateLimitOK_within cfg t c cl s) by (done || lia). simpl.
  rewrite Hk, Z.add_0_r. f_equal.
  rewrite (IH (k + 1)); [| |done].
  - rewrite <- seq_shift, map_map. apply map_ext. intros i.
    f_equal. lia.
  - rewrite onMessage_rateOf. rewrite (rateLimitOK_within cfg t c cl s) by (done || lia).
    simpl. rewrite (rateOf_assign_rate _ _ _ cl) by done. by rewrite Hts, Hk.
Qed.

(** ** Store calls that succeed *)

Lemma rpop_ok s :
  faults s = [] → rpop s = Ok (last (redisList s)) (set_redisList (λ l, removelast l) s).
Proof. intros H. unfold rpop, nextFault. by rewrite H. Qed.

Lemma lpush_ok x s :
  faults s = [] → lpush x s = Ok () (set_redisList (λ l, x :: l) s).
Proof. intros H. unfold lpush, nextFault. by rewrite H. Qed.

Lemma tryMatchGlobal_empty cfg c s :
  redis cfg = true → faults s = [] → redisList s = [] →
  tryMatchGlobal cfg c s = Ok None (set_redisList (λ l, removelast l) s).
Proof.
  intros Hc Hf Hl. unfold tryMatchGlobal. rewrite Hc. cbn [negb tryMatchGlobal_loop].
  rewrite rpop_ok by done. by rewrite Hl.
Qed.

(** ** Every object and its mailbox, in every run *)

Lemma msgsTo_send y m s x :
  msgsTo (sendToClient y m s) x
  = if decide (y = x) then msgsTo s x ++ [m] else msgsTo s x.
Proof.
  unfold msgsTo; simpl. rewrite filter_app, fmap_app, filter_cons, filter_nil; simpl.
  destruct (decide (y = x)); [done|]. by rewrite app_nil_r.
Qed.

Lemma snap_send y m s x :
  snap (sendToClient y m s) x
  = if decide (y = x) then (heap s !! x, msgsTo s x ++ [m]) else snap s x.
Proof. unfold snap. rewrite msgsTo_send. by destruct (decide (y = x)). Qed.

Lemma snap_assign y f s x :
  snap (assign y f s) x
  = if decide (y = x) then (f <$> heap s !! x, msgsTo s x) else snap s x.
Proof.
  unfold snap, assign; simpl. rewrite lookup_alter.
  destruct (decide (y = x)); by subst.
Qed.

Lemma snap_frame s s' x : heap s' = heap s → sent s' = sent s → snap s' x = snap s x.
Proof. unfold snap, msgsTo. by intros -> ->. Qed.

Ltac snap_eq :=
  unfold snap, msgsTo; simpl;
  rewrite ?lookup_alter, ?filter_app, ?filter_cons, ?filter_nil; simpl;
  repeat first [rewrite decide_True by congruence
               |rewrite decide_False by congruence];
  rewrite ?fmap_app, ?app_nil_r, <- ?app_assoc; simpl;
  try done;
  try (f_equal;
       by match goal with |- context [heap ?s !! ?k] => destruct (heap s !! k) end).

Section ObjectSteps.
Variable x : Id.
Variable a : option Client * list ServerMsg.

Lemma ost_then s1 t v :
  rtc (otrans x) a (snap s1 x) → otrans x (snap s1 x) v → v = snap t x →
  rtc (otrans x) a (snap t x).
Proof. intros H Hv <-. by eapply rtc_r. Qed.

Lemma ost_same s1 t :
  rtc (otrans x) a (snap s1 x) → snap s1 x = snap t x → rtc (otrans x) a (snap t x).
Proof. by intros H <-. Qed.

Lemma ost_frame s1 s2 :
  rtc (otrans x) a (snap s1 x) → heap s2 = heap s1 → sent s2 = sent s1 →
  rtc (otrans x) a (snap s2 x).
Proof. intros H Hh Hs. by rewrite (snap_frame s1 s2). Qed.

Lemma ost_local s1 s2 :
  rtc (otrans x) a (snap s1 x) → local_eq s1 s2 → rtc (otrans x) a (snap s2 x).
Proof. intros H (Hh & _ & _ & Hs & _). by apply (ost_frame s1). Qed.

Lemma ost_send s1 y m :
  neutralMsg m → rtc (otrans x) a (snap s1 x) →
  rtc (otrans x) a (snap (sendToClient y m s1) x).
Proof.
  intros Hm H. rewrite snap_send. destruct (decide (y = x)); [|done].
  eapply rtc_r; [exact H|]. by apply ot_msg.
Qed.

Lemma ost_assign s1 y f :
  (∀ cl, partnerId (f cl) = partnerId cl) →
  (∀ cl, roomId (f cl) = roomId cl) →
  (∀ cl, isAvailable (f cl) = isAvailable cl) ∨ partnerOf s1 y = None →
  rtc (otrans x) a (snap s1 x) → rtc (otrans x) a (snap (assign y f s1) x).
Proof.
  intros Hp Hr Ha H. rewrite snap_assign. destruct (decide (y = x)) as [->|]; [|done].
  eapply rtc_r; [exact H|]. apply ot_field; [done|done|].
  intros cl Hcl [q Hq]. destruct Ha as [Ha|Ha]; [done|].
  unfold partnerOf in Ha. rewrite Hcl in Ha. simpl in Ha. congruence.
Qed.

Lemma ost_createRoom s1 c p :
  p ≠ c → rtc (otrans x) a (snap s1 x) →
  rtc (otrans x) a (snap (createRoom c p s1) x).
Proof.
  intros Hne H. unfold createRoom; simpl.
  set (f q := λ cl, with_isAvailable false
                      (with_roomId (Some (uuid s1)) (with_partnerId (Some q) cl))).
  destruct (decide (c = x)) as [->|Hxc]; [|destruct (decide (p = x)) as [->|Hxp]].
  - eapply (ost_then _ _ (f p <$> heap s1 !! x,
                          msgsTo s1 x ++ [Matched (uuid s1) p]) H).
    { by apply ot_match. }
    snap_eq.
  - eapply (ost_then _ _ (f c <$> heap s1 !! x,
                          msgsTo s1 x ++ [Matched (uuid s1) c]) H).
    { apply ot_match; [congruence|done..]. }
    snap_eq.
  - eapply (ost_same s1); [done|]. snap_eq.
Qed.

Lemma ost_matchLocally s1 c :
  rtc (otrans x) a (snap s1 x) → rtc (otrans x) a (snap (matchLocally c s1) x).
Proof.
  intros H. unfold matchLocally.
  destruct (findAvailablePartner c s1) as [p|] eqn:E.
  - apply findAvailablePartner_Some in E as (_ & Hne & _). by apply ost_createRoom.
  - by apply (ost_frame s1).
Qed.

Lemma ost_matchGlobally s1 cfg c :
  rtc (otrans x) a (snap s1 x) →
  rtc (otrans x) a (snap (res_state (matchGlobally cfg c s1)) x).
Proof.
  intros H. unfold matchGlobally.
  pose proof (tryMatchGlobal_local cfg c s1) as Ht.
  destruct (tryMatchGlobal cfg c s1) as [[p|] s2|s2] eqn:E; simpl in Ht.
  - apply tryMatchGlobal_other in E.
    pose proof (ost_local _ _ H Ht) as H2.
    unfold clients_get. case_decide; simpl; [by apply ost_createRoom|].
    eapply ost_local; [|apply publishSignal_local].
    set (f := λ cl, with_isAvailable false
                      (with_roomId (Some (uuid s2)) (with_partnerId (Some p) cl))).
    destruct (decide (c = x)) as [->|Hxc].
    + eapply (ost_then _ _ (f <$> heap s2 !! x,
                            msgsTo s2 x ++ [Matched (uuid s2) p]) H2).
      { by apply ot_match. }
      snap_eq.
    + eapply (ost_same s2); [done|]. snap_eq.
  - eapply ost_local; [|apply lpush_local]. by eapply ost_local.
  - by eapply ost_local.
Qed.

Lemma ost_handleAvailable s1 cfg c :
  rtc (otrans x) a (snap s1 x) →
  rtc (otrans x) a (snap (handleAvailable cfg c s1) x).
Proof.
  intros H. unfold handleAvailable. case_bool_decide as Hp; [by apply ost_send|].
  assert (rtc (otrans x) a (snap (assign c (with_isAvailable true) s1) x)) as H1.
  { apply ost_assign; [done|done| |done]. right.
    by destruct (partnerOf s1 c); [destruct Hp|]. }
  destruct (redis cfg); [|by apply ost_matchLocally].
  pose proof (ost_matchGlobally _ cfg c H1) as HG.
  destruct (matchGlobally cfg c _) as [[] s2|s2]; simpl in HG; [done|].
  by apply ost_matchLocally.
Qed.

Lemma ost_begin s1 cfg c :
  rtc (otrans x) a (snap s1 x) →
  rtc (otrans x) a (snap (handleAvailable_begin cfg c s1).1 x).
Proof.
  intros H. unfold handleAvailable_begin.
  case_bool_decide as Hp; cbn [fst]; [by apply ost_send|].
  assert (rtc (otrans x) a (snap (assign c (with_isAvailable true) s1) x)) as H1.
  { apply ost_assign; [done|done| |done]. right.
    by destruct (partnerOf s1 c); [destruct Hp|]. }
  destruct (redis cfg); cbn [fst]; [done|by apply ost_matchLocally].
Qed.

Lemma ost_resume s1 cfg w :
  rtc (otrans x) a (snap s1 x) →
  rtc (otrans x) a (snap (handleAvailable_resume cfg w s1).1 x).
Proof.
  intros H. destruct w as [c i|c i|c|c p room]; cbn [handleAvailable_resume].
  - pose proof (rpop_local s1) as Hl.
    destruct (rpop s1) as [[p|] s2|s2]; simpl in Hl; cbn [fst];
      pose proof (ost_local _ _ H Hl) as H2; [|done|by apply ost_matchLocally].
    destruct (decide (p ≠ c)) as [Hne|]; cbn [fst]; [|done].
    unfold clients_get. case_decide; cbn [fst]; [by apply ost_createRoom|].
    unfold randomUUID; cbn [fst].
    set (f := λ cl, with_isAvailable false
                      (with_roomId (Some (uuid s2)) (with_partnerId (Some p) cl))).
    destruct (decide (c = x)) as [->|Hxc].
    + eapply (ost_then _ _ (f <$> heap s2 !! x,
                            msgsTo s2 x ++ [Matched (uuid s2) p]) H2).
      { by apply ot_match. }
      snap_eq.
    + eapply (ost_same s2); [done|]. snap_eq.
  - pose proof (lpush_local c s1) as Hl.
    destruct (lpush c s1) as [[] s2|s2]; simpl in Hl; cbn [fst];
      pose proof (ost_local _ _ H Hl) as H2; [|by apply ost_matchLocally].
    by destruct (decide (S i < 5)%nat).
  - pose proof (lpush_local c s1) as Hl.
    destruct (lpush c s1) as [[] s2|s2]; simpl in Hl; cbn [fst];
      pose proof (ost_local _ _ H Hl) as H2; [done|by apply ost_matchLocally].
  - pose proof (publishSignal_local cfg p (Matched room c) s1) as Hl.
    destruct (publishSignal cfg p (Matched room c) s1) as [[] s2|s2];
      simpl in Hl; cbn [fst];
      pose proof (ost_local _ _ H Hl) as H2; [done|by apply ost_matchLocally].
Qed.

Lemma ost_relay s1 cfg p m :
  neutralMsg m → rtc (otrans x) a (snap s1 x) →
  rtc (otrans x) a (snap (relayToPartner cfg p m s1) x).
Proof.
  intros Hm H. unfold relayToPartner.
  destruct (clients_get s1 p); [by apply ost_send|].
  destruct (redis cfg); [|done].
  pose proof (publishSignal_local cfg p m s1) as Hl.
  destruct (publishSignal cfg p m s1); simpl in *; by eapply ost_local.
Qed.

Lemma ost_releasePartner s1 cfg p :
  rtc (otrans x) a (snap s1 x) →
  rtc (otrans x) a (snap (releasePartner cfg p s1) x).
Proof.
  intros H. unfold releasePartner, relayToPartner, clients_get.
  destruct (decide (p ∈ clients s1)) as [Hreg|Hreg]; simpl.
  - rewrite decide_True by done.
    assert (∀ f t, (∀ cl, partnerId (f cl) = None) → (∀ cl, roomId (f cl) = None) →
              heap t = alter f p (heap s1) → sent t = sent s1 ++ [(p, PartnerLeft)] →
              rtc (otrans x) a (snap t x)) as Hgen.
    { intros f t Hf1 Hf2 Hh Hs. destruct (decide (p = x)) as [Hxp|Hxp].
      - eapply (ost_then _ _ (f <$> heap s1 !! x,
                       msgsTo s1 x ++ (if true then [PartnerLeft] else [])) H).
        { by apply (ot_unlink x _ _ f true). }
        unfold snap. rewrite Hh. unfold msgsTo. rewrite Hs, Hxp. snap_eq.
      - eapply (ost_same s1); [done|].
        unfold snap. rewrite Hh. unfold msgsTo. rewrite Hs. snap_eq. }
    destruct (REQUEUE_ON_PARTNER_LEAVE cfg).
    + destruct (redis cfg).
      * match goal with |- context [lpush ?y ?t] =>
          pose proof (lpush_local y t) as Hl; destruct (lpush y t) as [[] t'|t'] end;
          simpl in *; destruct Hl as (Hh & _ & _ & Hs & _);
          apply (Hgen (λ cl, with_isAvailable true
                               (with_roomId None (with_partnerId None cl))));
          try done; rewrite ?Hh, ?Hs; simpl; try done;
          apply map_eq; intros k; rewrite !lookup_alter; repeat case_decide; try done;
          by match goal with |- context [heap ?s !! ?k] => destruct (heap s !! k) end.
      * apply (Hgen (λ cl, with_isAvailable true
                             (with_roomId None (with_partnerId None cl))));
          try done; simpl.
        apply map_eq; intros k; rewrite !lookup_alter; repeat case_decide; try done;
          by match goal with |- context [heap ?s !! ?k] => destruct (heap s !! k) end.
    + apply (Hgen (λ cl, with_roomId None (with_partnerId None cl)));
        try done; simpl.
      apply map_eq; intros k; rewrite !lookup_alter; repeat case_decide; try done;
          by match goal with |- context [heap ?s !! ?k] => destruct (heap s !! k) end.
  - destruct (redis cfg) eqn:Hc.
    + pose proof (publishSignal_local cfg p PartnerLeft s1) as Hl.
      destruct (publishSignal cfg p PartnerLeft s1) as [[] t|t]; simpl in *;
        destruct Hl as (Hh & Hcl & _ & Hs & _); rewrite Hcl, decide_False by done;
        by apply (ost_frame s1).
    + by rewrite decide_False by done.
Qed.

Lemma ost_resetClient s1 c :
  rtc (otrans x) a (snap s1 x) → rtc (otrans x) a (snap (resetClient c s1) x).
Proof.
  intros H. unfold resetClient.
  set (f := λ cl, with_isAvailable false (with_roomId None (with_partnerId None cl))).
  destruct (decide (c = x)) as [->|Hxc].
  - eapply (ost_then _ _ (f <$> heap s1 !! x,
                   msgsTo s1 x ++ (if false then [PartnerLeft] else [])) H).
    { by apply (ot_unlink x _ _ f false). }
    snap_eq.
  - eapply (ost_same s1); [done|]. snap_eq.
Qed.

Lemma ost_parseAndHandle s1 cfg c d :
  rtc (otrans x) a (snap s1 x) →
  rtc (otrans x) a (snap (parseAndHandle cfg c d s1) x).
Proof.
  intros H. destruct d as [|m]; simpl; [by apply ost_send|].
  destruct m; simpl.
  - apply ost_assign; auto.
  - by apply ost_handleAvailable.
  - unfold handleOffer. destruct (partnerOf s1 c);
      [by apply ost_relay | by apply ost_send].
  - unfold handleAnswer. destruct (partnerOf s1 c);
      [by apply ost_relay | by apply ost_send].
  - unfold handleIce. destruct (partnerOf s1 c);
      [by apply ost_relay | by apply ost_send].
  - unfold handleNext. destruct (partnerOf s1 c); [|by apply ost_send].
    by apply ost_resetClient, ost_releasePartner.
  - unfold handleLeave. apply ost_resetClient.
    destruct (partnerOf s1 c); [by apply ost_releasePartner|done].
  - by apply ost_send.
  - by apply ost_send.
Qed.

Lemma ost_step s1 cfg e :
  rtc (otrans x) a (snap s1 x) → rtc (otrans x) a (snap (step cfg e s1) x).
Proof.
  intros H. destruct e as [|now c d|c|c|l]; cbv beta iota delta [step].
  - unfold onConnection, sendToClient, set_clients, set_heap; simpl.
    destruct (decide (uuid s1 = x)) as [Hx|Hne].
    + eapply (ost_then _ _ (Some (mkClient x None None None false (mkRate 0 0)),
                            msgsTo s1 x ++ [Ready x]) H).
      { by apply ot_new. }
      unfold snap, msgsTo; simpl. rewrite Hx, lookup_insert_eq. snap_eq.
    + eapply (ost_same s1); [done|].
      unfold snap, msgsTo; simpl. rewrite lookup_insert_ne by done. snap_eq.
  - unfold onMessage, rateLimitOK.
    destruct (heap s1 !! c) as [cl|]; cbv beta iota zeta delta [negb];
      [|by apply ost_send].
    destruct (_ >? _); cbv beta iota zeta delta [negb].
    + apply ost_parseAndHandle, ost_assign; auto.
    + destruct (_ <=? _); cbv beta iota zeta delta [negb].
      * apply ost_parseAndHandle, ost_assign; auto.
      * apply ost_send; [done|]. apply ost_assign; auto.
  - unfold handleClientDisconnect.
    eapply ost_frame; [|reflexivity|reflexivity].
    destruct (partnerOf s1 c); [by apply ost_releasePartner|done].
  - unfold handleClientDisconnect.
    eapply ost_frame; [|reflexivity|reflexivity].
    destruct (partnerOf s1 c); [by apply ost_releasePartner|done].
  - by apply (ost_frame s1).
Qed.

End ObjectSteps.

Lemma otrans_snapOk x a b : otrans x a b → snapOk x a → snapOk x b.
Proof.
  intros Ht Ha.
  destruct Ht as [o ms f Hp Hr Hv|o ms m Hm|o ms f p r Hne Hp Hr Hv|o ms f told Hp Hr
                 |o ms cl' Hp Hr]; intros cl Hcl; simpl in *.
  - destruct o as [cl0|]; [|done]. injection Hcl as <-.
    rewrite Hp, Hr. destruct (Ha cl0 eq_refl) as (? & ? & Hi & ? & ?).
    split_and!; try done. intros Hs. rewrite Hv by done. by apply Hi.
  - rewrite foldl_app; simpl. destruct (Ha cl Hcl) as (? & ? & ? & ? & ?).
    by destruct m.
  - destruct o as [cl0|]; [|done]. injection Hcl as <-.
    rewrite foldl_app; simpl. rewrite Hp, Hr.
    destruct (Ha cl0 eq_refl) as (_ & _ & _ & ? & _).
    split_and!; [congruence|split; eauto|done|done|done].
  - destruct o as [cl0|]; [|done]. injection Hcl as <-.
    rewrite foldl_app, Hp, Hr. destruct (Ha cl0 eq_refl) as (_ & _ & _ & ? & _).
    split_and!; [done|split; by intros [? ?]|by intros [? ?]| |by intros [? ?]].
    by destruct told.
  - injection Hcl as <-. rewrite foldl_app, Hp, Hr; simpl.
    split_and!; [done|split; by intros [? ?]|by intros [? ?]|done|by intros [? ?]].
Qed.

Lemma rtc_snapOk x a b : rtc (otrans x) a b → snapOk x a → snapOk x b.
Proof. induction 1; eauto using otrans_snapOk. Qed.

Lemma run_snapOk cfg es x : snapOk x (snap (run cfg es initState) x).
Proof.
  apply (rtc_snapOk x (snap initState x)).
  - induction es as [|e es IH] using rev_ind; [done|].
    rewrite run_snoc. by apply ost_step.
  - intros cl Hcl. unfold snap in Hcl; simpl in Hcl. by rewrite lookup_empty in Hcl.
Qed.

(** ** [handleAvailable] and its awaits *)

Lemma matchGlobally_afterScan cfg c s :
  matchGlobally cfg c s = afterScan cfg c (tryMatchGlobal cfg c s).
Proof. reflexivity. Qed.

Lemma ticks_cons cfg t ts st : ticks cfg (t :: ts) st = ticks cfg ts (tick cfg t st).
Proof. reflexivity. Qed.

Lemma ticks_idle cfg k s : ticks cfg (replicate k Settle) (s, []) = (s, []).
Proof. induction k as [|k IH]; [done|]. simpl replicate. rewrite ticks_cons. exact IH. Qed.

Lemma tick_settle cfg w ws s :
  tick cfg Settle (s, w :: ws)
  = ((handleAvailable_resume cfg w s).1,
     ws ++ option_list (handleAvailable_resume cfg w s).2).
Proof. unfold tick; simpl. by destruct (handleAvailable_resume cfg w s). Qed.

(** The handler that waits for a pop, left alone with the store: what
    [tryMatchGlobal] and the rest of the [try] block compute in one go. *)
Lemma ticks_alone_pop cfg c n :
  ∀ i s k, (i + n = 5)%nat → (1 ≤ n)%nat → (2 * n + 1 ≤ k)%nat →
  ticks cfg (replicate k Settle) (s, [AwaitPop c i])
  = (match afterScan cfg c (tryMatchGlobal_loop n c s) with
     | Ok _ s' => s'
     | Throw s' => matchLocally c s'
     end, []).
Proof.
  induction n as [|n IH]; intros i s k Hi Hn Hk; [lia|].
  destruct k as [|k]; [lia|]. simpl replicate. rewrite ticks_cons, tick_settle.
  cbn [handleAvailable_resume tryMatchGlobal_loop].
  destruct (rpop s) as [[p|] s1|s1]; cbn [fst snd option_list option_rect app afterScan].
  - destruct (decide (p ≠ c)) as [Hne|Heq]; cbn [fst snd option_list option_rect app afterScan].
    + destruct (clients_get s1 p) as [pl|]; cbn [fst snd option_list option_rect app].
      * by rewrite ticks_idle.
      * unfold randomUUID. cbn [fst snd option_list option_rect app].
        destruct k as [|k]; [lia|]. simpl replicate.
        rewrite ticks_cons, tick_settle. cbn [handleAvailable_resume fst snd].
        match goal with |- context [publishSignal ?a ?b ?m ?t] =>
          destruct (publishSignal a b m t) as [[] s2|s2] end;
          cbn [fst snd option_list option_rect app]; by rewrite ticks_idle.
    + assert (p = c) as -> by (by destruct (decide (p = c)); [|destruct Heq]).
      destruct k as [|k]; [lia|]. simpl replicate.
      rewrite ticks_cons, tick_settle. cbn [handleAvailable_resume].
      destruct (lpush c s1) as [[] s2|s2]; cbn [fst snd option_list option_rect app afterScan];
        [|by rewrite ticks_idle].
      destruct (decide (S i < 5)%nat) as [Hlt|Hge]; cbn [fst snd option_list option_rect app].
      * apply IH; lia.
      * assert (n = 0%nat) as -> by lia. cbn [tryMatchGlobal_loop afterScan].
        destruct k as [|k]; [lia|]. simpl replicate.
        rewrite ticks_cons, tick_settle. cbn [handleAvailable_resume].
        destruct (lpush c s2) as [[] s3|s3]; cbn [fst snd option_list option_rect app];
          by rewrite ticks_idle.
  - destruct k as [|k]; [lia|]. simpl replicate.
    rewrite ticks_cons, tick_settle. cbn [handleAvailable_resume].
    destruct (lpush c s1) as [[] s2|s2]; cbn [fst snd option_list option_rect app];
      by rewrite ticks_idle.
  - by rewrite ticks_idle.
Qed.

(** *** What a declaration leaves behind *)

Lemma sentNoError_local s s' : local_eq s s' → sentNoError s s'.
Proof. intros (_ & _ & _ & Hs & _). by apply sentNoError_same. Qed.

Lemma sentNoError_resume cfg w t : sentNoError t (handleAvailable_resume cfg w t).1.
Proof.
  destruct w as [c i|c i|c|c p room]; cbn [handleAvailable_resume].
  - pose proof (rpop_local t) as Hl.
    destruct (rpop t) as [[p|] t1|t1]; simpl in Hl; cbn [fst].
    + destruct (decide (p ≠ c)); cbn [fst]; [|by apply sentNoError_local].
      destruct (clients_get t1 p); cbn [fst].
      * eapply sentNoError_trans; [by apply sentNoError_local|].
        apply sentNoError_createRoom.
      * unfold randomUUID; cbn [fst]. destruct Hl as (_ & _ & _ & Hs & _).
        exists [(c, Matched (uuid t1) p)]. simpl. rewrite Hs. by repeat constructor.
    + by apply sentNoError_local.
    + eapply sentNoError_trans; [by apply sentNoError_local|].
      apply sentNoError_matchLocally.
  - pose proof (lpush_local c t) as Hl.
    destruct (lpush c t) as [[] t1|t1]; simpl in Hl; cbn [fst].
    + destruct (decide (S i < 5)%nat); by apply sentNoError_local.
    + eapply sentNoError_trans; [by apply sentNoError_local|].
      apply sentNoError_matchLocally.
  - pose proof (lpush_local c t) as Hl.
    destruct (lpush c t) as [[] t1|t1]; simpl in Hl; cbn [fst].
    + by apply sentNoError_local.
    + eapply sentNoError_trans; [by apply sentNoError_local|].
      apply sentNoError_matchLocally.
  - pose proof (publishSignal_local cfg p (Matched room c) t) as Hl.
    destruct (publishSignal cfg p (Matched room c) t) as [[] t1|t1];
      simpl in Hl; cbn [fst].
    + by apply sentNoError_local.
    + eapply sentNoError_trans; [by apply sentNoError_local|].
      apply sentNoError_matchLocally.
Qed.

Lemma createRoom_partnerOf_caller c p t :
  in_heap t c → p ≠ c → partnerOf (createRoom c p t) c = Some p.
Proof.
  intros [cl Hcl] Hne. unfold createRoom, partnerOf; simpl.
  rewrite !lookup_alter. rewrite !decide_False, !decide_True by done.
  by rewrite Hcl.
Qed.

Lemma matchLocally_engaged c t :
  in_heap t c →
  is_Some (partnerOf t c) ∨ availableOf t c = true →
  is_Some (partnerOf (matchLocally c t) c) ∨ availableOf (matchLocally c t) c = true.
Proof.
  intros Hc H. unfold matchLocally.
  destruct (findAvailablePartner c t) as [p|] eqn:E; [|done].
  apply findAvailablePartner_Some in E as (_ & Hne & _).
  left. rewrite createRoom_partnerOf_caller by done. eauto.
Qed.

Lemma local_eq_engaged s s' c :
  local_eq s s' →
  (in_heap s' c ↔ in_heap s c) ∧ partnerOf s' c = partnerOf s c ∧
  availableOf s' c = availableOf s c.
Proof.
  intros (Hh & _). unfold in_heap, partnerOf, availableOf. by rewrite Hh.
Qed.

Lemma handleAvailable_engaged cfg c s :
  partnerOf s c = None → in_heap s c →
  is_Some (partnerOf (handleAvailable cfg c s) c)
  ∨ availableOf (handleAvailable cfg c s) c = true.
Proof.
  intros Hp [cl Hcl]. unfold handleAvailable.
  rewrite Hp, bool_decide_eq_false_2 by (by intros [? ?]).
  set (s1 := assign c (with_isAvailable true) s).
  assert (in_heap s1 c) as Hin by (apply in_heap_assign; by exists cl).
  assert (availableOf s1 c = true) as Ha.
  { unfold s1. rewrite availableOf_assign, decide_True by done. by rewrite Hcl. }
  destruct (redis cfg); [|apply matchLocally_engaged; auto].
  rewrite matchGlobally_afterScan.
  pose proof (tryMatchGlobal_local cfg c s1) as Hl.
  destruct (tryMatchGlobal cfg c s1) as [[p|] s2|s2] eqn:E; simpl in Hl;
    destruct (local_eq_engaged s1 s2 c Hl) as (Hi2 & Hp2 & Ha2);
    cbn [afterScan].
  - apply tryMatchGlobal_other in E. unfold clients_get.
    destruct (decide (p ∈ clients s2)).
    + left. rewrite createRoom_partnerOf_caller by (done || by apply Hi2). eauto.
    + unfold randomUUID. cbn [fst snd].
      match goal with |- context [publishSignal cfg p ?m ?t] =>
        pose proof (publishSignal_local cfg p m t) as Hl3;
        assert (in_heap t c ∧ partnerOf t c = Some p) as [Hi Hpt];
        [|destruct (publishSignal cfg p m t) as [[] s3|s3]; simpl in Hl3;
          destruct (local_eq_engaged t s3 c Hl3) as (Hi3 & Hp3 & Ha3)]
      end.
      * apply Hi2 in Hin as [cl2 Hcl2]. split.
        -- unfold in_heap; simpl. by rewrite !lookup_alter_is_Some, Hcl2.
        -- unfold partnerOf; simpl. by rewrite !lookup_alter_eq, Hcl2.
      * left. rewrite Hp3, Hpt. eauto.
      * apply matchLocally_engaged; [by apply Hi3|]. left. rewrite Hp3, Hpt. eauto.
  - pose proof (lpush_local c s2) as Hl3.
    destruct (lpush c s2) as [[] s3|s3]; simpl in Hl3;
      destruct (local_eq_engaged s2 s3 c Hl3) as (Hi3 & Hp3 & Ha3).
    + right. by rewrite Ha3, Ha2.
    + apply matchLocally_engaged; [by apply Hi3, Hi2|]. right. by rewrite Ha3, Ha2.
  - apply matchLocally_engaged; [by apply Hi2|]. right. by rewrite Ha2.
Qed.

(** While the caller's own id is all the store's list holds, the scan pops it
    and pushes it back five times and finds nobody. *)
Lemma set_redisList_same f s : f (redisList s) = redisList s → set_redisList f s = s.
Proof. destruct s; unfold set_redisList; simpl. by intros ->. Qed.

Lemma tryMatchGlobal_loop_self_only k c n s :
  faults s = [] → redisList s = replicate n c →
  tryMatchGlobal_loop k c s = Ok None s.
Proof.
  intros Hf Hl. induction k as [|k IH]; [done|]. cbn [tryMatchGlobal_loop].
  rewrite rpop_ok by done. rewrite Hl.
  destruct n as [|n].
  - simpl. f_equal. apply set_redisList_same. by rewrite Hl.
  - assert (replicate (S n) c = replicate n c ++ [c]) as Hsn
      by (by rewrite <- replicate_cons_app).
    rewrite Hsn, last_snoc. rewrite decide_False by (by intros H; apply H).
    rewrite lpush_ok by done.
    replace (set_redisList (λ l, c :: l) (set_redisList (λ l, removelast l) s)) with s;
      [exact IH|].
    symmetry. etrans; [|apply (set_redisList_same (λ l, c :: removelast l))].
    + by destruct s.
    + by rewrite Hl, Hsn, removelast_last, <- replicate_cons_app.
Qed.

(** ** The teardown run a second time *)

Lemma filter_unchanged {A} (P : A → Prop) `{∀ x, Decision (P x)} (l : list A) :
  (∀ x, x ∈ l → P x) → filter P l = l.
Proof.
  induction l as [|x l IH]; intros HP; [done|].
  rewrite filter_cons_True by (apply HP; by left).
  rewrite IH; [done|]. intros y Hy. apply HP. by right.
Qed.

Section TeardownAgain.
Variable cfg : Config.
Hypothesis no_store : redis cfg = false.

Lemma Inv_handleClientDisconnect_again c s :
  Inv s → c ∉ clients s →
  match partnerOf s c with
  | Some p => p ∈ clients s → partnerOf s p = None
  | None => True
  end →
  Inv (handleClientDisconnect cfg c s).
Proof using no_store.
  intros HI Hc Hp. unfold handleClientDisconnect.
  assert (∀ t, clients t = clients s →
               clients (set_clients (filter (λ i, i ≠ c))
                          (set_waitingQueue (queueRemove c) t)) = clients s) as Hcl.
  { intros t Ht. simpl. rewrite Ht. apply filter_unchanged. by intros x Hx ->. }
  destruct (partnerOf s c) as [p|] eqn:E.
  - destruct (decide (p ∈ clients s)) as [Hreg|Hreg].
    + specialize (Hp Hreg).
      pose proof (releasePartner_clients cfg p s no_store) as Hrc.
      pose proof HI as [I1 I2 I3 I4].
      assert (∀ x, partnerOf (releasePartner cfg p s) x = partnerOf s x) as Hpo.
      { intros x. rewrite releasePartner_partnerOf by done.
        case_decide; [by subst|done]. }
      split.
      * intros x Hx. rewrite Hcl in Hx by done. autorewrite with obs.
        by apply releasePartner_in_heap, I1.
      * intros x Hx. autorewrite with obs in Hx.
        apply releasePartner_in_heap in Hx; [|done]. simpl.
        rewrite releasePartner_uuid by done. by apply I2.
      * intros x y. rewrite Hcl by done. autorewrite with obs. rewrite !Hpo.
        apply I3.
      * intros x. rewrite Hcl by done. autorewrite with obs. rewrite Hpo.
        intros Hx [Ha Hpx]. destruct (decide (x = p)) as [->|Hne].
        -- rewrite Hp in Hpx. by destruct Hpx.
        -- rewrite releasePartner_availableOf in Ha by (done || by apply I1).
           rewrite decide_False in Ha by done. by apply (I4 x Hx).
    + rewrite releasePartner_absent by done.
      apply (Inv_obs s); try done. by apply Hcl.
  - apply (Inv_obs s); try done. by apply Hcl.
Qed.

Lemma Inv_step_tame e s : Inv s → tame s e → Inv (step cfg e s).
Proof using no_store.
  intros HI Ht.
  destruct e as [|now c d|c|c|l]; try (by apply Inv_step);
    (destruct (decide (c ∈ clients s)); [by apply Inv_step|]);
    cbv beta iota delta [step]; simpl in Ht;
    apply Inv_handleClientDisconnect_again; try done; by destruct Ht.
Qed.

Lemma Inv_run_tame es s : Inv s → tameRun cfg es s → Inv (run cfg es s).
Proof using no_store.
  revert s. induction es as [|e es IH]; intros s HI Hl; [done|].
  destruct Hl as [Hr Hl]. simpl. apply IH; [|done]. by apply Inv_step_tame.
Qed.

(** A repeated teardown that finds the partner on record registered and
    paired again unlinks one side of that pair. *)
Lemma second_teardown_breaks c p q s :
  Inv s → c ∉ clients s → partnerOf s c = Some p → p ∈ clients s →
  partnerOf s p = Some q → q ≠ p →
  ¬ symmetric (handleClientDisconnect cfg c s).
Proof using no_store.
  intros HI Hc Hp Hpin Hpq Hne Hsym.
  destruct (inv_sym _ HI p q Hpin Hpq) as [Hqin Hqp].
  assert (q ≠ c) as Hqc by (by intros ->).
  destruct (Hsym q p) as [_ H].
  - unfold handleClientDisconnect. rewrite Hp. simpl.
    rewrite releasePartner_clients by done. by apply list_elem_of_filter.
  - unfold handleClientDisconnect. rewrite Hp. autorewrite with obs.
    rewrite releasePartner_partnerOf by done. by rewrite decide_False.
  - unfold handleClientDisconnect in H. rewrite Hp in H.
    autorewrite with obs in H. rewrite releasePartner_partnerOf in H by done.
    by rewrite decide_True in H.
Qed.

End TeardownAgain.

Lemma IndexJs_Inv_run_tame requeue es s :
  Inv s → tameRunJs requeue es s → Inv (IndexJs.run requeue es s).
Proof.
  revert s. induction es as [|e es IH]; intros s HI Hl; [done|].
  destruct Hl as [Ht Hl]. simpl. apply IH; [|done].
  assert (redis (mkConfig requeue 40 false) = false) as Hc by done.
  destruct e as [|now c d|c|c|l];
    try (by apply (IndexJs_Inv_step (mkConfig requeue 40 false)));
    (destruct (decide (c ∈ clients s));
       [by apply (IndexJs_Inv_step (mkConfig requeue 40 false))|]);
    cbv beta iota delta [IndexJs.step]; simpl in Ht;
    rewrite <- (IndexJs_handleClientDisconnect (mkConfig requeue 40 false) Hc);
    apply Inv_handleClientDisconnect_again; try done; by destruct Ht.
Qed.

(** [index.js] moves every object and its mailbox as the extended server
    does. *)
Lemma ost_stepJs x a s1 requeue e :
  rtc (otrans x) a (snap s1 x) →
  rtc (otrans x) a (snap (IndexJs.step requeue e s1) x).
Proof.
  intros H. assert (redis (mkConfig requeue 40 false) = false) as Hc by done.
  destruct e as [|now c d|c|c|l]; cbv beta iota delta [IndexJs.step].
  - exact (ost_step x a s1 (mkConfig requeue 40 false) EConnect H).
  - rewrite <- (IndexJs_onMessage (mkConfig requeue 40 false) Hc).
    by apply ost_parseAndHandle.
  - rewrite <- (IndexJs_handleClientDisconnect (mkConfig requeue 40 false) Hc).
    exact (ost_step x a s1 (mkConfig requeue 40 false) (EClose c) H).
  - rewrite <- (IndexJs_handleClientDisconnect (mkConfig requeue 40 false) Hc).
    exact (ost_step x a s1 (mkConfig requeue 40 false) (EClose c) H).
  - done.
Qed.

Lemma IndexJs_run_snoc requeue es e s :
  IndexJs.run requeue (es ++ [e]) s = IndexJs.step requeue e (IndexJs.run requeue es s).
Proof. unfold IndexJs.run. by rewrite foldl_app. Qed.

Lemma IndexJs_run_snapOk requeue es x :
  snapOk x (snap (IndexJs.run requeue es initState) x).
Proof.
  apply (rtc_snapOk x (snap initState x)).
  - induction es as [|e es IH] using rev_ind; [done|].
    rewrite IndexJs_run_snoc. by apply ost_stepJs.
  - intros cl Hcl. unfold snap in Hcl; simpl in Hcl. by rewrite lookup_empty in Hcl.
Qed.

(** No elementary change of an object makes it both available and paired. *)
Lemma otrans_neverBoth x a b :
  rtc (otrans x) a b →
  (∀ cl, a.1 = Some cl → is_Some (partnerId cl) → isAvailable cl = false) →
  (∀ cl, b.1 = Some cl → is_Some (partnerId cl) → isAvailable cl = false).
Proof.
  induction 1 as [|a b c Ht _ IH]; [done|]. intros Ha. apply IH. clear IH.
  destruct Ht as [o ms f Hp Hr Hv|o ms m Hm|o ms f p r Hne Hp Hr Hv|o ms f told Hp Hr
                 |o ms cl' Hp Hr]; intros cl Hcl; simpl in *.
  - destruct o as [cl0|]; [|done]. injection Hcl as <-.
    rewrite Hp. intros Hs. rewrite Hv by done. by apply Ha.
  - by apply Ha.
  - destruct o as [cl0|]; [|done]. injection Hcl as <-. by rewrite Hv.
  - destruct o as [cl0|]; [|done]. injection Hcl as <-. rewrite Hp. by intros [? ?].
  - injection Hcl as <-. rewrite Hp. by intros [? ?].
Qed.

Lemma neverBoth_moves s s' :
  (∀ x, rtc (otrans x) (snap s x) (snap s' x)) → neverBoth s → neverBoth s'.
Proof.
  intros Hmove H c [Ha Hp]. unfold availableOf, partnerOf in Ha, Hp.
  destruct (heap s' !! c) as [cl|] eqn:E; [|done]. simpl in *.
  rewrite (otrans_neverBoth c _ _ (Hmove c)) in Ha; [done| |done|done].
  intros cl0 Hcl0 Hs. simpl in Hcl0.
  destruct (isAvailable cl0) eqn:Hav; [|done]. destruct (H c).
  unfold availableOf, partnerOf. rewrite Hcl0. by split.
Qed.

Lemma neverBoth_exclusive s : neverBoth s → exclusive s.
Proof. intros H c _. apply H. Qed.

Lemma snapOk_exclusive s :
  (∀ x, snapOk x (snap s x)) → exclusive s.
Proof.
  intros H c _ [Ha Hp]. unfold availableOf, partnerOf in *.
  destruct (heap s !! c) as [cl|] eqn:E; [|done]. simpl in *.
  destruct (H c cl E) as (_ & _ & Hx & _). rewrite (Hx Hp) in Ha. done.
Qed.

Lemma snapOk_not_own_partner s x :
  snapOk x (snap s x) → partnerOf s x ≠ Some x.
Proof.
  intros H. unfold partnerOf. destruct (heap s !! x) as [cl|] eqn:E; [|done].
  by destruct (H cl E) as (? & _).
Qed.

(** * The claims *)

(** C1, counterexample.  Two runs, every message in them coming from a
    registered connection.

    With a store: client 0 declares itself available twice, which leaves its
    id twice in the store's list; clients 1 and 2 then each pop it and are
    paired with it.  Client 1 ends up linked to client 0, whose link points to
    client 2.

    Without a store: clients 0 and 1 are paired; the socket of client 0 fails,
    and its [error] handler tears the pair down and requeues client 1, which
    is then paired with client 2; the [close] handler of the same socket runs
    the teardown again and resets client 1, the partner its stale link names.
    Client 2 ends up linked to client 1, which is unpaired.

    In both runs it is the symmetry of the links that fails. *)
Lemma C1_pairing_invariant_broken :
  (liveRun storeConfig twiceAvailable initState ∧
   ¬ pairing_invariant (run storeConfig twiceAvailable initState)) ∧
  ¬ pairing_invariant (run defaultConfig closedTwice initState).
Proof.
  split; [split|].
  - by apply (bool_decide_unpack _); vm_compute.
  - intros [Hs _]. destruct (Hs 1%nat 0%nat) as [_ H].
    + by apply (bool_decide_unpack _); vm_compute.
    + by vm_compute.
    + vm_compute in H. discriminate H.
  - intros [Hs _]. destruct (Hs 2%nat 1%nat) as [_ H].
    + by apply (bool_decide_unpack _); vm_compute.
    + by vm_compute.
    + vm_compute in H. discriminate H.
Qed.

(** C1, as amended.  After every completed operation, in every configuration
    and in both servers, no registered connection is both available and
    paired; and no event handler, nor any stretch of [handleAvailable] between
    two awaits, makes a client object both, so that this part holds however
    the asynchronous handlers interleave.  Without a store the partner links
    of registered connections are symmetric after every completed operation
    of a tame run: messages come from registered connections, and a teardown
    that runs again for a connection already removed finds the partner on
    record unregistered or unpaired.  This is as far as symmetry goes: after a tame run, a repeated
    teardown that is not tame leaves the links asymmetric. *)
Theorem C1_pairing_invariant_where_it_holds (cfg : Config) (es : list Event) :
  exclusive (run cfg es initState) ∧
  exclusive (IndexJs.run (REQUEUE_ON_PARTNER_LEAVE cfg) es initState) ∧
  (∀ s, neverBoth s →
     exclusive s ∧ (∀ e, neverBoth (step cfg e s)) ∧
     (∀ c, neverBoth (handleAvailable_begin cfg c s).1) ∧
     (∀ w, neverBoth (handleAvailable_resume cfg w s).1)) ∧
  (redis cfg = false → tameRun cfg es initState →
   symmetric (run cfg es initState)) ∧
  (tameRunJs (REQUEUE_ON_PARTNER_LEAVE cfg) es initState →
   symmetric (IndexJs.run (REQUEUE_ON_PARTNER_LEAVE cfg) es initState)) ∧
  (redis cfg = false → tameRun cfg es initState →
   ∀ c, ¬ tame (run cfg es initState) (EClose c) →
        ¬ symmetric (run cfg (es ++ [EClose c]) initState) ∧
        ¬ symmetric (run cfg (es ++ [ESocketError c]) initState)).
Proof.
  split_and!.
  - apply snapOk_exclusive. intros x. apply run_snapOk.
  - apply snapOk_exclusive. intros x. apply IndexJs_run_snapOk.
  - intros s Hs. split_and!.
    + by apply neverBoth_exclusive.
    + intros e. apply (neverBoth_moves s); [|done]. intros x. by apply ost_step.
    + intros c. apply (neverBoth_moves s); [|done]. intros x. by apply ost_begin.
    + intros w. apply (neverBoth_moves s); [|done]. intros x. by apply ost_resume.
  - intros Hc Hl. apply (Inv_run_tame cfg Hc es initState Inv_init Hl).
  - intros Hl. apply (IndexJs_Inv_run_tame _ es initState Inv_init Hl).
  - intros Hc Hl c Ht.
    pose proof (Inv_run_tame cfg Hc es initState Inv_init Hl) as HI.
    set (s := run cfg es initState) in *. simpl in Ht.
    assert (c ∉ clients s) as Hreg by tauto.
    destruct (partnerOf s c) as [p|] eqn:Hp; [|tauto].
    destruct (decide (p ∈ clients s)) as [Hpin|Hpin]; [|tauto].
    destruct (partnerOf s p) as [q|] eqn:Hq; [|tauto].
    assert (q ≠ p) as Hne.
    { intros ->. by apply (snapOk_not_own_partner s p); [apply run_snapOk|]. }
    rewrite !run_snoc. fold s. cbv beta iota delta [step].
    split; by apply (second_teardown_breaks cfg Hc c p q).
Qed.

Lemma C1_pairing_invariant_where_it_holds_witness :
  ¬ liveRun defaultConfig errorThenClose initState ∧
  symmetric (run defaultConfig errorThenClose initState).
Proof.
  split; [by apply (bool_decide_unpack _); vm_compute|].
  assert (tameRun defaultConfig errorThenClose initState) as H
    by (by apply (bool_decide_unpack _); vm_compute).
  exact (proj1 (proj2 (proj2 (proj2
           (C1_pairing_invariant_where_it_holds defaultConfig errorThenClose))))
           eq_refl H).
Defined.




(** C3, counterexample.  A waiting, unpaired connection that sends [leave]
    gets no error, and its state changes: the available flag is cleared and
    its id leaves the waiting queue. *)
Lemma C3_leave_unpaired_is_not_an_error :
  let s := run defaultConfig oneWaiting initState in
  partnerOf s 0%nat = None ∧
  sent (handleLeave defaultConfig 0%nat s) = sent s ∧
  availableOf s 0%nat = true ∧
  availableOf (handleLeave defaultConfig 0%nat s) 0%nat = false ∧
  waitingQueue s = [0%nat] ∧
  waitingQueue (handleLeave defaultConfig 0%nat s) = [].
Proof. by vm_compute. Qed.

(** C3, as amended.  For a connection without partner, [next] fails with
    NOT_PAIRED handed to the caller and changes nothing else.  [leave] hands
    no message to anyone; it clears the caller's available flag and takes its
    id out of the in-memory waiting queue, and leaves every other
    connection's record, the registry and the store's list as they were.
    Both servers. *)
Theorem C3_next_and_leave_while_unpaired (cfg : Config) (c : Id) (s : State) :
  partnerOf s c = None →
  handleNext cfg c s = onlySent c (Error NOT_PAIRED) s ∧
  IndexJs.handleNext (REQUEUE_ON_PARTNER_LEAVE cfg) c s
    = onlySent c (Error NOT_PAIRED) s ∧
  let s' := handleLeave cfg c s in
  IndexJs.handleLeave (REQUEUE_ON_PARTNER_LEAVE cfg) c s = s' ∧
  sent s' = sent s ∧ published s' = published s ∧
  partnerOf s' c = None ∧ availableOf s' c = false ∧
  waitingQueue s' = queueRemove c (waitingQueue s) ∧
  clients s' = clients s ∧ redisList s' = redisList s ∧
  (∀ x, x ≠ c → heap s' !! x = heap s !! x).
Proof.
  intros Hp. cbv zeta. split_and!.
  - unfold handleNext. by rewrite Hp.
  - unfold IndexJs.handleNext. by rewrite Hp.
  - unfold IndexJs.handleLeave, handleLeave. by rewrite Hp.
  - unfold handleLeave. by rewrite Hp.
  - unfold handleLeave. by rewrite Hp.
  - unfold handleLeave. rewrite Hp, resetClient_partnerOf. by rewrite decide_True.
  - unfold handleLeave. rewrite Hp, resetClient_availableOf. by rewrite decide_True.
  - unfold handleLeave. by rewrite Hp.
  - unfold handleLeave. by rewrite Hp.
  - unfold handleLeave. by rewrite Hp.
  - intros x Hx. unfold handleLeave. rewrite Hp. unfold resetClient. simpl.
    by rewrite !lookup_alter_ne by congruence.
Qed.

Lemma C3_next_and_leave_while_unpaired_witness :
  handleNext defaultConfig 0%nat (run defaultConfig oneWaiting initState)
  = onlySent 0%nat (Error NOT_PAIRED) (run defaultConfig oneWaiting initState).
Proof.
  assert (partnerOf (run defaultConfig oneWaiting initState) 0%nat = None)
    as H by (by vm_compute).
  exact (proj1 (C3_next_and_leave_while_unpaired defaultConfig 0%nat _ H)).
Defined.

(** C4, counterexample.  With a store configured, a second [available] from
    the same unpaired connection pops its own id, pushes it back, and after
    five rounds pushes it once more: the store's list holds it twice. *)
Lemma C4_store_list_duplicates :
  redisList (run storeConfig [EConnect; available 0%nat; available 0%nat] initState)
  = [0%nat; 0%nat].
Proof. by vm_compute. Qed.

(** C4, as amended.  After every operation, in every configuration and in
    both servers, the in-memory waiting queue holds each id at most once; the
    store's list has no such guard. *)
Theorem C4_local_queue_no_duplicates (cfg : Config) (es : list Event) :
  NoDup (waitingQueue (run cfg es initState)) ∧
  NoDup (waitingQueue (IndexJs.run (REQUEUE_ON_PARTNER_LEAVE cfg) es initState)).
Proof.
  split; [apply run_NoDup | apply IndexJs_run_NoDup]; simpl; constructor.
Qed.

(** C5, counterexample.  With a store, clients 1 and 3 have been requeued and
    the store's list holds both.  Client 3 declares itself available, pops
    client 1 and is paired with it by [createRoom]; its own id stays in the
    store's list although it is paired now. *)
Lemma C5_store_list_keeps_paired_id :
  let s := run storeConfig storeRequeued initState in
  let s' := step storeConfig (available 3%nat) s in
  liveRun storeConfig (storeRequeued ++ [available 3%nat]) initState ∧
  redisList s = [3; 1]%nat ∧
  partnerOf s' 3%nat = Some 1%nat ∧ partnerOf s' 1%nat = Some 3%nat ∧
  redisList s' = [3%nat].
Proof.
  cbv zeta. split; [by apply (bool_decide_unpack _); vm_compute|]. by vm_compute.
Qed.

(** C5, as amended.  [createRoom] on two distinct connections draws a room id
    never held before, links each to the other under that room id, clears
    both available flags, takes both ids out of the in-memory waiting queue
    leaving the others in order, hands each a [matched] naming the other and
    the room, and touches no other record.  Both sides are linked by the one
    call; and neither the registry scan nor the store pop ever proposes the
    caller itself as partner.  The store's list is left as it is. *)
Theorem C5_local_pairing (a b : Id) (s : State) :
  a ≠ b → in_heap s a → in_heap s b →
  NoDup (waitingQueue s) → roomsBelow s →
  let room := uuid s in
  let s' := createRoom a b s in
  (∀ x, roomOf s x ≠ Some room) ∧
  partnerOf s' a = Some b ∧ partnerOf s' b = Some a ∧
  roomOf s' a = Some room ∧ roomOf s' b = Some room ∧
  availableOf s' a = false ∧ availableOf s' b = false ∧
  (a ∉ waitingQueue s') ∧ (b ∉ waitingQueue s') ∧
  filter (λ y, y ≠ a ∧ y ≠ b) (waitingQueue s')
    = filter (λ y, y ≠ a ∧ y ≠ b) (waitingQueue s) ∧
  sent s' = sent s ++ [(a, Matched room b); (b, Matched room a)] ∧
  (∀ x, x ≠ a → x ≠ b → heap s' !! x = heap s !! x) ∧
  (∀ c p, findAvailablePartner c s = Some p → p ≠ c) ∧
  (∀ cfg c p s1, tryMatchGlobal cfg c s = Ok (Some p) s1 → p ≠ c) ∧
  redisList s' = redisList s.
Proof.
  intros Hab Ha Hb Hq HR. cbv zeta. split_and!; [..|done].
  - intros x Hx%HR. lia.
  - rewrite createRoom_partnerOf by done. by rewrite decide_True.
  - rewrite createRoom_partnerOf by done.
    rewrite decide_False by congruence. by rewrite decide_True.
  - rewrite createRoom_roomOf by done. rewrite decide_True; auto.
  - rewrite createRoom_roomOf by done. rewrite decide_True; auto.
  - rewrite createRoom_availableOf. by rewrite decide_True.
  - rewrite createRoom_availableOf. destruct (decide (b = a)); [done|].
    by rewrite decide_True.
  - rewrite createRoom_queue. intros H%queueRemove_subseteq.
    by apply (queueRemove_gone a (waitingQueue s)).
  - rewrite createRoom_queue. by apply queueRemove_gone, queueRemove_NoDup.
  - rewrite createRoom_queue. rewrite !queueRemove_filter; [done|tauto|tauto].
  - apply createRoom_sent.
  - intros x Hxa Hxb. unfold createRoom; simpl.
    by rewrite !lookup_alter_ne by congruence.
  - intros c p H%findAvailablePartner_Some. tauto.
  - intros cfg c p s1. apply tryMatchGlobal_other.
Qed.

Lemma C5_local_pairing_witness :
  partnerOf (createRoom 0%nat 1%nat (run defaultConfig twoIdle initState)) 0%nat
  = Some 1%nat.
Proof.
  assert (0%nat ≠ 1%nat) as H1 by done.
  assert (in_heap (run defaultConfig twoIdle initState) 0%nat) as H2
    by (by apply (bool_decide_unpack _); vm_compute).
  assert (in_heap (run defaultConfig twoIdle initState) 1%nat) as H3
    by (by apply (bool_decide_unpack _); vm_compute).
  assert (NoDup (waitingQueue (run defaultConfig twoIdle initState))) as H4
    by (apply run_NoDup; constructor).
  assert (roomsBelow (run defaultConfig twoIdle initState)) as H5
    by apply run_roomsBelow_idsAgree.
  exact (proj1 (proj2 (C5_local_pairing 0%nat 1%nat _ H1 H2 H3 H4 H5))).
Defined.

(** C6.  For a connection [c] with window start [ts] and counter [count]:
    when more than 1000 ms have passed since [ts] the window restarts at
    [now] with the counter at 1 and the message is admitted; otherwise the
    counter goes up by one and the message is admitted exactly when the new
    count is at most the maximum.  Nothing else changes.  An admitted message
    goes to the handler; a rejected one is answered with RATE_LIMIT and goes
    nowhere.  With the default maximum of 40, of 41 messages in one window the
    first 40 are admitted and the 41st is rejected. *)
Theorem C6_rate_limiter (cfg : Config) (now : Z) (c : Id) (cl : Client)
    (data : Inbound) (s : State) :
  heap s !! c = Some cl →
  let ok := (rateLimitOK cfg now c s).1 in
  let s1 := (rateLimitOK cfg now c s).2 in
  (now - ts (rate cl) > 1000 →
     ok = true ∧ s1 = assign c (with_rate (mkRate now 1)) s) ∧
  (now - ts (rate cl) ≤ 1000 →
     s1 = assign c (with_rate (mkRate (ts (rate cl)) (count (rate cl) + 1))) s ∧
     (ok = true ↔ count (rate cl) + 1 ≤ MAX_MSG_PER_SECOND cfg)) ∧
  (ok = true → onMessage cfg now c data s = parseAndHandle cfg c data s1) ∧
  (ok = false → onMessage cfg now c data s = onlySent c (Error RATE_LIMIT) s1) ∧
  (∀ burst : list (Z * Inbound),
     MAX_MSG_PER_SECOND cfg = 40 →
     now - ts (rate cl) > 1000 →
     length burst = 40%nat →
     Forall (λ td, td.1 - now ≤ 1000) burst →
     verdicts cfg c ((now, data) :: burst) s = replicate 40 true ++ [false]).
Proof.
  intros Hc. cbv zeta. split_and!.
  - intros Ht. by rewrite (rateLimitOK_elapsed cfg now c cl s).
  - intros Ht. rewrite (rateLimitOK_within cfg now c cl s) by done. simpl.
    split; [done|]. by rewrite Z.leb_le.
  - intros Hok. unfold onMessage.
    destruct (rateLimitOK cfg now c s) as [ok s1]. simpl in *. by subst.
  - intros Hok. unfold onMessage.
    destruct (rateLimitOK cfg now c s) as [ok s1]. simpl in *. by subst.
  - intros burst Hmax Ht Hlen Hw. simpl.
    rewrite (rateLimitOK_elapsed cfg now c cl s) by done. simpl.
    rewrite (verdicts_within cfg c now 1 burst).
    + rewrite Hlen, Hmax. reflexivity.
    + rewrite onMessage_rateOf, (rateLimitOK_elapsed cfg now c cl s) by done.
      simpl. by rewrite (rateOf_assign_rate _ _ _ cl).
    + done.
Qed.

Lemma C6_rate_limiter_witness :
  onMessage defaultConfig 5000 0%nat (Parsed CPing) (run defaultConfig twoIdle initState)
  = parseAndHandle defaultConfig 0%nat (Parsed CPing)
      (rateLimitOK defaultConfig 5000 0%nat (run defaultConfig twoIdle initState)).2.
Proof.
  assert (heap (run defaultConfig twoIdle initState) !! 0%nat
          = Some (mkClient 0%nat None None None false (mkRate 0 0))) as H
    by (by vm_compute).
  exact (proj1 (proj2 (proj2
           (C6_rate_limiter defaultConfig 5000 0%nat _ (Parsed CPing) _ H)))
         eq_refl).
Defined.

(** C7.  A connection without partner that sends [offer], [answer] or [ice]
    gets a NOT_PAIRED error and nothing else happens: the state afterwards is
    the state before with that one message handed to the sender; nothing
    is handed to another connection and nothing is published.  Both servers. *)
Theorem C7_signal_while_unpaired (cfg : Config) (c : Id) (m : ClientMsg) (s : State) :
  isSignal m = true →
  partnerOf s c = None →
  handleMessage cfg c m s = onlySent c (Error NOT_PAIRED) s ∧
  IndexJs.handleMessage (REQUEUE_ON_PARTNER_LEAVE cfg) c m s
    = onlySent c (Error NOT_PAIRED) s ∧
  filter (λ xm, xm.1 ≠ c) (sent (handleMessage cfg c m s))
    = filter (λ xm, xm.1 ≠ c) (sent s) ∧
  published (handleMessage cfg c m s) = published s.
Proof.
  intros Hm Hp.
  assert (handleMessage cfg c m s = onlySent c (Error NOT_PAIRED) s) as E.
  { destruct m; try discriminate Hm; simpl;
      unfold handleOffer, handleAnswer, handleIce; by rewrite Hp. }
  split_and!; [done| |rewrite E|by rewrite E].
  - destruct m; try discriminate Hm; simpl;
      unfold IndexJs.handleOffer, IndexJs.handleAnswer, IndexJs.handleIce;
      by rewrite Hp.
  - simpl. rewrite filter_app. rewrite filter_cons. simpl.
    rewrite decide_False by (intros H; by apply H).
    by rewrite filter_nil, app_nil_r.
Qed.

Lemma C7_signal_while_unpaired_witness :
  handleMessage defaultConfig 0%nat (COffer "v=0") (run defaultConfig oneWaiting initState)
  = onlySent 0%nat (Error NOT_PAIRED) (run defaultConfig oneWaiting initState).
Proof.
  assert (partnerOf (run defaultConfig oneWaiting initState) 0%nat = None)
    as H by (by vm_compute).
  exact (proj1 (C7_signal_while_unpaired defaultConfig 0%nat (COffer "v=0") _
                  eq_refl H)).
Defined.

(** C8.  A paired connection that declares itself available gets an
    ALREADY_PAIRED error and nothing else changes: partner, room, available
    flag, both waiting queues and every other field are as before.  Both
    servers. *)
Theorem C8_available_while_paired (cfg : Config) (c p : Id) (s : State) :
  partnerOf s c = Some p →
  let s' := handleAvailable cfg c s in
  s' = onlySent c (Error ALREADY_PAIRED) s ∧
  IndexJs.handleAvailable c s = onlySent c (Error ALREADY_PAIRED) s ∧
  partnerOf s' c = Some p ∧ roomOf s' c = roomOf s c ∧
  availableOf s' c = availableOf s c ∧
  waitingQueue s' = waitingQueue s ∧ redisList s' = redisList s.
Proof.
  intros Hp s'.
  assert (s' = onlySent c (Error ALREADY_PAIRED) s) as E.
  { unfold s', handleAvailable. rewrite Hp.
    by rewrite bool_decide_eq_true_2 by eauto. }
  split_and!; try (by rewrite E).
  unfold IndexJs.handleAvailable. rewrite Hp.
  by rewrite bool_decide_eq_true_2 by eauto.
Qed.

Lemma C8_available_while_paired_witness :
  handleAvailable defaultConfig 0%nat (run defaultConfig matchedPair initState)
  = onlySent 0%nat (Error ALREADY_PAIRED) (run defaultConfig matchedPair initState).
Proof.
  assert (partnerOf (run defaultConfig matchedPair initState) 0%nat = Some 1%nat)
    as H by (by vm_compute).
  exact (proj1 (C8_available_while_paired defaultConfig 0%nat 1%nat _ H)).
Defined.

(** C9.  Taking an id out of the waiting queue when it is not there changes
    nothing; taking the same id out twice keeps the other entries in their
    order, and on a queue without duplicates the second removal changes
    nothing.  In particular a disconnect after a leave finds the queue as the
    leave left it. *)
Theorem C9_queue_removal_idempotent (cfg : Config) (x : Id) (s : State) :
  let q := waitingQueue s in
  (x ∉ q → queueRemove x q = q) ∧
  filter (λ y, y ≠ x) (queueRemove x (queueRemove x q)) = filter (λ y, y ≠ x) q ∧
  (NoDup q →
   queueRemove x (queueRemove x q) = queueRemove x q ∧
   waitingQueue (handleClientDisconnect cfg x (handleLeave cfg x s))
   = waitingQueue (handleLeave cfg x s)).
Proof.
  cbv zeta. split_and!.
  - apply queueRemove_absent.
  - by rewrite !queueRemove_order.
  - intros Hq. split.
    + apply queueRemove_absent. by apply queueRemove_gone.
    + unfold handleClientDisconnect.
      assert (partnerOf (handleLeave cfg x s) x = None) as ->.
      { unfold handleLeave. rewrite resetClient_partnerOf. by rewrite decide_True. }
      simpl. apply queueRemove_absent, queueRemove_gone.
      destruct (partnerOf s x); [by apply releasePartner_NoDup|done].
Qed.

Lemma C9_queue_removal_idempotent_witness :
  queueRemove 1%nat (waitingQueue (run defaultConfig oneWaiting initState))
  = waitingQueue (run defaultConfig oneWaiting initState).
Proof.
  assert (1%nat ∉ waitingQueue (run defaultConfig oneWaiting initState)) as H
    by (by apply (bool_decide_unpack _); vm_compute).
  exact (proj1 (C9_queue_removal_idempotent defaultConfig 1%nat _) H).
Defined.

(** C10.  An unpaired connection may declare itself available again.  In
    every configuration the handler hands out no error, and afterwards the
    connection is flagged available unless the declaration has paired it.
    Without a store it searches the registry again: if a partner is found the
    two are paired; if none is found the flag is true afterwards, nothing is
    handed out, the id is appended to the waiting queue only when it is not
    in it, and when the connection was already flagged and queued the state
    is unchanged.  Both servers.  With a store the flag is raised before the
    first await and the store's list is popped again; no stretch of the
    handler hands out an error; and the push that ends an unsuccessful search
    has no membership test: left alone with a list that holds only its own
    id, the handler leaves the id there once more. *)
Theorem C10_available_again (cfg : Config) (c : Id) (s : State) :
  partnerOf s c = None →
  in_heap s c →
  let s' := handleAvailable cfg c s in
  sentNoError s s' ∧
  (is_Some (partnerOf s' c) ∨ availableOf s' c = true) ∧
  (redis cfg = false →
   IndexJs.handleAvailable c s = s' ∧
   match findAvailablePartner c s with
   | Some p => s' = createRoom c p (assign c (with_isAvailable true) s)
   | None =>
       availableOf s' c = true ∧ sent s' = sent s ∧
       waitingQueue s' =
         (if decide (c ∈ waitingQueue s) then waitingQueue s
          else waitingQueue s ++ [c]) ∧
       (availableOf s c = true → c ∈ waitingQueue s → s' = s)
   end) ∧
  (redis cfg = true →
   handleAvailable_begin cfg c s
     = (assign c (with_isAvailable true) s, Some (AwaitPop c 0)) ∧
   availableOf (assign c (with_isAvailable true) s) c = true ∧
   (∀ t w, sentNoError t (handleAvailable_resume cfg w t).1) ∧
   (∀ t, faults t = [] →
      handleAvailable_resume cfg (AwaitEnqueue c) t
      = (set_redisList (λ l, c :: l) t, None)) ∧
   (∀ n, faults s = [] → redisList s = replicate n c →
      s' = set_redisList (λ l, c :: l) (assign c (with_isAvailable true) s))).
Proof.
  intros Hp [cl Hcl]. cbv zeta.
  split; [|split; [apply handleAvailable_engaged; [done|by exists cl]|split]].
  - unfold handleAvailable.
    rewrite Hp. rewrite bool_decide_eq_false_2 by (by intros [? ?]).
    set (s1 := assign c (with_isAvailable true) s).
    assert (sentNoError s s1) as H1 by by apply sentNoError_same.
    destruct (redis cfg).
    + pose proof (sentNoError_matchGlobally cfg c s1) as HG.
      destruct (matchGlobally cfg c s1) as [[] s2|s2]; simpl in HG.
      * by apply (sentNoError_trans _ s1).
      * apply (sentNoError_trans _ s1); [done|].
        apply (sentNoError_trans _ s2); [done|]. apply sentNoError_matchLocally.
    + apply (sentNoError_trans _ s1); [done|]. apply sentNoError_matchLocally.
  - unfold handleAvailable, IndexJs.handleAvailable.
    rewrite Hp. rewrite bool_decide_eq_false_2 by (by intros [? ?]).
    set (s1 := assign c (with_isAvailable true) s).
    intros ->. unfold matchLocally. split; [done|].
    assert (findAvailablePartner c s1 = findAvailablePartner c s) as ->
      by apply findAvailablePartner_assign_self.
    destruct (findAvailablePartner c s) as [p|]; [done|].
    split_and!; try done.
    + unfold s1. autorewrite with obs. rewrite decide_True by done.
      by rewrite Hcl.
    + intros Ha Hq. unfold s1. rewrite assign_same.
      { unfold set_waitingQueue, queuePushUnique. rewrite decide_True by done.
        by destruct s. }
      intros cl' Hcl'. unfold availableOf in Ha. rewrite Hcl' in Ha. simpl in Ha.
      destruct cl'; simpl in *. by subst.
  - intros Hc. split_and!.
    + unfold handleAvailable_begin.
      rewrite Hp. rewrite bool_decide_eq_false_2 by (by intros [? ?]).
      by rewrite Hc.
    + rewrite availableOf_assign, decide_True by done. by rewrite Hcl.
    + intros t w. apply sentNoError_resume.
    + intros t Hf. cbn [handleAvailable_resume]. by rewrite lpush_ok.
    + intros n Hf Hl. unfold handleAvailable.
      rewrite Hp. rewrite bool_decide_eq_false_2 by (by intros [? ?]).
      rewrite Hc, matchGlobally_afterScan. unfold tryMatchGlobal.
      rewrite Hc. cbn [negb].
      rewrite (tryMatchGlobal_loop_self_only 5 c n) by done.
      cbn [afterScan]. by rewrite lpush_ok.
Qed.

Lemma C10_available_again_witness :
  sentNoError (run defaultConfig oneWaiting initState)
    (handleAvailable defaultConfig 0%nat (run defaultConfig oneWaiting initState)).
Proof.
  assert (partnerOf (run defaultConfig oneWaiting initState) 0%nat = None)
    as H by (by vm_compute).
  assert (in_heap (run defaultConfig oneWaiting initState) 0%nat)
    as H' by (by apply (bool_decide_unpack _); vm_compute).
  exact (proj1 (C10_available_again defaultConfig 0%nat _ H H')).
Defined.

(** * Further properties of the code *)

(** ** Relay *)

(** X1.  A paired connection whose partner is registered here sends [offer],
    [answer] or [ice]: the partner, and nobody else, is handed the message
    with the sender's id and the payload as it came; nothing else changes.
    Both servers, every configuration. *)
Theorem relay_reaches_registered_partner (cfg : Config) (c p : Id)
    (m : ClientMsg) (r : ServerMsg) (s : State) :
  relayed c m = Some r →
  partnerOf s c = Some p →
  p ∈ clients s →
  handleMessage cfg c m s = onlySent p r s ∧
  IndexJs.handleMessage (REQUEUE_ON_PARTNER_LEAVE cfg) c m s = onlySent p r s.
Proof.
  intros Hr Hp Hreg.
  destruct m; try discriminate Hr; injection Hr as <-; simpl;
    unfold handleOffer, handleAnswer, handleIce,
      IndexJs.handleOffer, IndexJs.handleAnswer, IndexJs.handleIce,
      IndexJs.sendToPartner;
    rewrite Hp, ?relayToPartner_registered, ?clients_get_Some by done; done.
Qed.

Lemma relay_reaches_registered_partner_witness :
  handleMessage defaultConfig 0%nat (COffer "v=0") (run defaultConfig matchedPair initState)
  = onlySent 1%nat (Offer 0%nat "v=0") (run defaultConfig matchedPair initState).
Proof.
  assert (partnerOf (run defaultConfig matchedPair initState) 0%nat = Some 1%nat)
    as H1 by (by vm_compute).
  assert (1%nat ∈ clients (run defaultConfig matchedPair initState))
    as H2 by (by apply (bool_decide_unpack _); vm_compute).
  exact (proj1 (relay_reaches_registered_partner defaultConfig 0%nat 1%nat
                  (COffer "v=0") _ _ eq_refl H1 H2)).
Defined.

(** X2.  The same message when the recorded partner is not registered here.
    Without a store it is dropped: the state is unchanged and the sender is
    told nothing (both servers).  With a store it is published for the
    partner's id when the store accepts, and only the store's answer is used
    up when it rejects; in neither case is anything handed to a local
    connection. *)
Theorem relay_to_absent_partner (cfg : Config) (c p : Id)
    (m : ClientMsg) (r : ServerMsg) (s : State) :
  relayed c m = Some r →
  partnerOf s c = Some p →
  p ∉ clients s →
  IndexJs.handleMessage (REQUEUE_ON_PARTNER_LEAVE cfg) c m s = s ∧
  (redis cfg = false → handleMessage cfg c m s = s) ∧
  (redis cfg = true → ∀ bad fs, faults s = bad :: fs →
     handleMessage cfg c m s =
     mkState (heap s) (clients s) (waitingQueue s) (redisList s) fs (sent s)
       (if bad then published s else published s ++ [(p, r)]) (uuid s)) ∧
  (redis cfg = true → faults s = [] →
     handleMessage cfg c m s =
     mkState (heap s) (clients s) (waitingQueue s) (redisList s) [] (sent s)
       (published s ++ [(p, r)]) (uuid s)).
Proof.
  intros Hr Hp Hreg.
  assert (handleMessage cfg c m s = relayToPartner cfg p r s) as ->.
  { destruct m; try discriminate Hr; injection Hr as <-; simpl;
      unfold handleOffer, handleAnswer, handleIce; by rewrite Hp. }
  split_and!.
  - destruct m; try discriminate Hr; simpl;
      unfold IndexJs.handleOffer, IndexJs.handleAnswer, IndexJs.handleIce,
        IndexJs.sendToPartner;
      by rewrite Hp, clients_get_None.
  - intros Hc. by apply relayToPartner_absent.
  - intros Hc bad fs Hf. unfold relayToPartner, publishSignal, nextFault.
    rewrite clients_get_None, Hc, Hf by done. simpl. by destruct bad.
  - intros Hc Hf. unfold relayToPartner, publishSignal, nextFault.
    rewrite clients_get_None, Hc, Hf by done. simpl. by rewrite <- Hf.
Qed.

Lemma relay_to_absent_partner_witness :
  IndexJs.handleMessage true 1%nat (CIce "candidate")
    (run storeConfig staleStoreEntry initState)
  = run storeConfig staleStoreEntry initState.
Proof.
  assert (partnerOf (run storeConfig staleStoreEntry initState) 1%nat = Some 0%nat)
    as H1 by (by vm_compute).
  assert (0%nat ∉ clients (run storeConfig staleStoreEntry initState))
    as H2 by (by apply (bool_decide_unpack _); vm_compute).
  exact (proj1 (relay_to_absent_partner storeConfig 1%nat 0%nat
                  (CIce "candidate") _ _ eq_refl H1 H2)).
Defined.

(** ** Messages that leave the pairing alone *)

Lemma samePairing_trans s1 s2 s3 :
  samePairing s1 s2 → samePairing s2 s3 → samePairing s1 s3.
Proof.
  intros (Ha & ? & ? & ?) (Hb & ? & ? & ?). split_and!; try congruence.
  intros x. destruct (Ha x) as (? & ? & ?), (Hb x) as (? & ? & ?).
  split_and!; congruence.
Qed.

Lemma samePairing_assign c f s :
  (∀ cl, partnerId (f cl) = partnerId cl) →
  (∀ cl, roomId (f cl) = roomId cl) →
  (∀ cl, isAvailable (f cl) = isAvailable cl) →
  samePairing s (assign c f s).
Proof.
  intros Hp Hr Ha. split_and!; try done. intros x.
  rewrite partnerOf_assign, roomOf_assign, availableOf_assign.
  case_decide; [subst|done]. unfold partnerOf, roomOf, availableOf.
  destruct (heap s !! x); simpl; by rewrite ?Hp, ?Hr, ?Ha.
Qed.

Lemma samePairing_relayToPartner cfg p m s :
  samePairing s (relayToPartner cfg p m s).
Proof.
  unfold relayToPartner. destruct (clients_get s p); [by repeat split|].
  destruct (redis cfg) eqn:Hc; [|by repeat split].
  unfold publishSignal, nextFault. rewrite Hc. simpl.
  destruct (faults s) as [|[] ?]; simpl; by repeat split.
Qed.

Lemma samePairing_rateLimitOK cfg now c s :
  samePairing s (rateLimitOK cfg now c s).2.
Proof.
  unfold rateLimitOK. destruct (heap s !! c); [|by repeat split].
  destruct (_ >? _); simpl; by apply samePairing_assign.
Qed.

(** X3.  A message that is not [available], [next] or [leave], and any
    message the limiter rejects, changes no partner link, room, available
    flag, registry entry or queue entry, in any configuration: relaying,
    authenticating, pinging, malformed and unknown messages never touch the
    matchmaking state. *)
Theorem pairing_untouched_by_other_messages (cfg : Config) (now : Z) (c : Id)
    (d : Inbound) (s : State) :
  isMatchmaking d = false ∨ (rateLimitOK cfg now c s).1 = false →
  samePairing s (onMessage cfg now c d s) ∧
  (isMatchmaking d = false →
   samePairing s (IndexJs.onMessage (REQUEUE_ON_PARTNER_LEAVE cfg) c d s)).
Proof.
  intros H.
  assert (∀ t, isMatchmaking d = false → samePairing t (parseAndHandle cfg c d t)) as Hh.
  { intros t Hd. destruct d as [|m]; simpl; [by repeat split|].
    destruct m; try discriminate Hd; simpl; try (by repeat split).
    - by apply samePairing_assign.
    - unfold handleOffer. destruct (partnerOf t c);
        [apply samePairing_relayToPartner|by repeat split].
    - unfold handleAnswer. destruct (partnerOf t c);
        [apply samePairing_relayToPartner|by repeat split].
    - unfold handleIce. destruct (partnerOf t c);
        [apply samePairing_relayToPartner|by repeat split]. }
  split.
  - unfold onMessage. pose proof (samePairing_rateLimitOK cfg now c s) as Hr.
    destruct (rateLimitOK cfg now c s) as [ok s1]. simpl in *.
    destruct ok; simpl; [|done].
    destruct H as [Hd|?]; [|done]. eapply samePairing_trans; [exact Hr|by apply Hh].
  - intros Hd. destruct d as [|m]; simpl; [by repeat split|].
    destruct m; try discriminate Hd; simpl; try (by repeat split).
    + by apply samePairing_assign.
    + unfold IndexJs.handleOffer, IndexJs.sendToPartner.
      destruct (partnerOf s c); [|by repeat split].
      destruct (clients_get s _); by repeat split.
    + unfold IndexJs.handleAnswer, IndexJs.sendToPartner.
      destruct (partnerOf s c); [|by repeat split].
      destruct (clients_get s _); by repeat split.
    + unfold IndexJs.handleIce, IndexJs.sendToPartner.
      destruct (partnerOf s c); [|by repeat split].
      destruct (clients_get s _); by repeat split.
Qed.

Lemma pairing_untouched_by_other_messages_witness :
  samePairing (run defaultConfig matchedPair initState)
    (onMessage defaultConfig 5000 0%nat (Parsed (CAuth (Some "alice")))
       (run defaultConfig matchedPair initState)).
Proof.
  exact (proj1 (pairing_untouched_by_other_messages defaultConfig 5000 0%nat
                  (Parsed (CAuth (Some "alice"))) _ (or_introl eq_refl))).
Defined.

(** ** Teardown *)

Lemma queueRemove_app_other c p q :
  c ≠ p → queueRemove c (q ++ [p]) = queueRemove c q ++ [p].
Proof.
  intros Hne. induction q as [|y q IH]; simpl.
  - rewrite queueRemove_cons, queueRemove_nil. by rewrite decide_False by congruence.
  - rewrite !queueRemove_cons. destruct (decide (y = c)); [done|]. by rewrite IH.
Qed.

(** Reads after a chain of assignments, by cases on the keys. *)
Ltac read_fields :=
  unfold partnerOf, roomOf, availableOf, resetClient, assign; simpl;
  rewrite ?lookup_alter; repeat case_decide; subst; try congruence; simpl;
  repeat match goal with
         | H : in_heap _ _ |- _ => destruct H as [? H]; try rewrite H
         | |- context [heap ?s !! ?x] => destruct (heap s !! x)
         end; simpl; try done.

(** X4.  [next] from a paired connection whose partner is registered here,
    without a store: the partner alone is told [partner-left]; both records
    lose partner and room; the caller is not flagged available and is not in
    the waiting queue (it is not requeued by this operation); with requeueing
    on, the partner is flagged available and, if it was not queued already,
    goes to the tail of the queue; with requeueing off the partner's flag and
    the rest of the queue stay as they were.  No other record changes.
    [leave] does exactly the same, and so does [index.js]. *)
Theorem next_releases_both_sides (cfg : Config) (c p : Id) (s : State) :
  redis cfg = false →
  partnerOf s c = Some p → p ∈ clients s → p ≠ c → in_heap s p →
  NoDup (waitingQueue s) →
  let s' := handleNext cfg c s in
  handleLeave cfg c s = s' ∧
  IndexJs.handleNext (REQUEUE_ON_PARTNER_LEAVE cfg) c s = s' ∧
  IndexJs.handleLeave (REQUEUE_ON_PARTNER_LEAVE cfg) c s = s' ∧
  sent s' = sent s ++ [(p, PartnerLeft)] ∧
  partnerOf s' c = None ∧ roomOf s' c = None ∧ availableOf s' c = false ∧
  (c ∉ waitingQueue s') ∧
  partnerOf s' p = None ∧ roomOf s' p = None ∧
  (if REQUEUE_ON_PARTNER_LEAVE cfg
   then availableOf s' p = true ∧ p ∈ waitingQueue s' ∧
        (p ∉ waitingQueue s →
         waitingQueue s' = queueRemove c (waitingQueue s) ++ [p])
   else availableOf s' p = availableOf s p ∧
        waitingQueue s' = queueRemove c (waitingQueue s)) ∧
  clients s' = clients s ∧
  (∀ x, x ≠ c → x ≠ p → heap s' !! x = heap s !! x).
Proof.
  intros Hc Hp Hreg Hne Hhp Hq. cbv zeta.
  assert (handleNext cfg c s = resetClient c (releasePartner cfg p s)) as ->
    by (unfold handleNext; by rewrite Hp).
  split_and!.
  - unfold handleLeave. by rewrite Hp.
  - unfold IndexJs.handleNext. by rewrite Hp, (IndexJs_releasePartner cfg).
  - unfold IndexJs.handleLeave. by rewrite Hp, (IndexJs_releasePartner cfg).
  - rewrite releasePartner_registered by done. simpl.
    by destruct (REQUEUE_ON_PARTNER_LEAVE cfg).
  - rewrite resetClient_partnerOf. by rewrite decide_True.
  - rewrite releasePartner_registered by done. simpl.
    destruct (REQUEUE_ON_PARTNER_LEAVE cfg); read_fields.
  - rewrite resetClient_availableOf. by rewrite decide_True.
  - simpl. apply queueRemove_gone. by apply releasePartner_NoDup.
  - rewrite resetClient_partnerOf, releasePartner_partnerOf by done.
    by rewrite decide_False, decide_True by done.
  - rewrite releasePartner_registered by done. simpl.
    destruct (REQUEUE_ON_PARTNER_LEAVE cfg); read_fields.
  - rewrite releasePartner_registered by done. simpl.
    destruct (REQUEUE_ON_PARTNER_LEAVE cfg); simpl.
    + split_and!.
      * read_fields.
      * apply queueRemove_other; [done|]. apply queuePushUnique_elem. by left.
      * intros Hpq. unfold queuePushUnique. rewrite decide_False by done.
        by apply queueRemove_app_other.
    + split; [|done]. read_fields.
  - simpl. by apply releasePartner_clients.
  - intros x Hxc Hxp. rewrite releasePartner_registered by done. simpl.
    destruct (REQUEUE_ON_PARTNER_LEAVE cfg); unfold resetClient, assign; simpl;
      by rewrite !lookup_alter_ne by congruence.
Qed.

Lemma next_releases_both_sides_witness :
  handleLeave defaultConfig 0%nat (run defaultConfig matchedPair initState)
  = handleNext defaultConfig 0%nat (run defaultConfig matchedPair initState).
Proof.
  assert (partnerOf (run defaultConfig matchedPair initState) 0%nat = Some 1%nat)
    as H1 by (by vm_compute).
  assert (1%nat ∈ clients (run defaultConfig matchedPair initState))
    as H2 by (by apply (bool_decide_unpack _); vm_compute).
  assert (1%nat ≠ 0%nat) as H3 by done.
  assert (in_heap (run defaultConfig matchedPair initState) 1%nat)
    as H4 by (by apply (bool_decide_unpack _); vm_compute).
  assert (NoDup (waitingQueue (run defaultConfig matchedPair initState)))
    as H5 by (apply run_NoDup; constructor).
  exact (proj1 (next_releases_both_sides defaultConfig 0%nat 1%nat _
                  eq_refl H1 H2 H3 H4 H5)).
Defined.

(** X5.  A registered connection closes, without a store, in a state where
    the pairing invariant holds: it leaves the registry, whose other entries
    keep their order, and the waiting queue; its partner, if any, is told
    [partner-left] and unlinked; afterwards no registered connection is linked
    to it and the pairing invariant still holds.  Its own record is not
    cleared: unless it was its own partner, it still names the partner it
    had.  [index.js] does the same. *)
Theorem close_leaves_no_link_behind (cfg : Config) (c : Id) (s : State) :
  redis cfg = false → Inv s → NoDup (waitingQueue s) → c ∈ clients s →
  let s' := handleClientDisconnect cfg c s in
  IndexJs.handleClientDisconnect (REQUEUE_ON_PARTNER_LEAVE cfg) c s = s' ∧
  clients s' = filter (λ i, i ≠ c) (clients s) ∧
  (c ∉ clients s') ∧ (c ∉ waitingQueue s') ∧
  (∀ x, x ∈ clients s' → partnerOf s' x ≠ Some c) ∧
  pairing_invariant s' ∧
  match partnerOf s c with
  | Some p => sent s' = sent s ++ [(p, PartnerLeft)] ∧ partnerOf s' p = None ∧
              (p ≠ c → heap s' !! c = heap s !! c)
  | None => sent s' = sent s ∧ heap s' = heap s
  end.
Proof.
  intros Hc HI Hq Hreg. cbv zeta.
  pose proof (Inv_handleClientDisconnect cfg Hc c s HI Hreg) as HI'.
  assert (clients (handleClientDisconnect cfg c s) = filter (λ i, i ≠ c) (clients s)) as Hcl.
  { unfold handleClientDisconnect. simpl.
    destruct (partnerOf s c); [by rewrite releasePartner_clients|done]. }
  assert (c ∉ clients (handleClientDisconnect cfg c s)) as Hgone.
  { rewrite Hcl. intros [? _]%list_elem_of_filter. done. }
  split_and!; try done.
  - by rewrite (IndexJs_handleClientDisconnect cfg).
  - unfold handleClientDisconnect. simpl. apply queueRemove_gone.
    destruct (partnerOf s c); [by apply releasePartner_NoDup|done].
  - intros x Hx Hxc. by destruct (inv_sym _ HI' x c Hx Hxc).
  - destruct HI' as [_ _ ? ?]. by split.
  - destruct (partnerOf s c) as [p|] eqn:Hp;
      [|unfold handleClientDisconnect; by rewrite Hp].
    destruct (inv_sym _ HI c p Hreg Hp) as [Hpreg Hpc].
    unfold handleClientDisconnect. rewrite Hp.
    rewrite releasePartner_registered by done. simpl.
    destruct (REQUEUE_ON_PARTNER_LEAVE cfg); simpl; split_and!; try done;
      try (intros Hne; unfold assign; simpl; by rewrite !lookup_alter_ne by done);
      read_fields.
Qed.

Lemma close_leaves_no_link_behind_witness :
  0%nat ∉ clients (handleClientDisconnect defaultConfig 0%nat
                     (run defaultConfig matchedPair initState)).
Proof.
  assert (liveRun defaultConfig matchedPair initState) as Hl
    by (by apply (bool_decide_unpack _); vm_compute).
  assert (Inv (run defaultConfig matchedPair initState)) as H1
    by exact (Inv_run defaultConfig eq_refl matchedPair initState Inv_init Hl).
  assert (NoDup (waitingQueue (run defaultConfig matchedPair initState)))
    as H2 by (apply run_NoDup; constructor).
  assert (0%nat ∈ clients (run defaultConfig matchedPair initState))
    as H3 by (by apply (bool_decide_unpack _); vm_compute).
  exact (proj1 (proj2 (proj2
           (close_leaves_no_link_behind defaultConfig 0%nat _ eq_refl H1 H2 H3)))).
Defined.

Lemma filter_twice {A} (P : A → Prop) `{∀ x, Decision (P x)} (l : list A) :
  filter P (filter P l) = filter P l.
Proof.
  induction l as [|x l IH]; [done|]. rewrite filter_cons.
  destruct (decide (P x)); [|done]. rewrite filter_cons, decide_True by done.
  by rewrite IH.
Qed.

(** X6.  The socket's [error] and [close] handlers both run the teardown.
    When the connection has no partner on record the second run changes
    nothing, in any configuration; this is the case in particular after the
    connection has sent [leave] or [next], which clear its own link. *)
Theorem second_teardown_of_unpaired_is_noop (cfg : Config) (c : Id) (s : State) :
  NoDup (waitingQueue s) →
  (partnerOf s c = None →
   handleClientDisconnect cfg c (handleClientDisconnect cfg c s)
   = handleClientDisconnect cfg c s) ∧
  (let s1 := handleLeave cfg c s in
   handleClientDisconnect cfg c (handleClientDisconnect cfg c s1)
   = handleClientDisconnect cfg c s1) ∧
  (let s1 := handleNext cfg c s in
   is_Some (partnerOf s c) →
   handleClientDisconnect cfg c (handleClientDisconnect cfg c s1)
   = handleClientDisconnect cfg c s1).
Proof.
  intros Hq.
  assert (∀ t, NoDup (waitingQueue t) → partnerOf t c = None →
            handleClientDisconnect cfg c (handleClientDisconnect cfg c t)
            = handleClientDisconnect cfg c t) as Hmain.
  { intros t Hqt Hp.
    assert (handleClientDisconnect cfg c t
            = set_clients (filter (λ i, i ≠ c)) (set_waitingQueue (queueRemove c) t))
      as -> by (unfold handleClientDisconnect; by rewrite Hp).
    unfold handleClientDisconnect.
    assert (partnerOf (set_clients (filter (λ i, i ≠ c))
                         (set_waitingQueue (queueRemove c) t)) c = None) as ->
      by done.
    unfold set_clients, set_waitingQueue. simpl. f_equal.
    - apply filter_twice.
    - apply queueRemove_absent. by apply queueRemove_gone. }
  split_and!.
  - by apply Hmain.
  - cbv zeta. apply Hmain.
    + unfold handleLeave. simpl. apply queueRemove_NoDup.
      destruct (partnerOf s c); [by apply releasePartner_NoDup|done].
    + unfold handleLeave. rewrite resetClient_partnerOf. by rewrite decide_True.
  - cbv zeta. intros [p Hp]. apply Hmain.
    + unfold handleNext. rewrite Hp. simpl.
      by apply queueRemove_NoDup, releasePartner_NoDup.
    + unfold handleNext. rewrite Hp, resetClient_partnerOf. by rewrite decide_True.
Qed.

Lemma second_teardown_of_unpaired_is_noop_witness :
  handleClientDisconnect defaultConfig 0%nat
    (handleClientDisconnect defaultConfig 0%nat (run defaultConfig oneWaiting initState))
  = handleClientDisconnect defaultConfig 0%nat (run defaultConfig oneWaiting initState).
Proof.
  assert (NoDup (waitingQueue (run defaultConfig oneWaiting initState)))
    as H1 by (apply run_NoDup; constructor).
  assert (partnerOf (run defaultConfig oneWaiting initState) 0%nat = None)
    as H2 by (by vm_compute).
  exact (proj1 (second_teardown_of_unpaired_is_noop defaultConfig 0%nat _ H1) H2).
Defined.

(** ** Matchmaking through the store *)

Lemma tryMatchGlobal_tail cfg c p l s :
  redis cfg = true → faults s = [] → redisList s = l ++ [p] → p ≠ c →
  tryMatchGlobal cfg c s = Ok (Some p) (set_redisList (λ _, l) s).
Proof.
  intros Hc Hf Hl Hp. unfold tryMatchGlobal. rewrite Hc. cbn [negb tryMatchGlobal_loop].
  rewrite rpop_ok by done. rewrite Hl, last_snoc. rewrite decide_True by done.
  unfold set_redisList. by rewrite Hl, removelast_last.
Qed.

Lemma tryMatchGlobal_loop_conserves n c s :
  faults s = [] →
  ∃ r s', tryMatchGlobal_loop n c s = Ok r s' ∧
          faults s' = [] ∧ local_eq s s' ∧ published s' = published s ∧
          match r with
          | Some p => p ≠ c ∧ redisList s ≡ₚ redisList s' ++ [p]
          | None => redisList s' ≡ₚ redisList s
          end.
Proof.
  revert s. induction n as [|n IH]; intros s Hf; simpl.
  - exists None, s. split_and!; try done; apply local_eq_refl.
  - rewrite rpop_ok by done.
    destruct (last (redisList s)) as [q|] eqn:Hlast.
    + apply last_Some in Hlast as [l Hl].
      destruct (decide (q ≠ c)) as [Hq|Hq].
      * eexists _, _. split_and!; [reflexivity|done|by repeat split|done|].
        simpl. split; [done|]. by rewrite Hl, removelast_last.
      * apply dec_stable in Hq as ->. rewrite lpush_ok by done.
        match goal with |- context [tryMatchGlobal_loop n c ?t] =>
          destruct (IH t) as (r & s' & -> & Hf' & Hloc & Hpub & Hr); [done|] end.
        exists r, s'. split_and!; try done.
        simpl in Hr. rewrite Hl, removelast_last in Hr.
        destruct r as [p|].
        -- destruct Hr as [? Hr]. split; [done|]. rewrite <- Hr, Hl.
           apply Permutation_app_comm.
        -- rewrite Hr, Hl. apply (Permutation_app_comm [c] l).
    + apply last_None in Hlast. eexists _, _.
      split_and!; [reflexivity|done|by repeat split|done|]. simpl. by rewrite Hlast.
Qed.

(** X7.  When the store answers every call, [tryMatchGlobal] never fails and
    never loses an id: own ids popped on the way are pushed back, so the list
    afterwards holds what it held before, less the partner returned.  The
    partner is never the caller; it is the tail of the list whenever the tail
    is not the caller's own id; and nothing is returned from an empty list.
    The process's own state is not touched. *)
Theorem store_scan_conserves_ids (cfg : Config) (c : Id) (s : State) :
  redis cfg = true → faults s = [] →
  ∃ r s', tryMatchGlobal cfg c s = Ok r s' ∧ local_eq s s' ∧
          match r with
          | Some p => p ≠ c ∧ redisList s ≡ₚ redisList s' ++ [p]
          | None => redisList s' ≡ₚ redisList s
          end ∧
          (∀ l p, redisList s = l ++ [p] → p ≠ c → r = Some p ∧ redisList s' = l) ∧
          (redisList s = [] → r = None).
Proof.
  intros Hc Hf.
  destruct (tryMatchGlobal_loop_conserves 5 c s Hf) as (r & s' & E & _ & Hloc & _ & Hr).
  assert (tryMatchGlobal cfg c s = Ok r s') as E'
    by (unfold tryMatchGlobal; by rewrite Hc).
  exists r, s'. split_and!; try done.
  - intros l p Hl Hp. rewrite (tryMatchGlobal_tail cfg c p l s) in E' by done.
    by injection E' as <- <-.
  - intros Hl. rewrite (tryMatchGlobal_empty cfg c s) in E' by done.
    by injection E' as <- _.
Qed.

Lemma store_scan_conserves_ids_witness :
  ∃ r s', tryMatchGlobal storeConfig 1%nat
            (run storeConfig [EConnect; available 0%nat] initState) = Ok r s'.
Proof.
  assert (faults (run storeConfig [EConnect; available 0%nat] initState) = [])
    as H by (by vm_compute).
  destruct (store_scan_conserves_ids storeConfig 1%nat _ eq_refl H)
    as (r & s' & E & _).
  by exists r, s'.
Defined.

(** X8.  When the store rejects the first call of an [available] declaration,
    the declaration is served from the process's own registry and queue,
    exactly as [index.js] serves it. *)
Theorem store_failure_falls_back_to_local (cfg : Config) (c : Id) (fs : list bool)
    (s : State) :
  redis cfg = true → faults s = true :: fs → partnerOf s c = None →
  handleAvailable cfg c s = IndexJs.handleAvailable c (set_faults (λ _, fs) s).
Proof.
  intros Hc Hf Hp. unfold handleAvailable, IndexJs.handleAvailable.
  assert (partnerOf (set_faults (λ _, fs) s) c = None) as -> by done.
  rewrite Hp, Hc. rewrite bool_decide_eq_false_2 by (by intros [? ?]).
  unfold matchGlobally, tryMatchGlobal. rewrite Hc. cbn [negb tryMatchGlobal_loop].
  unfold rpop, nextFault. simpl. rewrite Hf. reflexivity.
Qed.

Lemma store_failure_falls_back_to_local_witness :
  handleAvailable storeConfig 0%nat
    (run storeConfig [EConnect; EStore [true]] initState)
  = IndexJs.handleAvailable 0%nat
      (set_faults (λ _, []) (run storeConfig [EConnect; EStore [true]] initState)).
Proof.
  assert (faults (run storeConfig [EConnect; EStore [true]] initState) = [true])
    as H1 by (by vm_compute).
  assert (partnerOf (run storeConfig [EConnect; EStore [true]] initState) 0%nat = None)
    as H2 by (by vm_compute).
  exact (store_failure_falls_back_to_local storeConfig 0%nat [] _ eq_refl H1 H2).
Defined.

(** X9.  With a store that answers, an unpaired connection that declares
    itself available is paired with the id at the tail of the store's list
    whenever that id is another connection registered here, whatever that
    connection's own state: the pair is formed by [createRoom] and the id
    leaves the list.  No availability or partner test is applied to it. *)
Theorem store_pairs_with_registered_tail (cfg : Config) (c p : Id) (l : list Id)
    (s : State) :
  redis cfg = true → faults s = [] → redisList s = l ++ [p] →
  p ≠ c → p ∈ clients s → partnerOf s c = None →
  handleAvailable cfg c s
  = createRoom c p (set_redisList (λ _, l) (assign c (with_isAvailable true) s)).
Proof.
  intros Hc Hf Hl Hpc Hreg Hp. unfold handleAvailable.
  rewrite Hp, Hc. rewrite bool_decide_eq_false_2 by (by intros [? ?]).
  unfold matchGlobally.
  rewrite (tryMatchGlobal_tail cfg c p l) by done.
  by rewrite clients_get_Some by done.
Qed.

Lemma store_pairs_with_registered_tail_witness :
  handleAvailable storeConfig 2%nat
    (run storeConfig (removelast twiceAvailable) initState)
  = createRoom 2%nat 0%nat
      (set_redisList (λ _, [])
         (assign 2%nat (with_isAvailable true)
            (run storeConfig (removelast twiceAvailable) initState))).
Proof.
  assert (faults (run storeConfig (removelast twiceAvailable) initState) = [])
    as H1 by (by vm_compute).
  assert (redisList (run storeConfig (removelast twiceAvailable) initState)
          = [] ++ [0%nat]) as H2 by (by vm_compute).
  assert (0%nat ≠ 2%nat) as H3 by done.
  assert (0%nat ∈ clients (run storeConfig (removelast twiceAvailable) initState))
    as H4 by (by apply (bool_decide_unpack _); vm_compute).
  assert (partnerOf (run storeConfig (removelast twiceAvailable) initState) 2%nat
          = None) as H5 by (by vm_compute).
  exact (store_pairs_with_registered_tail storeConfig 2%nat 0%nat [] _
           eq_refl H1 H2 H3 H4 H5).
Defined.

(** X10.  The same declaration when the id at the tail of the store's list is
    not registered here: the caller alone is linked, to that id and under a
    newly drawn room id, its available flag is cleared and it is handed
    [matched]; a [matched] naming the caller is published for the other id.
    The list loses the id, the in-memory queue and every other record are as
    before.  No record of the other side is touched by this process. *)
Theorem store_pairs_with_remote_tail (cfg : Config) (c p : Id) (l : list Id)
    (s : State) :
  redis cfg = true → faults s = [] → redisList s = l ++ [p] →
  p ≠ c → p ∉ clients s → partnerOf s c = None → in_heap s c →
  let s' := handleAvailable cfg c s in
  partnerOf s' c = Some p ∧ roomOf s' c = Some (uuid s) ∧
  availableOf s' c = false ∧
  sent s' = sent s ++ [(c, Matched (uuid s) p)] ∧
  published s' = published s ++ [(p, Matched (uuid s) c)] ∧
  redisList s' = l ∧ waitingQueue s' = waitingQueue s ∧
  clients s' = clients s ∧ uuid s' = S (uuid s) ∧
  (∀ x, x ≠ c → heap s' !! x = heap s !! x).
Proof.
  intros Hc Hf Hl Hpc Hreg Hp Hh. cbv zeta.
  assert (handleAvailable cfg c s =
          res_state (publishSignal cfg p (Matched (uuid s) c)
            (sendToClient c (Matched (uuid s) p)
              (assign c (with_isAvailable false)
                (assign c (with_roomId (Some (uuid s)))
                  (assign c (with_partnerId (Some p))
                    (randomUUID (set_redisList (λ _, l)
                       (assign c (with_isAvailable true) s))).2)))))) as ->.
  { unfold handleAvailable.
    rewrite Hp, Hc. rewrite bool_decide_eq_false_2 by (by intros [? ?]).
    unfold matchGlobally. rewrite (tryMatchGlobal_tail cfg c p l) by done.
    rewrite clients_get_None by done. simpl.
    unfold publishSignal, nextFault. rewrite Hc. simpl. by rewrite Hf. }
  unfold publishSignal, nextFault. rewrite Hc. simpl. rewrite Hf. simpl.
  split_and!; try done; [read_fields..|].
  intros x Hx. by rewrite !lookup_alter_ne by done.
Qed.

Lemma store_pairs_with_remote_tail_witness :
  partnerOf (handleAvailable storeConfig 1%nat
               (run storeConfig (removelast staleStoreEntry) initState)) 1%nat
  = Some 0%nat.
Proof.
  assert (faults (run storeConfig (removelast staleStoreEntry) initState) = [])
    as H1 by (by vm_compute).
  assert (redisList (run storeConfig (removelast staleStoreEntry) initState)
          = [] ++ [0%nat]) as H2 by (by vm_compute).
  assert (0%nat ≠ 1%nat) as H3 by done.
  assert (0%nat ∉ clients (run storeConfig (removelast staleStoreEntry) initState))
    as H4 by (by apply (bool_decide_unpack _); vm_compute).
  assert (partnerOf (run storeConfig (removelast staleStoreEntry) initState) 1%nat
          = None) as H5 by (by vm_compute).
  assert (in_heap (run storeConfig (removelast staleStoreEntry) initState) 1%nat)
    as H6 by (by apply (bool_decide_unpack _); vm_compute).
  exact (proj1 (store_pairs_with_remote_tail storeConfig 1%nat 0%nat [] _
                  eq_refl H1 H2 H3 H4 H5 H6)).
Defined.

(** X11.  A declaration that finds the store's list empty.  The handler
    raises the flag and calls [rpop]; the pop that finds the list empty
    changes nothing and leads to the push; the push puts the caller's id at
    the head of the list as it stands then, with no look at what it holds.
    Left alone from a state with an empty list, the declaration ends with the
    caller's id as the only entry, nothing handed out or published and the
    in-memory queue unused.  When a second unpaired connection declares
    itself available before the first pop has been answered, both pops find
    the list empty, both ids end up on the list, and nobody is paired. *)
Theorem store_enqueues_when_empty (cfg : Config) (c d : Id) (s : State) :
  redis cfg = true → faults s = [] → redisList s = [] →
  partnerOf s c = None →
  handleAvailable_begin cfg c s
    = (assign c (with_isAvailable true) s, Some (AwaitPop c 0)) ∧
  (∀ t i, faults t = [] → redisList t = [] →
     handleAvailable_resume cfg (AwaitPop c i) t = (t, Some (AwaitEnqueue c))) ∧
  (∀ t, faults t = [] →
     handleAvailable_resume cfg (AwaitEnqueue c) t
     = (set_redisList (λ l, c :: l) t, None)) ∧
  (∀ k, (2 ≤ k)%nat →
     ticks cfg (Announce c :: replicate k Settle) (s, [])
     = (set_redisList (λ _, [c]) (assign c (with_isAvailable true) s), [])) ∧
  (partnerOf s d = None → d ≠ c →
     ticks cfg [Announce c; Announce d; Settle; Settle; Settle; Settle] (s, [])
     = (set_redisList (λ _, [d; c])
          (assign d (with_isAvailable true) (assign c (with_isAvailable true) s)),
        [])).
Proof.
  intros Hc Hf Hl Hp.
  assert (∀ x t, partnerOf t x = None →
            handleAvailable_begin cfg x t
            = (assign x (with_isAvailable true) t, Some (AwaitPop x 0))) as Hbegin.
  { intros x t Hx. unfold handleAvailable_begin.
    rewrite Hx, Hc. by rewrite bool_decide_eq_false_2 by (by intros [? ?]). }
  assert (∀ x t i, faults t = [] → redisList t = [] →
            handleAvailable_resume cfg (AwaitPop x i) t
            = (t, Some (AwaitEnqueue x))) as Hpop.
  { intros x t i Hft Hlt. cbn [handleAvailable_resume].
    rewrite rpop_ok by done. rewrite Hlt. cbn [last].
    rewrite set_redisList_same; [done|]. by rewrite Hlt. }
  assert (∀ x t, faults t = [] →
            handleAvailable_resume cfg (AwaitEnqueue x) t
            = (set_redisList (λ l, x :: l) t, None)) as Hpush.
  { intros x t Hft. cbn [handleAvailable_resume]. by rewrite lpush_ok. }
  split_and!; [by apply Hbegin|by apply Hpop|by apply Hpush| |].
  - intros k Hk. do 2 (destruct k as [|k]; [lia|]). simpl replicate.
    rewrite !ticks_cons. unfold tick at 3. cbn [fst snd]. rewrite Hbegin by done.
    cbn [option_list option_rect app]. rewrite tick_settle, Hpop by done.
    cbn [fst snd option_list option_rect app]. rewrite tick_settle, Hpush by done.
    cbn [fst snd option_list option_rect app]. rewrite ticks_idle.
    f_equal. unfold set_redisList; simpl. by rewrite Hl.
  - intros Hd Hne. unfold ticks. cbn [foldl]. unfold tick at 6. cbn [fst snd].
    rewrite Hbegin by done. cbn [option_list option_rect app].
    unfold tick at 5. cbn [fst snd]. rewrite Hbegin
      by (rewrite partnerOf_assign; by rewrite decide_False).
    cbn [option_list option_rect app].
    rewrite tick_settle, Hpop by done. cbn [fst snd option_list option_rect app].
    rewrite tick_settle, Hpop by done. cbn [fst snd option_list option_rect app].
    rewrite tick_settle, Hpush by done. cbn [fst snd option_list option_rect app].
    rewrite tick_settle, Hpush by done. cbn [fst snd option_list option_rect app].
    f_equal. unfold set_redisList; simpl. by rewrite Hl.
Qed.

Lemma store_enqueues_when_empty_witness :
  ticks storeConfig [Announce 0%nat; Announce 1%nat; Settle; Settle; Settle; Settle]
    (run storeConfig twoIdle initState, [])
  = (set_redisList (λ _, [1; 0]%nat)
       (assign 1%nat (with_isAvailable true)
          (assign 0%nat (with_isAvailable true) (run storeConfig twoIdle initState))),
     []).
Proof.
  assert (faults (run storeConfig twoIdle initState) = []) as H1 by (by vm_compute).
  assert (redisList (run storeConfig twoIdle initState) = []) as H2
    by (by vm_compute).
  assert (partnerOf (run storeConfig twoIdle initState) 0%nat = None) as H3
    by (by vm_compute).
  assert (partnerOf (run storeConfig twoIdle initState) 1%nat = None) as H5
    by (by vm_compute).
  assert (1%nat ≠ 0%nat) as H6 by lia.
  exact (proj2 (proj2 (proj2 (proj2
    (store_enqueues_when_empty storeConfig 0%nat 1%nat _ eq_refl H1 H2 H3))))
    H5 H6).
Defined.

(** X29.  The asynchronous handler and its one-piece reading agree when the
    handler is left alone: a declaration followed by the store's replies to
    its own calls, at most eleven of them, and by nothing else, leaves the
    state [handleAvailable] computes and no handler waiting, in every
    configuration and whether the store answers or rejects. *)
Theorem declaration_left_alone (cfg : Config) (c : Id) (s : State) (k : nat) :
  (11 ≤ k)%nat →
  ticks cfg (Announce c :: replicate k Settle) (s, []) = (handleAvailable cfg c s, []).
Proof.
  intros Hk. rewrite ticks_cons. unfold tick, handleAvailable_begin, handleAvailable.
  cbn [fst snd]. case_bool_decide; cbn [option_list option_rect app];
    [by rewrite ticks_idle|].
  destruct (redis cfg) eqn:Hc; cbn [option_list option_rect app];
    [|by rewrite ticks_idle].
  rewrite (ticks_alone_pop cfg c 5 0) by lia.
  rewrite matchGlobally_afterScan. unfold tryMatchGlobal. rewrite Hc. cbn [negb].
  by destruct (afterScan cfg c _).
Qed.

Lemma declaration_left_alone_witness :
  ticks storeConfig (Announce 0%nat :: replicate 11 Settle)
    (run storeConfig oneWaiting initState, [])
  = (handleAvailable storeConfig 0%nat (run storeConfig oneWaiting initState), []).
Proof.
  assert (11 ≤ 11)%nat as H by lia.
  exact (declaration_left_alone storeConfig 0%nat
           (run storeConfig oneWaiting initState) 11 H).
Defined.

(** ** The bus subscriber *)

Lemma viewOf_send y m s x :
  viewOf (sendToClient y m s) x
  = if decide (y = x) then handleSignalingMessage m (viewOf s x) else viewOf s x.
Proof.
  unfold viewOf. rewrite msgsTo_send. destruct (decide (y = x)); [|done].
  by rewrite foldl_app.
Qed.

(** X12.  An envelope from the bus is handed to the connection it names when
    that connection is registered here, and dropped otherwise; nothing else
    changes either way.  So the envelope a process publishes for a partner it
    does not hold has no effect when the process's own subscriber receives
    it. *)
Theorem bus_envelope_reaches_registered_target_only (cfg : Config) (t : Id)
    (m : ServerMsg) (s : State) :
  (t ∈ clients s → onSignal (Some (t, m)) s = onlySent t m s) ∧
  (t ∉ clients s →
     onSignal (Some (t, m)) s = s ∧
     (redis cfg = true → faults s = [] →
      let s' := relayToPartner cfg t m s in
      last (published s') = Some (t, m) ∧ onSignal (last (published s')) s' = s')).
Proof.
  split.
  - intros H. unfold onSignal. by rewrite clients_get_Some.
  - intros H. split; [unfold onSignal; by rewrite clients_get_None|].
    intros Hc Hf. cbv zeta. unfold relayToPartner, publishSignal, nextFault.
    rewrite clients_get_None, Hc, Hf by done. simpl. rewrite last_snoc.
    split; [done|]. unfold onSignal. by rewrite clients_get_None.
Qed.

Lemma bus_envelope_reaches_registered_target_only_witness :
  onSignal (Some (0%nat, PartnerLeft)) (run storeConfig staleStoreEntry initState)
  = run storeConfig staleStoreEntry initState.
Proof.
  assert (0%nat ∉ clients (run storeConfig staleStoreEntry initState))
    as H by (by apply (bool_decide_unpack _); vm_compute).
  exact (proj1 (proj2 (bus_envelope_reaches_registered_target_only storeConfig
                         0%nat PartnerLeft _) H)).
Defined.

(** X13.  A [matched] that arrives over the bus is handed to the registered
    connection it names, whose front end then holds the partner and room it
    announces; but the connection's record is not changed.  A connection that
    had no partner on record still has none, and its [offer], [answer] and
    [ice] are refused with NOT_PAIRED. *)
Theorem bus_match_is_not_recorded (cfg : Config) (b a : Id) (r : RoomId)
    (s : State) :
  b ∈ clients s → partnerOf s b = None →
  let s' := onSignal (Some (b, Matched r a)) s in
  v_partnerId (viewOf s' b) = Some a ∧ v_roomId (viewOf s' b) = Some r ∧
  heap s' = heap s ∧ partnerOf s' b = None ∧
  (∀ m, isSignal m = true →
        handleMessage cfg b m s' = onlySent b (Error NOT_PAIRED) s').
Proof.
  intros Hreg Hp. cbv zeta.
  assert (onSignal (Some (b, Matched r a)) s = sendToClient b (Matched r a) s) as ->
    by (unfold onSignal; by rewrite clients_get_Some).
  rewrite viewOf_send, decide_True by done. split_and!; try done.
  intros m Hm.
  destruct m; try discriminate Hm; simpl;
    unfold handleOffer, handleAnswer, handleIce;
    rewrite partnerOf_send, Hp; done.
Qed.

Lemma bus_match_is_not_recorded_witness :
  partnerOf (onSignal (Some (0%nat, Matched 7%nat 9%nat))
               (run defaultConfig oneWaiting initState)) 0%nat = None.
Proof.
  assert (0%nat ∈ clients (run defaultConfig oneWaiting initState))
    as H1 by (by apply (bool_decide_unpack _); vm_compute).
  assert (partnerOf (run defaultConfig oneWaiting initState) 0%nat = None)
    as H2 by (by vm_compute).
  exact (proj1 (proj2 (proj2 (proj2
           (bus_match_is_not_recorded defaultConfig 0%nat 9%nat 7%nat _ H1 H2))))).
Defined.

(** ** The origin gate *)

Lemma dropEmpty_no_empty entries : EmptyString ∉ dropEmpty entries.
Proof. unfold dropEmpty. intros [H _]%list_elem_of_filter. done. Qed.

(** X14.  With no allowed origin configured every connection is admitted.
    With some configured, a connection is admitted exactly when its [Origin]
    header is one of them; a request without the header, or with an empty
    one, is always refused, since empty entries are dropped from the list.  A
    refused connection gets no record and no [ready]: the state is
    unchanged. *)
Theorem origin_gate (entries : list string) (origin : option string) (s : State) :
  let allowed := dropEmpty entries in
  (allowed = [] → onConnectionFrom allowed origin s = onConnection s) ∧
  (allowed ≠ [] →
     onConnectionFrom allowed None s = s ∧
     onConnectionFrom allowed (Some EmptyString) s = s ∧
     (∀ o, o ∈ allowed → onConnectionFrom allowed (Some o) s = onConnection s) ∧
     (∀ o, o ∉ allowed → onConnectionFrom allowed (Some o) s = s)).
Proof.
  cbv zeta. pose proof (dropEmpty_no_empty entries) as He.
  unfold onConnectionFrom, originAllowed. split.
  - by intros ->.
  - intros Hne. destruct (dropEmpty entries) as [|a l] eqn:E; [done|]. simpl.
    split_and!.
    + by rewrite bool_decide_eq_false_2.
    + by rewrite bool_decide_eq_false_2.
    + intros o Ho. by rewrite bool_decide_eq_true_2.
    + intros o Ho. by rewrite bool_decide_eq_false_2.
Qed.

Lemma origin_gate_witness :
  onConnectionFrom (dropEmpty ["https://a.example"; EmptyString]) None initState
  = initState.
Proof.
  assert (dropEmpty ["https://a.example"; EmptyString] ≠ []) as H by done.
  exact (proj1 (proj2 (origin_gate ["https://a.example"; EmptyString] None
                         initState) H)).
Defined.

(** ** The heartbeat *)

Lemma heartbeatTick_terminated alive j :
  j ∈ (heartbeatTick alive).1 ↔ alive !! j = Some false.
Proof.
  unfold heartbeatTick; simpl. rewrite list_elem_of_fmap. split.
  - intros ([k b] & -> & H). apply elem_of_map_to_list in H.
    apply map_lookup_filter_Some in H as [H Hb]. simpl in *. by subst.
  - intros H. exists (j, false). split; [done|].
    apply elem_of_map_to_list, map_lookup_filter_Some. by split.
Qed.

(** X15.  Each period terminates exactly the sockets whose flag is still down
    from the period before and lowers every other flag.  Hence a socket that
    has just been set up, or has answered the ping since the last tick,
    survives the next tick; and a socket that answers nothing is terminated
    at the second tick after it was last heard, if it has not closed by
    then. *)
Theorem heartbeat_terminates_the_silent (alive : gmap Id bool) (i : Id) :
  (∀ j, j ∈ (heartbeatTick alive).1 ↔ alive !! j = Some false) ∧
  (∀ j, (heartbeatTick alive).2 !! j = (λ _, false) <$> alive !! j) ∧
  (i ∉ (heartbeatTick (setupHeartbeat i alive)).1) ∧
  (i ∉ (heartbeatTick (onPong i alive)).1) ∧
  (is_Some (alive !! i) → i ∈ (heartbeatTick (heartbeatTick alive).2).1).
Proof.
  split_and!.
  - intros j. apply heartbeatTick_terminated.
  - intros j. unfold heartbeatTick; simpl. by rewrite lookup_fmap.
  - rewrite heartbeatTick_terminated. unfold setupHeartbeat.
    by rewrite lookup_insert_eq.
  - rewrite heartbeatTick_terminated. unfold onPong. rewrite lookup_alter_eq.
    by destruct (alive !! i).
  - intros [b Hb]. rewrite heartbeatTick_terminated.
    unfold heartbeatTick; simpl. by rewrite lookup_fmap, Hb.
Qed.

Lemma heartbeat_terminates_the_silent_witness :
  3%nat ∈ (heartbeatTick (heartbeatTick (setupHeartbeat 3%nat ∅)).2).1.
Proof.
  assert (is_Some (setupHeartbeat 3%nat ∅ !! 3%nat)) as H
    by (by apply (bool_decide_unpack _); vm_compute).
  exact (proj2 (proj2 (proj2 (proj2
           (heartbeat_terminates_the_silent (setupHeartbeat 3%nat ∅) 3%nat)))) H).
Defined.

(** ** Records and front ends, in every run *)

(** X16.  In every configuration and after any sequence of connections,
    messages, closes, socket errors and store changes, no client object names
    itself as its partner: [createRoom] is only ever called with two different
    objects, and the remote branch of [handleAvailable] only with an id other
    than the caller's. *)
Theorem never_own_partner (cfg : Config) (es : list Event) (c : Id) :
  partnerOf (run cfg es initState) c ≠ Some c.
Proof.
  pose proof (run_snapOk cfg es c) as H. unfold partnerOf.
  destruct (heap (run cfg es initState) !! c) as [cl|] eqn:E; [|done].
  by destruct (H cl E) as (? & _).
Qed.

(** X17.  In every configuration and after any sequence of events, a client
    object has a [roomId] exactly when it has a [partnerId]: the handlers set
    the two fields together and clear them together. *)
Theorem room_exactly_when_partnered (cfg : Config) (es : list Event) (c : Id) :
  is_Some (roomOf (run cfg es initState) c)
  ↔ is_Some (partnerOf (run cfg es initState) c).
Proof.
  pose proof (run_snapOk cfg es c) as H. unfold roomOf, partnerOf.
  destruct (heap (run cfg es initState) !! c) as [cl|] eqn:E; simpl.
  - by destruct (H cl E) as (_ & ? & _).
  - split; by intros [? ?].
Qed.

(** X18.  In every configuration and after any sequence of events handled by
    this process (bus deliveries apart), a front end that has handled every
    message sent to its connection holds, as its own id, the id under which
    the server keeps its object: [ready] is sent on connection only, and
    carries that id. *)
Theorem front_end_knows_its_id (cfg : Config) (es : list Event) (c : Id) :
  in_heap (run cfg es initState) c →
  v_clientId (viewOf (run cfg es initState) c) = Some c.
Proof.
  intros [cl E]. pose proof (run_snapOk cfg es c) as H.
  by destruct (H cl E) as (_ & _ & _ & ? & _).
Qed.

Lemma front_end_knows_its_id_witness :
  v_clientId (viewOf (run defaultConfig matchedPair initState) 1%nat) = Some 1%nat.
Proof.
  assert (in_heap (run defaultConfig matchedPair initState) 1%nat) as H
    by (by vm_compute; eexists).
  exact (front_end_knows_its_id defaultConfig matchedPair 1%nat H).
Defined.

Lemma frontView_handler_only fe :
  clearedItself fe = false →
  let v := foldl (λ v m, handleSignalingMessage m v) (mkView None None None)
             (received fe) in
  v_partnerId (frontView fe) = v_partnerId v ∧ v_roomId (frontView fe) = v_roomId v.
Proof.
  cbv zeta. unfold frontView, received, clearedItself.
  induction fe as [|e fe IH] using rev_ind; [done|].
  rewrite !foldl_app, omap_app, foldl_app. simpl.
  destruct e as [m| | |]; simpl; try done.
  destruct m; simpl; try done.
Qed.

(** X19.  In every configuration and after any sequence of events handled by
    this process (bus deliveries apart): take a front end that has received
    exactly the messages sent to its connection and has not cleared partner
    and room itself since the last [matched] or [partner-left] it handled.
    Whenever the server's record of the connection has a partner, that front
    end holds the same partner and the same room.  The condition is needed:
    [requestNextPartner] clears the front end's partner before [next] is
    sent, and a [next] that the limiter refuses leaves the record paired, so
    the two differ once the refusal has been handled. *)
Theorem front_end_agrees_when_paired (cfg : Config) (es : list Event) (c p : Id)
    (fe : list FrontEvent) :
  partnerOf (run cfg es initState) c = Some p →
  received fe = msgsTo (run cfg es initState) c →
  (clearedItself fe = false →
   v_partnerId (frontView fe) = Some p ∧
   v_roomId (frontView fe) = roomOf (run cfg es initState) c) ∧
  (∀ now, (rateLimitOK cfg now c (run cfg es initState)).1 = false →
     let s' := step cfg (EMessage now c (Parsed CNext)) (run cfg es initState) in
     let fe' := fe ++ [RequestNextPartner; Received (Error RATE_LIMIT)] in
     frontSends RequestNextPartner = Some CNext ∧
     received fe' = msgsTo s' c ∧
     partnerOf s' c = Some p ∧ v_partnerId (frontView fe') = None).
Proof.
  intros Hp Hrec. split.
  - intros Hclr. destruct (frontView_handler_only fe Hclr) as [-> ->].
    rewrite Hrec. pose proof (run_snapOk cfg es c) as H.
    unfold partnerOf, roomOf in *.
    destruct (heap (run cfg es initState) !! c) as [cl|] eqn:E; [|done].
    simpl in Hp. destruct (H cl E) as (_ & _ & _ & _ & Hv).
    destruct Hv as [Hv1 Hv2]; [by rewrite Hp|]. simpl in *. by rewrite <- Hp.
  - intros now Hno. cbv zeta. cbv beta iota delta [step]. unfold onMessage.
    destruct (rateLimitOK cfg now c (run cfg es initState)) as [ok s1] eqn:E.
    simpl in Hno. subst ok. cbn [negb].
    assert (sent s1 = sent (run cfg es initState) ∧
            partnerOf s1 c = partnerOf (run cfg es initState) c) as [Hs Hp1].
    { unfold rateLimitOK in E.
      destruct (heap (run cfg es initState) !! c) as [cl|] eqn:Hcl;
        [|by injection E as <-].
      destruct (_ >? _); injection E as _ <-; (split; [done|]);
        rewrite partnerOf_assign, decide_True by done;
        unfold partnerOf; by rewrite Hcl. }
    split_and!; [done| | |].
    + unfold received. rewrite omap_app. fold (received fe). rewrite Hrec.
      rewrite msgsTo_send, decide_True by done. unfold msgsTo. by rewrite Hs.
    + by rewrite partnerOf_send, Hp1.
    + unfold frontView. by rewrite foldl_app.
Qed.

Lemma front_end_agrees_when_paired_witness :
  v_partnerId (frontView [Received (Ready 1%nat); SignalAvailable;
                          Received (Matched 2%nat 0%nat)]) = Some 0%nat.
Proof.
  assert (partnerOf (run storeConfig staleStoreEntry initState) 1%nat = Some 0%nat)
    as H by (by vm_compute).
  assert (received [Received (Ready 1%nat); SignalAvailable;
                    Received (Matched 2%nat 0%nat)]
          = msgsTo (run storeConfig staleStoreEntry initState) 1%nat) as H1
    by (by vm_compute).
  exact (proj1 (proj1 (front_end_agrees_when_paired storeConfig staleStoreEntry
                         1%nat 0%nat _ H H1) eq_refl)).
Defined.

(** X20.  In every configuration and after any sequence of events, a client
    object that has a partner is not flagged available: pairing lowers the
    flag, and [handleAvailable] refuses before raising it. *)
Theorem paired_is_not_available (cfg : Config) (es : list Event) (c : Id) :
  is_Some (partnerOf (run cfg es initState) c) →
  availableOf (run cfg es initState) c = false.
Proof.
  pose proof (run_snapOk cfg es c) as H. unfold partnerOf, availableOf.
  destruct (heap (run cfg es initState) !! c) as [cl|] eqn:E; [|done].
  simpl. by destruct (H cl E) as (_ & _ & ? & _).
Qed.

Lemma paired_is_not_available_witness :
  availableOf (run defaultConfig matchedPair initState) 0%nat = false.
Proof.
  assert (is_Some (partnerOf (run defaultConfig matchedPair initState) 0%nat)) as H
    by (by vm_compute; eexists).
  exact (paired_is_not_available defaultConfig matchedPair 0%nat H).
Defined.

(** ** The in-memory queue, without a store *)

Lemma queueRemove_elem x q y : NoDup q → y ∈ queueRemove x q ↔ y ∈ q ∧ y ≠ x.
Proof.
  intros Hq. split.
  - intros Hy. split; [by apply (queueRemove_subseteq x)|].
    intros ->. by apply (queueRemove_gone x q).
  - intros [Hy Hne]. by apply queueRemove_other.
Qed.

Lemma queueExact_obs s s' :
  clients s' = clients s → waitingQueue s' = waitingQueue s →
  (∀ x, partnerOf s' x = partnerOf s x) →
  (∀ x, availableOf s' x = availableOf s x) →
  queueExact s → queueExact s'.
Proof.
  intros Hc Hq Hp Ha H x. rewrite Hc, Hq, Hp, Ha. apply H.
Qed.

Lemma queueExact_send c m s : queueExact s → queueExact (sendToClient c m s).
Proof. by apply queueExact_obs. Qed.

Lemma queueExact_assign_neutral c f s :
  (∀ cl, partnerId (f cl) = partnerId cl) →
  (∀ cl, isAvailable (f cl) = isAvailable cl) →
  queueExact s → queueExact (assign c f s).
Proof.
  intros Hp Ha. apply queueExact_obs; try done.
  - intros x. rewrite partnerOf_assign. case_decide; [subst|done].
    unfold partnerOf. destruct (heap s !! x); simpl; by rewrite ?Hp.
  - intros x. rewrite availableOf_assign. case_decide; [subst|done].
    unfold availableOf. destruct (heap s !! x); simpl; by rewrite ?Ha.
Qed.

Lemma queueExact_resetClient c s :
  NoDup (waitingQueue s) → queueExact s → queueExact (resetClient c s).
Proof.
  intros Hq H x. rewrite resetClient_partnerOf, resetClient_availableOf.
  unfold resetClient; simpl. rewrite queueRemove_elem by done.
  destruct (decide (x = c)) as [->|Hne].
  - split; [by intros [_ ?]|by intros (_ & ? & _)].
  - rewrite (H x). tauto.
Qed.

Lemma queueExact_unregister c s :
  NoDup (waitingQueue s) → queueExact s →
  queueExact (set_clients (filter (λ i, i ≠ c)) (set_waitingQueue (queueRemove c) s)).
Proof.
  intros Hq H x. autorewrite with obs. simpl.
  rewrite queueRemove_elem by done. rewrite list_elem_of_filter, (H x). tauto.
Qed.

Section QueueWithoutStore.
Variable cfg : Config.
Hypothesis no_store : redis cfg = false.

Lemma releasePartner_queue p s :
  p ∈ clients s →
  waitingQueue (releasePartner cfg p s)
  = if REQUEUE_ON_PARTNER_LEAVE cfg then queuePushUnique p (waitingQueue s)
    else waitingQueue s.
Proof.
  intros Hp. rewrite releasePartner_registered by done. simpl.
  by destruct (REQUEUE_ON_PARTNER_LEAVE cfg).
Qed.

Lemma queueExact_releasePartner p s :
  Inv s → p ∈ clients s → is_Some (partnerOf s p) →
  queueExact s → queueExact (releasePartner cfg p s).
Proof.
  intros HI Hp Hpp H x.
  rewrite releasePartner_clients, releasePartner_queue by done.
  rewrite releasePartner_partnerOf by done.
  rewrite releasePartner_availableOf by (done || by apply (inv_heap _ HI)).
  assert (availableOf s p = false) as Hap.
  { destruct (availableOf s p) eqn:E; [|done]. by destruct (inv_excl _ HI p Hp). }
  assert (p ∉ waitingQueue s) as Hpq.
  { intros (_ & _ & Hn)%H. rewrite Hn in Hpp. by destruct Hpp. }
  destruct (REQUEUE_ON_PARTNER_LEAVE cfg).
  - rewrite queuePushUnique_elem. destruct (decide (x = p)) as [->|Hne].
    + split; [done|by left].
    + rewrite (H x). split; [by intros [?|?]|by right].
  - destruct (decide (x = p)) as [->|Hne]; [|apply H].
    split; [done|]. rewrite Hap. by intros (_ & ? & _).
Qed.

Lemma queueExact_handleAvailable c s :
  Inv s → NoDup (waitingQueue s) → c ∈ clients s →
  queueExact s → queueExact (handleAvailable cfg c s).
Proof.
  intros HI Hq Hc H. unfold handleAvailable.
  case_bool_decide as Hp; [by apply queueExact_send|].
  assert (partnerOf s c = None) as Hpc.
  { destruct (partnerOf s c); [destruct Hp; eauto|done]. }
  rewrite no_store. clear Hp.
  destruct (inv_heap _ HI c Hc) as [cl Hcl].
  set (s1 := assign c (with_isAvailable true) s).
  assert (∀ x, partnerOf s1 x = partnerOf s x) as Hp1.
  { intros x. unfold s1. rewrite partnerOf_assign. case_decide; [subst|done].
    unfold partnerOf. by rewrite Hcl. }
  assert (∀ x, availableOf s1 x = if decide (x = c) then true else availableOf s x)
    as Ha1.
  { intros x. unfold s1. rewrite availableOf_assign.
    repeat case_decide; subst; try done. by rewrite Hcl. }
  unfold matchLocally. destruct (findAvailablePartner c s1) as [p|] eqn:E.
  - apply findAvailablePartner_Some in E as (Hpin & Hne & _ & _).
    intros x. rewrite createRoom_queue, createRoom_clients, createRoom_availableOf.
    rewrite createRoom_partnerOf; [|by apply in_heap_assign, (inv_heap _ HI)
                                    |by apply in_heap_assign, (inv_heap _ HI)|done].
    rewrite !queueRemove_elem by (done || by apply queueRemove_NoDup).
    repeat case_decide; subst.
    + split; [by intros [[_ ?] _]|by intros (_ & ? & _)].
    + split; [by intros [_ ?]|by intros (_ & ? & _)].
    + rewrite Hp1, Ha1, decide_False by done. simpl. rewrite (H x). tauto.
  - intros x. autorewrite with obs. simpl. rewrite queuePushUnique_elem.
    rewrite Hp1, Ha1. destruct (decide (x = c)) as [->|Hne].
    + split; [done|by left].
    + rewrite (H x). split; [by intros [?|?]|by right].
Qed.

Lemma queueExact_parseAndHandle c d s :
  Inv s → NoDup (waitingQueue s) → c ∈ clients s →
  queueExact s → queueExact (parseAndHandle cfg c d s).
Proof.
  intros HI Hq Hc H. destruct d as [|m]; simpl; [by apply queueExact_send|].
  assert (∀ p, partnerOf s c = Some p → p ∈ clients s ∧ is_Some (partnerOf s p))
    as Hsym.
  { intros p Hp. destruct (inv_sym _ HI c p Hc Hp) as [? ->]. eauto. }
  assert (∀ p m, queueExact (relayToPartner cfg p m s)) as Hrelay.
  { intros p m'. unfold relayToPartner.
    destruct (clients_get s p); [by apply queueExact_send|]. by rewrite no_store. }
  destruct m; simpl.
  - by apply queueExact_assign_neutral.
  - by apply queueExact_handleAvailable.
  - unfold handleOffer. destruct (partnerOf s c); [done|by apply queueExact_send].
  - unfold handleAnswer. destruct (partnerOf s c); [done|by apply queueExact_send].
  - unfold handleIce. destruct (partnerOf s c); [done|by apply queueExact_send].
  - unfold handleNext. destruct (partnerOf s c) as [p|] eqn:Hp;
      [|by apply queueExact_send].
    destruct (Hsym p eq_refl). apply queueExact_resetClient.
    + by apply releasePartner_NoDup.
    + by apply queueExact_releasePartner.
  - unfold handleLeave. destruct (partnerOf s c) as [p|] eqn:Hp.
    + destruct (Hsym p eq_refl). apply queueExact_resetClient.
      * by apply releasePartner_NoDup.
      * by apply queueExact_releasePartner.
    + by apply queueExact_resetClient.
  - by apply queueExact_send.
  - by apply queueExact_send.
Qed.

Lemma queueExact_step e s :
  Inv s → NoDup (waitingQueue s) → registered s e →
  queueExact s → queueExact (step cfg e s).
Proof.
  intros HI Hq Hr H. destruct e as [|now c d|c|c|l]; simpl in Hr;
    cbv beta iota delta [step].
  - intros x. unfold onConnection; simpl. autorewrite with obs. simpl.
    assert (uuid s ∉ clients s) as Hfresh.
    { intros Hin. apply (inv_heap _ HI), (inv_supply _ HI) in Hin. lia. }
    rewrite decide_False by done. rewrite elem_of_app, list_elem_of_singleton.
    unfold partnerOf, availableOf; simpl.
    destruct (decide (x = uuid s)) as [->|Hne].
    + rewrite lookup_insert_eq; simpl. split; [|by intros (_ & ? & _)].
      intros Hx%H. by destruct Hx as [? _].
    + rewrite lookup_insert_ne by done. rewrite (H x).
      unfold partnerOf, availableOf. tauto.
  - unfold onMessage, rateLimitOK.
    destruct (heap s !! c) as [cl|]; cbv beta iota zeta delta [negb];
      [|by apply queueExact_send].
    assert (∀ r, Inv (assign c (with_rate r) s)) as HI1
      by (intros r; by apply Inv_assign_neutral).
    assert (∀ r, queueExact (assign c (with_rate r) s)) as H1
      by (intros r; by apply queueExact_assign_neutral).
    destruct (_ >? _); cbv beta iota zeta delta [negb].
    + by apply queueExact_parseAndHandle.
    + destruct (_ <=? _); cbv beta iota zeta delta [negb].
      * by apply queueExact_parseAndHandle.
      * by apply queueExact_send.
  - unfold handleClientDisconnect. destruct (partnerOf s c) as [p|] eqn:Hp.
    + destruct (inv_sym _ HI c p Hr Hp) as [Hpin Hpc].
      apply queueExact_unregister; [by apply releasePartner_NoDup|].
      apply queueExact_releasePartner; try done; rewrite Hpc; eauto.
    + by apply queueExact_unregister.
  - unfold handleClientDisconnect. destruct (partnerOf s c) as [p|] eqn:Hp.
    + destruct (inv_sym _ HI c p Hr Hp) as [Hpin Hpc].
      apply queueExact_unregister; [by apply releasePartner_NoDup|].
      apply queueExact_releasePartner; try done; rewrite Hpc; eauto.
    + by apply queueExact_unregister.
  - by apply (queueExact_obs s).
Qed.

End QueueWithoutStore.

(** X21.  Without a store, and as long as every message and close concerns a
    registered connection, the in-memory waiting queue holds exactly the
    registered connections that are flagged available and have no partner:
    every handler that changes one of the three changes the queue with it. *)
Theorem queue_is_the_available_unpaired (cfg : Config) (es : list Event) (x : Id) :
  redis cfg = false → liveRun cfg es initState →
  x ∈ waitingQueue (run cfg es initState)
  ↔ x ∈ clients (run cfg es initState) ∧
    availableOf (run cfg es initState) x = true ∧
    partnerOf (run cfg es initState) x = None.
Proof.
  intros Hc Hl. revert x. change (queueExact (run cfg es initState)).
  assert (∀ s, Inv s → NoDup (waitingQueue s) → queueExact s →
               liveRun cfg es s → queueExact (run cfg es s)) as Hgen.
  { clear Hl. induction es as [|e es IH]; intros s HI Hq H Hl; [done|].
    destruct Hl as [Hr Hl]. simpl. apply IH; try done.
    - by apply Inv_step.
    - by apply step_NoDup.
    - by apply queueExact_step. }
  apply Hgen; [apply Inv_init|constructor| |done].
  intros x. simpl. split; [by intros ?%elem_of_nil|by intros [?%elem_of_nil _]].
Qed.

Lemma queue_is_the_available_unpaired_witness :
  1%nat ∈ waitingQueue (run defaultConfig requeuedThenNewcomer initState)
  ↔ 1%nat ∈ clients (run defaultConfig requeuedThenNewcomer initState) ∧
    availableOf (run defaultConfig requeuedThenNewcomer initState) 1%nat = true ∧
    partnerOf (run defaultConfig requeuedThenNewcomer initState) 1%nat = None.
Proof.
  assert (liveRun defaultConfig requeuedThenNewcomer initState) as H
    by (by apply (bool_decide_unpack _); vm_compute).
  exact (queue_is_the_available_unpaired defaultConfig requeuedThenNewcomer 1%nat
           eq_refl H).
Defined.

(** ** The limiter, per connection and per window *)

Lemma rateLimitOK_rateOf_other cfg now c s x :
  x ≠ c → rateOf (rateLimitOK cfg now c s).2 x = rateOf s x.
Proof.
  intros Hne. unfold rateLimitOK. destruct (heap s !! c) as [cl|]; [|done].
  unfold rateOf. destruct (_ >? _); simpl; by rewrite lookup_alter_ne.
Qed.

(** X22.  The limiter is per connection: a message from one connection,
    admitted or not and whatever it is, leaves the window and the counter of
    every other connection as they were. *)
Theorem limiter_is_per_connection (cfg : Config) (now : Z) (c x : Id)
    (d : Inbound) (s : State) :
  x ≠ c → rateOf (onMessage cfg now c d s) x = rateOf s x.
Proof.
  intros Hne. rewrite <- (rateLimitOK_rateOf_other cfg now c s x Hne).
  unfold onMessage. destruct (rateLimitOK cfg now c s) as [ok s1]. simpl.
  destruct ok; simpl; [|done]. apply prims_rateOf, prims_parseAndHandle.
Qed.

Lemma limiter_is_per_connection_witness :
  rateOf (onMessage defaultConfig 7000 0%nat (Parsed CNext)
            (run defaultConfig matchedPair initState)) 1%nat
  = rateOf (run defaultConfig matchedPair initState) 1%nat.
Proof.
  assert (1%nat ≠ 0%nat) as H by lia.
  exact (limiter_is_per_connection defaultConfig 7000 0%nat 1%nat (Parsed CNext)
           (run defaultConfig matchedPair initState) H).
Defined.

(** X23.  Once a connection's counter has reached the maximum, every further
    message it sends before the window ends is refused, whatever the messages
    are: a refused message still counts, and no handler resets the counter. *)
Theorem refused_until_the_window_ends (cfg : Config) (c : Id) (cl : Client)
    (ms : list (Z * Inbound)) (s : State) :
  heap s !! c = Some cl →
  MAX_MSG_PER_SECOND cfg ≤ count (rate cl) →
  Forall (λ td, td.1 - ts (rate cl) ≤ 1000) ms →
  verdicts cfg c ms s = replicate (length ms) false.
Proof.
  intros Hc Hmax Hw.
  rewrite (verdicts_within cfg c (ts (rate cl)) (count (rate cl)) ms s); [|..|done].
  - generalize 0%nat at 1. induction (length ms) as [|n IH]; intros k; [done|].
    simpl. rewrite IH. f_equal. apply Z.leb_gt. lia.
  - unfold rateOf. rewrite Hc. simpl. by destruct (rate cl).
Qed.

Lemma refused_until_the_window_ends_witness :
  verdicts (mkConfig true 0 false) 0%nat
    [(0, Parsed CPing); (500, Parsed CAvailable)] (run defaultConfig twoIdle initState)
  = [false; false].
Proof.
  assert (heap (run defaultConfig twoIdle initState) !! 0%nat
          = Some (mkClient 0%nat None None None false (mkRate 0 0))) as H
    by (by vm_compute).
  assert (MAX_MSG_PER_SECOND (mkConfig true 0 false) ≤ 0) as H1 by (by vm_compute).
  assert (Forall (λ td : Z * Inbound, td.1 - 0 ≤ 1000)
            [(0, Parsed CPing); (500, Parsed CAvailable)]) as H2
    by (repeat constructor; simpl; lia).
  exact (refused_until_the_window_ends (mkConfig true 0 false) 0%nat _ _ _ H H1 H2).
Defined.

(** ** A heartbeat round *)

Lemma filter_all {A} (P : A → Prop) `{∀ x, Decision (P x)} (l : list A) :
  (∀ x, P x) → filter P l = l.
Proof.
  intros HP. induction l as [|x l IH]; [done|].
  by rewrite filter_cons_True, IH.
Qed.

Section TeardownsWithoutStore.
Variable cfg : Config.
Hypothesis no_store : redis cfg = false.

Lemma handleClientDisconnect_effect c s :
  Inv s → c ∈ clients s →
  let s' := handleClientDisconnect cfg c s in
  clients s' = filter (λ i, i ≠ c) (clients s) ∧
  (∀ y, partnerOf s' y
        = if decide (partnerOf s c = Some y) then None else partnerOf s y) ∧
  sent s' = sent s ++ match partnerOf s c with
                      | Some p => [(p, PartnerLeft)]
                      | None => []
                      end.
Proof using no_store.
  intros HI Hc. cbv zeta. unfold handleClientDisconnect.
  destruct (partnerOf s c) as [p|] eqn:Hp.
  - destruct (inv_sym _ HI c p Hc Hp) as [Hpin Hpc]. split_and!.
    + simpl. by rewrite releasePartner_clients.
    + intros y. autorewrite with obs. rewrite releasePartner_partnerOf by done.
      repeat case_decide; simplify_eq; done.
    + simpl. rewrite releasePartner_registered by done. simpl.
      by destruct (REQUEUE_ON_PARTNER_LEAVE cfg).
  - split_and!; [done| |by rewrite app_nil_r].
    intros y. autorewrite with obs. by rewrite decide_False.
Qed.

Lemma msgsTo_more s s' new p :
  sent s' = sent s ++ new →
  msgsTo s' p = msgsTo s p ++ (filter (λ xm, xm.1 = p) new).*2.
Proof. intros H. unfold msgsTo. by rewrite H, filter_app, fmap_app. Qed.

Lemma teardowns_effect dead s :
  NoDup dead → (∀ x, x ∈ dead → x ∈ clients s) → Inv s →
  let s' := foldl (λ s i, handleClientDisconnect cfg i s) s dead in
  Inv s' ∧ clients s' = filter (λ i, i ∉ dead) (clients s) ∧
  (∀ y, partnerOf s y = None → partnerOf s' y = None) ∧
  (∀ q, (∀ c, c ∈ dead → partnerOf s c ≠ Some q) → msgsTo s' q = msgsTo s q) ∧
  (∀ c p, c ∈ dead → partnerOf s c = Some p → p ∉ dead →
          msgsTo s' p = msgsTo s p ++ [PartnerLeft] ∧ partnerOf s' p = None).
Proof using no_store.
  intros Hnd. revert s. induction Hnd as [|x rest Hx Hnd IH]; intros s Hreg HI.
  - cbv zeta. simpl. split_and!; try done.
    + symmetry. apply filter_all. intros ?. apply not_elem_of_nil.
    + by intros c p ?%elem_of_nil.
  - cbv zeta. simpl.
    assert (x ∈ clients s) as Hxs by (apply Hreg; by left).
    destruct (handleClientDisconnect_effect x s HI Hxs) as (Hcl & Hpo & Hse).
    pose proof (Inv_handleClientDisconnect cfg no_store x s HI Hxs) as HI1.
    set (s1 := handleClientDisconnect cfg x s) in *.
    assert (∀ y, y ∈ rest → y ∈ clients s1) as Hreg1.
    { intros y Hy. rewrite Hcl. apply list_elem_of_filter. split.
      - intros ->. done.
      - apply Hreg. by right. }
    assert (∀ q, partnerOf s x ≠ Some q → msgsTo s1 q = msgsTo s q) as Hquiet.
    { intros q Hq. rewrite (msgsTo_more s s1 _ q Hse).
      destruct (partnerOf s x) as [y|]; simpl; [|by rewrite app_nil_r].
      rewrite filter_cons_False by (simpl; congruence).
      by rewrite filter_nil, app_nil_r. }
    assert (∀ q, partnerOf s x = Some q →
                 msgsTo s1 q = msgsTo s q ++ [PartnerLeft]) as Htold.
    { intros q Hq. rewrite (msgsTo_more s s1 _ q Hse), Hq.
      by rewrite filter_cons_True, filter_nil by done. }
    destruct (IH s1 Hreg1 HI1) as (HI' & Hcl' & Hpo' & Hq' & Hpl').
    split_and!.
    + done.
    + rewrite Hcl', Hcl. rewrite list_filter_filter. apply list_filter_iff.
      intros y. rewrite not_elem_of_cons. tauto.
    + intros y Hy. apply Hpo'. rewrite Hpo. by case_decide.
    + intros q Hq. rewrite Hq'.
      * apply Hquiet, Hq. by left.
      * intros c Hc. rewrite Hpo. case_decide; [done|]. apply Hq. by right.
    + intros c p Hc Hp Hpd. apply not_elem_of_cons in Hpd as [Hpx Hpr].
      apply elem_of_cons in Hc as [->|Hc].
      * split.
        -- rewrite Hq'; [by apply Htold|].
           intros c' Hc'. rewrite Hpo. case_decide; [done|]. intros Hc'p.
           assert (c' ∈ clients s) as Hc's by (apply Hreg; by right).
           destruct (inv_sym _ HI c' p Hc's Hc'p) as [_ H1].
           destruct (inv_sym _ HI x p Hxs Hp) as [_ H2].
           assert (c' = x) as -> by congruence. done.
        -- apply Hpo'. rewrite Hpo. by rewrite decide_True.
      * assert (partnerOf s x ≠ Some p) as Hxp.
        { intros Hxp. assert (c ∈ clients s) as Hcs by (apply Hreg; by right).
          destruct (inv_sym _ HI c p Hcs Hp) as [_ H1].
          destruct (inv_sym _ HI x p Hxs Hxp) as [_ H2].
          assert (c = x) as -> by congruence. done. }
        rewrite <- (Hquiet p Hxp). apply (Hpl' c p); try done.
        rewrite Hpo. rewrite decide_False; [done|].
        intros Hxc. destruct (inv_sym _ HI x c Hxs Hxc) as [_ Hcx]. congruence.
Qed.

End TeardownsWithoutStore.

Lemma heartbeatTick_dead alive x :
  x ∈ (heartbeatTick alive).1 ↔ alive !! x = Some false.
Proof.
  unfold heartbeatTick; simpl. rewrite list_elem_of_fmap. split.
  - intros ([k v] & -> & H). apply elem_of_map_to_list in H.
    apply map_lookup_filter_Some in H as [H Hv]. simpl in *. by subst.
  - intros H. exists (x, false). split; [done|].
    apply elem_of_map_to_list, map_lookup_filter_Some. by split.
Qed.

Lemma onSocketGone_all dead (alive : gmap Id bool) x :
  foldr onSocketGone alive dead !! x = if decide (x ∈ dead) then None else alive !! x.
Proof.
  induction dead as [|y dead IH]; simpl; [done|].
  unfold onSocketGone at 1. destruct (decide (x = y)) as [->|Hne].
  - rewrite lookup_delete_eq. rewrite decide_True; [done|by left].
  - rewrite lookup_delete_ne by done. rewrite IH.
    destruct (decide (x ∈ dead)).
    + rewrite decide_True; [done|by right].
    + rewrite decide_False; [done|]. rewrite not_elem_of_cons. tauto.
Qed.

(** X24.  A heartbeat round without a store, in a state where the pairing
    invariant holds and the sockets found silent all carry registered
    connections, the closes being handled in any order and nothing else in
    between: each silent connection leaves the registry; a partner that
    answered the last ping stays, with its flag lowered for the next round,
    is handed exactly one message by the round, [partner-left], and is
    unlinked; a connection that is neither silent nor the partner of a silent
    one is handed nothing; the pairing invariant holds afterwards. *)
Theorem heartbeat_round_tells_the_partner (cfg : Config) (order : list Id)
    (alive : gmap Id bool) (s : State) (c p : Id) :
  redis cfg = false → Inv s →
  order ≡ₚ (heartbeatTick alive).1 →
  (∀ x, alive !! x = Some false → x ∈ clients s) →
  alive !! c = Some false → partnerOf s c = Some p → alive !! p = Some true →
  let r := heartbeatRound cfg order alive s in
  pairing_invariant r.2 ∧
  clients r.2 = filter (λ i, alive !! i ≠ Some false) (clients s) ∧
  r.1 !! c = None ∧ r.1 !! p = Some false ∧
  msgsTo r.2 p = msgsTo s p ++ [PartnerLeft] ∧ partnerOf r.2 p = None ∧
  (∀ q, (∀ x, alive !! x = Some false → partnerOf s x ≠ Some q) →
        msgsTo r.2 q = msgsTo s q).
Proof.
  intros Hc HI Hperm Hreg Hcd Hp Hpa. cbv zeta. unfold heartbeatRound.
  assert (∀ x, x ∈ order ↔ alive !! x = Some false) as Hdead.
  { intros x. rewrite Hperm. apply heartbeatTick_dead. }
  assert (NoDup order) as Hnd.
  { rewrite Hperm. apply NoDup_fst_map_to_list. }
  assert (p ∉ order) as Hpd by (rewrite Hdead; congruence).
  destruct (teardowns_effect cfg Hc order s Hnd) as (HI' & Hcl & _ & Hq & Hpl);
    [by intros x ?%Hdead; apply Hreg|done|].
  cbn [fst snd]. split_and!.
  - destruct HI' as [_ _ ? ?]. by split.
  - rewrite Hcl. apply list_filter_iff. intros x. by rewrite Hdead.
  - rewrite onSocketGone_all. rewrite decide_True; [done|by apply Hdead].
  - rewrite onSocketGone_all. rewrite decide_False by done.
    unfold heartbeatTick; simpl. by rewrite lookup_fmap, Hpa.
  - by apply (Hpl c p); [apply Hdead|..].
  - by apply (Hpl c p); [apply Hdead|..].
  - intros q Hno. apply Hq. intros x Hx. by apply Hno, Hdead.
Qed.

Lemma heartbeat_round_tells_the_partner_witness :
  msgsTo (heartbeatRound defaultConfig [0%nat] {[0%nat := false; 1%nat := true]}
            (run defaultConfig matchedPair initState)).2 1%nat
  = msgsTo (run defaultConfig matchedPair initState) 1%nat ++ [PartnerLeft].
Proof.
  assert (Inv (run defaultConfig matchedPair initState)) as HI.
  { apply Inv_run; [done|apply Inv_init|].
    by apply (bool_decide_unpack _); vm_compute. }
  assert ([0%nat] ≡ₚ (heartbeatTick {[0%nat := false; 1%nat := true]}).1) as Hperm
    by (by vm_compute).
  assert (∀ x, ({[0%nat := false; 1%nat := true]} : gmap Id bool) !! x = Some false →
               x ∈ clients (run defaultConfig matchedPair initState)) as Hreg.
  { intros x. destruct (decide (x = 0%nat)) as [->|Hne].
    - intros _. by apply (bool_decide_unpack _); vm_compute.
    - rewrite lookup_insert_ne by done. by intros [_ ?]%lookup_singleton_Some. }
  assert (partnerOf (run defaultConfig matchedPair initState) 0%nat = Some 1%nat)
    as Hp by (by vm_compute).
  exact (proj1 (proj2 (proj2 (proj2 (proj2
    (heartbeat_round_tells_the_partner defaultConfig [0%nat]
       {[0%nat := false; 1%nat := true]} _ 0%nat 1%nat
       eq_refl HI Hperm Hreg eq_refl Hp eq_refl)))))).
Defined.

(** ** The two listings *)

(** X25.  With no store configured, the extended server is [index.js] behind
    the rate limiter: it handles a close or a socket error exactly as
    [index.js] does, and a message exactly as [index.js] does once the limiter
    has counted and admitted it; a message the limiter refuses is answered
    with RATE_LIMIT and reaches no handler. *)
Theorem without_store_the_listings_agree (cfg : Config) :
  redis cfg = false →
  (∀ c s, handleClientDisconnect cfg c s
          = IndexJs.handleClientDisconnect (REQUEUE_ON_PARTNER_LEAVE cfg) c s) ∧
  (∀ now c d s,
     onMessage cfg now c d s
     = let '(ok, s1) := rateLimitOK cfg now c s in
       if ok then IndexJs.onMessage (REQUEUE_ON_PARTNER_LEAVE cfg) c d s1
       else sendToClient c (Error RATE_LIMIT) s1).
Proof.
  intros Hc. split.
  - intros c s. by apply IndexJs_handleClientDisconnect.
  - intros now c d s. unfold onMessage.
    destruct (rateLimitOK cfg now c s) as [[] s1]; simpl; [|done].
    by apply IndexJs_onMessage.
Qed.

Lemma without_store_the_listings_agree_witness :
  handleClientDisconnect defaultConfig 0%nat (run defaultConfig matchedPair initState)
  = IndexJs.handleClientDisconnect true 0%nat (run defaultConfig matchedPair initState).
Proof.
  exact (proj1 (without_store_the_listings_agree defaultConfig eq_refl) 0%nat
           (run defaultConfig matchedPair initState)).
Defined.

(** ** Rooms, without a store *)

Lemma liveRun_snoc cfg es e s :
  liveRun cfg (es ++ [e]) s ↔ liveRun cfg es s ∧ registered (run cfg es s) e.
Proof.
  revert s. induction es as [|e' es IH]; intros s; simpl.
  - tauto.
  - rewrite IH. tauto.
Qed.

Lemma resetClient_roomOf c s x :
  roomOf (resetClient c s) x = if decide (x = c) then None else roomOf s x.
Proof.
  unfold resetClient. autorewrite with obs; simpl.
  unfold assign; simpl; rewrite ?lookup_alter.
  repeat case_decide; subst; try congruence; simpl; try done.
  by destruct (heap s !! x).
Qed.

Lemma releasePartner_roomOf cfg p s x :
  redis cfg = false → p ∈ clients s →
  roomOf (releasePartner cfg p s) x = if decide (x = p) then None else roomOf s x.
Proof.
  intros Hc H. rewrite releasePartner_registered by done. simpl.
  destruct (REQUEUE_ON_PARTNER_LEAVE cfg); autorewrite with obs; simpl;
    unfold assign; simpl; rewrite ?lookup_alter;
    repeat case_decide; subst; try congruence; simpl; try done;
    by destruct (heap s !! x).
Qed.

Lemma roomsShared_obs s s' :
  clients s' = clients s →
  (∀ x, roomOf s' x = roomOf s x) → (∀ x, partnerOf s' x = partnerOf s x) →
  roomsShared s → roomsShared s'.
Proof.
  intros Hc Hr Hp H c d r. rewrite Hc, !Hr, Hp. apply H.
Qed.

Lemma roomsShared_assign_neutral c f s :
  (∀ cl, partnerId (f cl) = partnerId cl) →
  (∀ cl, roomId (f cl) = roomId cl) →
  roomsShared s → roomsShared (assign c f s).
Proof.
  intros Hp Hr. apply roomsShared_obs; try done.
  - intros x. rewrite roomOf_assign. case_decide; [subst|done].
    unfold roomOf. destruct (heap s !! x); simpl; by rewrite ?Hr.
  - intros x. rewrite partnerOf_assign. case_decide; [subst|done].
    unfold partnerOf. destruct (heap s !! x); simpl; by rewrite ?Hp.
Qed.

(** The connections in [gone] lose their room and may leave the registry; the
    others keep room and partner.  [gone] is closed under "is the partner
    of". *)
Lemma roomsShared_unlink (gone : list Id) s s' :
  (∀ x, x ∈ clients s' → x ∈ clients s) →
  (∀ x, x ∈ clients s' → x ∉ gone →
        roomOf s' x = roomOf s x ∧ partnerOf s' x = partnerOf s x) →
  (∀ x, x ∈ clients s' → x ∈ gone → roomOf s' x = None) →
  (∀ x y, x ∈ clients s → partnerOf s x = Some y → y ∈ gone → x ∈ gone) →
  roomsShared s → roomsShared s'.
Proof.
  intros Hcl Hkeep Hgone Hclosed H c d r Hc Hd Hne Hr.
  destruct (decide (c ∈ gone)) as [Hcg|Hcg].
  { rewrite (Hgone c Hc Hcg) in Hr. done. }
  destruct (Hkeep c Hc Hcg) as [Hrc Hpc]. rewrite Hrc in Hr. rewrite Hpc.
  destruct (decide (d ∈ gone)) as [Hdg|Hdg].
  - rewrite (Hgone d Hd Hdg). split; [done|]. intros Hp.
    destruct Hcg. by apply (Hclosed c d); [apply Hcl|..].
  - destruct (Hkeep d Hd Hdg) as [-> _]. apply H; auto.
Qed.

Lemma elem_of_pair (x a b : Id) : x ∈ [a; b] ↔ x = a ∨ x = b.
Proof. by rewrite elem_of_cons, list_elem_of_singleton. Qed.

Section RoomsWithoutStore.
Variable cfg : Config.
Hypothesis no_store : redis cfg = false.

Lemma roomsShared_handleAvailable c s :
  Inv s → roomsBelow s → c ∈ clients s →
  roomsShared s → roomsShared (handleAvailable cfg c s).
Proof using no_store.
  intros HI HB Hc H. unfold handleAvailable.
  case_bool_decide as Hp; [by apply (roomsShared_obs s)|].
  assert (partnerOf s c = None) as Hpc.
  { destruct (partnerOf s c); [destruct Hp; eauto|done]. }
  rewrite no_store. clear Hp.
  destruct (inv_heap _ HI c Hc) as [cl Hcl].
  set (s1 := assign c (with_isAvailable true) s).
  assert (∀ x, partnerOf s1 x = partnerOf s x) as Hp1.
  { intros x. unfold s1. rewrite partnerOf_assign. case_decide; [subst|done].
    unfold partnerOf. by rewrite Hcl. }
  assert (∀ x, roomOf s1 x = roomOf s x) as Hr1.
  { intros x. unfold s1. rewrite roomOf_assign. case_decide; [subst|done].
    unfold roomOf. by rewrite Hcl. }
  unfold matchLocally. destruct (findAvailablePartner c s1) as [p|] eqn:E;
    [|by apply (roomsShared_obs s)].
  apply findAvailablePartner_Some in E as (Hpin & Hne & _ & Hpp).
  rewrite Hp1 in Hpp. change (clients s1) with (clients s) in Hpin.
  intros c0 d0 r. rewrite createRoom_clients. intros Hc0 Hd0 Hne0.
  change (clients s1) with (clients s) in Hc0, Hd0.
  rewrite !createRoom_roomOf by (by apply in_heap_assign, (inv_heap _ HI)).
  rewrite createRoom_partnerOf; [|by apply in_heap_assign, (inv_heap _ HI)
                                  |by apply in_heap_assign, (inv_heap _ HI)|done].
  change (uuid s1) with (uuid s). rewrite !Hr1, Hp1.
  assert (∀ x, roomOf s x ≠ Some (uuid s)) as Hfresh.
  { intros x Hx%HB. lia. }
  pose proof (Inv_unpaired_unreferenced s c c0 HI Hc Hpc Hc0) as Hnc.
  pose proof (Inv_unpaired_unreferenced s p c0 HI Hpin Hpp Hc0) as Hnp.
  assert (∀ x (A B : option RoomId),
            (if decide (x = c ∨ x = p) then A else B)
            = if decide (x = c) then A else if decide (x = p) then A else B) as Hdec.
  { intros x A B. repeat case_decide; try done; tauto. }
  rewrite !Hdec. clear Hdec.
  repeat case_decide; simplify_eq; intros Hr; try (by apply H);
    (split; intros Hx; simplify_eq; try done;
     try (by destruct (Hfresh _ Hr)); try (by destruct (Hfresh _ Hx))).
Qed.

Lemma roomsShared_release_reset c p s :
  Inv s → c ∈ clients s → partnerOf s c = Some p →
  roomsShared s → roomsShared (resetClient c (releasePartner cfg p s)).
Proof using no_store.
  intros HI Hc Hp H. destruct (inv_sym _ HI c p Hc Hp) as [Hpin Hpc].
  apply (roomsShared_unlink [c; p] s); try done.
  - intros x. unfold resetClient; simpl. by rewrite releasePartner_clients.
  - intros x _ Hx. apply not_elem_of_cons in Hx as [Hxc Hx].
    apply not_elem_of_cons in Hx as [Hxp _].
    rewrite resetClient_roomOf, resetClient_partnerOf.
    rewrite releasePartner_roomOf, releasePartner_partnerOf by done.
    by rewrite !decide_False by done.
  - intros x _ Hx. rewrite resetClient_roomOf, releasePartner_roomOf by done.
    repeat case_decide; try done. apply elem_of_pair in Hx. tauto.
  - intros x y Hx Hxy Hy. destruct (inv_sym _ HI x y Hx Hxy) as [_ Hyx].
    apply elem_of_pair in Hy as [-> | ->]; apply elem_of_pair; [right|left];
      congruence.
Qed.

Lemma roomsShared_reset c s :
  Inv s → c ∈ clients s → partnerOf s c = None →
  roomsShared s → roomsShared (resetClient c s).
Proof.
  intros HI Hc Hp H. apply (roomsShared_unlink [c] s); try done.
  - intros x Hx Hxc. apply not_elem_of_cons in Hxc as [Hxc _].
    rewrite resetClient_roomOf, resetClient_partnerOf.
    by rewrite !decide_False by done.
  - intros x _ ->%list_elem_of_singleton.
    by rewrite resetClient_roomOf, decide_True.
  - intros x y Hx Hxy ->%list_elem_of_singleton.
    destruct (inv_sym _ HI x c Hx Hxy) as [_ ?]. congruence.
Qed.

Lemma roomsShared_handleClientDisconnect c s :
  Inv s → c ∈ clients s →
  roomsShared s → roomsShared (handleClientDisconnect cfg c s).
Proof using no_store.
  intros HI Hc H. unfold handleClientDisconnect.
  destruct (partnerOf s c) as [p|] eqn:Hp.
  - destruct (inv_sym _ HI c p Hc Hp) as [Hpin Hpc].
    apply (roomsShared_unlink [c; p] s); try done.
    + intros x. simpl. rewrite releasePartner_clients by done.
      by intros [_ ?]%list_elem_of_filter.
    + intros x _ Hx. apply not_elem_of_cons in Hx as [Hxc Hx].
      apply not_elem_of_cons in Hx as [Hxp _]. autorewrite with obs.
      rewrite releasePartner_roomOf, releasePartner_partnerOf by done.
      by rewrite !decide_False by done.
    + intros x Hx Hxg. simpl in Hx. apply list_elem_of_filter in Hx as [Hxc _].
      autorewrite with obs. rewrite releasePartner_roomOf by done.
      case_decide; [done|]. apply elem_of_pair in Hxg. tauto.
    + intros x y Hx Hxy Hy. destruct (inv_sym _ HI x y Hx Hxy) as [_ Hyx].
      apply elem_of_pair in Hy as [-> | ->]; apply elem_of_pair; [right|left];
        congruence.
  - apply (roomsShared_unlink [c] s); try done.
    + intros x. simpl. by intros [_ ?]%list_elem_of_filter.
    + intros x Hx ->%list_elem_of_singleton. simpl in Hx.
      by apply list_elem_of_filter in Hx as [? _].
    + intros x y Hx Hxy ->%list_elem_of_singleton.
      destruct (inv_sym _ HI x c Hx Hxy) as [_ ?]. congruence.
Qed.

Lemma roomsShared_parseAndHandle c d s :
  Inv s → roomsBelow s → c ∈ clients s →
  roomsShared s → roomsShared (parseAndHandle cfg c d s).
Proof using no_store.
  intros HI HB Hc H. destruct d as [|m]; simpl; [by apply (roomsShared_obs s)|].
  assert (∀ p m, roomsShared (relayToPartner cfg p m s)) as Hrelay.
  { intros p m'. unfold relayToPartner.
    destruct (clients_get s p); [by apply (roomsShared_obs s)|]. by rewrite no_store. }
  destruct m; simpl.
  - by apply roomsShared_assign_neutral.
  - by apply roomsShared_handleAvailable.
  - unfold handleOffer. destruct (partnerOf s c); [done|by apply (roomsShared_obs s)].
  - unfold handleAnswer. destruct (partnerOf s c); [done|by apply (roomsShared_obs s)].
  - unfold handleIce. destruct (partnerOf s c); [done|by apply (roomsShared_obs s)].
  - unfold handleNext. destruct (partnerOf s c) as [p|] eqn:Hp;
      [|by apply (roomsShared_obs s)].
    by apply roomsShared_release_reset.
  - unfold handleLeave. destruct (partnerOf s c) as [p|] eqn:Hp.
    + by apply roomsShared_release_reset.
    + by apply roomsShared_reset.
  - by apply (roomsShared_obs s).
  - by apply (roomsShared_obs s).
Qed.

Lemma roomsShared_step e s :
  Inv s → roomsBelow s → registered s e →
  roomsShared s → roomsShared (step cfg e s).
Proof using no_store.
  intros HI HB Hr H. destruct e as [|now c d|c|c|l]; simpl in Hr;
    cbv beta iota delta [step].
  - assert (uuid s ∉ clients s) as Hfresh.
    { intros Hin. apply (inv_heap _ HI), (inv_supply _ HI) in Hin. lia. }
    assert (∀ x, x ∈ clients s → x ≠ uuid s) as Hold by (intros x ? ->; done).
    intros c d r. unfold onConnection; simpl. rewrite decide_False by done.
    rewrite !elem_of_app, !list_elem_of_singleton.
    unfold roomOf, partnerOf; simpl. intros Hc Hd Hne.
    destruct (decide (c = uuid s)) as [->|Hcn]; [by rewrite lookup_insert_eq|].
    rewrite (lookup_insert_ne _ _ c) by done.
    destruct Hc as [Hc|Hc]; [|done].
    destruct (decide (d = uuid s)) as [->|Hdn].
    + rewrite lookup_insert_eq; simpl. intros Hrc. split; [done|]. intros Hp.
      destruct (inv_sym _ HI c (uuid s) Hc Hp) as [? _]. done.
    + rewrite lookup_insert_ne by done. destruct Hd as [Hd|Hd]; [|done].
      by apply H.
  - unfold onMessage, rateLimitOK.
    destruct (heap s !! c) as [cl|]; cbv beta iota zeta delta [negb];
      [|by apply (roomsShared_obs s)].
    assert (∀ r, Inv (assign c (with_rate r) s)) as HI1
      by (intros r; by apply Inv_assign_neutral).
    assert (∀ r, roomsShared (assign c (with_rate r) s)) as H1
      by (intros r; by apply roomsShared_assign_neutral).
    assert (∀ r, roomsBelow (assign c (with_rate r) s)) as HB1.
    { intros r x r'. rewrite roomOf_assign. case_decide; [subst|apply HB].
      intros Hx. apply (HB x). unfold roomOf. by destruct (heap s !! x). }
    destruct (_ >? _); cbv beta iota zeta delta [negb].
    + by apply roomsShared_parseAndHandle.
    + destruct (_ <=? _); cbv beta iota zeta delta [negb].
      * by apply roomsShared_parseAndHandle.
      * by apply (roomsShared_obs
                    (assign c (with_rate (mkRate (ts (rate cl)) (count (rate cl) + 1))) s)).
  - by apply roomsShared_handleClientDisconnect.
  - by apply roomsShared_handleClientDisconnect.
  - by apply (roomsShared_obs s).
Qed.

End RoomsWithoutStore.

(** X26.  Without a store, and as long as every message and close concerns a
    registered connection, a room belongs to one pair: a registered connection
    that holds a room id shares it with its partner and with no other
    registered connection. *)
Theorem room_belongs_to_one_pair (cfg : Config) (es : list Event) (c d : Id)
    (r : RoomId) :
  redis cfg = false → liveRun cfg es initState →
  c ∈ clients (run cfg es initState) → d ∈ clients (run cfg es initState) →
  c ≠ d → roomOf (run cfg es initState) c = Some r →
  (roomOf (run cfg es initState) d = Some r
   ↔ partnerOf (run cfg es initState) c = Some d).
Proof.
  intros Hc Hl. revert c d r. change (roomsShared (run cfg es initState)).
  induction es as [|e es IH] using rev_ind.
  - by intros c d r ?%elem_of_nil.
  - apply liveRun_snoc in Hl as [Hl Hr]. rewrite run_snoc.
    apply roomsShared_step; try done.
    + apply Inv_run; [done|apply Inv_init|done].
    + apply run_roomsBelow_idsAgree.
    + by apply IH.
Qed.

Lemma room_belongs_to_one_pair_witness :
  roomOf (run defaultConfig requeuedThenNewcomer initState) 4%nat = Some 7%nat
  ↔ partnerOf (run defaultConfig requeuedThenNewcomer initState) 1%nat
    = Some 4%nat.
Proof.
  assert (liveRun defaultConfig requeuedThenNewcomer initState) as Hl
    by (by apply (bool_decide_unpack _); vm_compute).
  assert (1%nat ∈ clients (run defaultConfig requeuedThenNewcomer initState)) as H1
    by (by apply (bool_decide_unpack _); vm_compute).
  assert (4%nat ∈ clients (run defaultConfig requeuedThenNewcomer initState)) as H4
    by (by apply (bool_decide_unpack _); vm_compute).
  assert (1%nat ≠ 4%nat) as Hne by lia.
  assert (roomOf (run defaultConfig requeuedThenNewcomer initState) 1%nat
          = Some 7%nat) as Hr by (by vm_compute).
  exact (room_belongs_to_one_pair defaultConfig requeuedThenNewcomer 1%nat 4%nat
           7%nat eq_refl Hl H1 H4 Hne Hr).
Defined.

(** ** Requeueing with a store *)

(** X27.  With a store and requeueing on, a released partner that is
    registered here is told [partner-left], unlinked and flagged available,
    and its id is pushed on the store's list, never on the in-memory queue.
    When the store rejects the push the rejection is swallowed: everything
    else happens all the same and the partner is on no list. *)
Theorem requeue_goes_to_the_store (cfg : Config) (p : Id) (s : State) :
  redis cfg = true → REQUEUE_ON_PARTNER_LEAVE cfg = true →
  p ∈ clients s → in_heap s p →
  let s' := releasePartner cfg p s in
  sent s' = sent s ++ [(p, PartnerLeft)] ∧
  partnerOf s' p = None ∧ roomOf s' p = None ∧ availableOf s' p = true ∧
  waitingQueue s' = waitingQueue s ∧ published s' = published s ∧
  clients s' = clients s ∧
  redisList s' = (if head (faults s) is Some true then redisList s
                  else p :: redisList s) ∧
  faults s' = tail (faults s).
Proof.
  intros Hc Hq Hp [cl Hcl]. cbv zeta. unfold releasePartner.
  rewrite relayToPartner_registered by done.
  rewrite clients_get_Some by done. rewrite Hc, Hq.
  unfold lpush, nextFault; simpl.
  destruct (faults s) as [|[] fs] eqn:E; simpl; unfold partnerOf, roomOf, availableOf;
    simpl; rewrite ?E, !lookup_alter_eq, Hcl; by split_and!.
Qed.

Lemma requeue_goes_to_the_store_witness :
  redisList (releasePartner storeConfig 1%nat
               (run storeConfig staleStoreEntry initState)) = [1%nat].
Proof.
  assert (1%nat ∈ clients (run storeConfig staleStoreEntry initState)) as H1
    by (by apply (bool_decide_unpack _); vm_compute).
  assert (in_heap (run storeConfig staleStoreEntry initState) 1%nat) as H2
    by (by vm_compute; eexists).
  exact (proj1 (proj2 (proj2 (proj2 (proj2 (proj2 (proj2 (proj2
    (requeue_goes_to_the_store storeConfig 1%nat _ eq_refl eq_refl H1 H2))))))))).
Defined.

(** ** [leave] and [next] *)

(** X28.  For a connection that has a partner, [leave] and [next] are the same
    operation, in both listings and in every configuration: the two handlers
    differ only in what they do for a connection without a partner. *)
Theorem leave_is_next_when_paired (cfg : Config) (c : Id) (s : State) :
  is_Some (partnerOf s c) →
  handleLeave cfg c s = handleNext cfg c s ∧
  ∀ requeue, IndexJs.handleLeave requeue c s = IndexJs.handleNext requeue c s.
Proof.
  intros [p Hp]. unfold handleLeave, handleNext, IndexJs.handleLeave,
    IndexJs.handleNext. by rewrite Hp.
Qed.

Lemma leave_is_next_when_paired_witness :
  handleLeave storeConfig 1%nat (run storeConfig staleStoreEntry initState)
  = handleNext storeConfig 1%nat (run storeConfig staleStoreEntry initState).
Proof.
  assert (is_Some (partnerOf (run storeConfig staleStoreEntry initState) 1%nat))
    as H by (by vm_compute; eexists).
  exact (proj1 (leave_is_next_when_paired storeConfig 1%nat _ H)).
Defined.
